(** * Migration sessions and instance publishing: a model of the Go sources

    The development follows three source files:
    - [cmd/incusd/migrate.go]: the shared migration fields, the control
      channel ([send], [recv], [disconnect], [sendControl]) and the two
      [Connect] endpoints, first one call at a time, then as goroutines
      that share the control lock;
    - the publish command ([cmdPublish.Run]), as a program that calls the
      outside world and is run against every possible world;
    - the storage driver interface ([Driver.MigrationTypes]).

    Go values are modelled as follows: [error] is an inductive type and a
    Go [error] that may be nil is an [option error]; a result
    [(value, err)] is a sum; a Go map is a [gmap]; a function that mutates
    its receiver returns the new receiver.  The definitions come first,
    the facts about them after. *)

From Stdlib Require Import ZArith String Ascii List.
From stdpp Require Import base option list gmap strings fin_maps.

Local Open Scope Z_scope.
Local Open Scope string_scope.
Local Open Scope list_scope.

(** ** Go errors *)

(** The three ways the sources build an error: [api.StatusErrorf(code, msg)],
    [fmt.Errorf(format, args..., err)] with a wrapped cause ([%w]) or
    without one, and [errors.New(msg)].  The format string is kept with its
    arguments instead of being rendered. *)
Inductive error : Type :=
  | StatusErrorf (status : Z) (msg : string)
  | Errorf (format : string) (args : list string)
  | Errorf_w (format : string) (args : list string) (wrapped : error)
  | errors_New (msg : string).

(** net/http status codes. *)
Definition StatusBadRequest : Z := 400.
Definition StatusForbidden : Z := 403.
Definition StatusNotFound : Z := 404.

(** The HTTP status an error carries, if it is a status error. *)
Definition status_of (e : error) : option Z :=
  match e with
  | StatusErrorf code _ => Some code
  | _ => None
  end.

(** A call either returns or stops the goroutine with a run-time panic. *)
Inductive outcome (A : Type) : Type :=
  | Done (a : A)
  | Panics.
Arguments Done {A} a.
Arguments Panics {A}.

(** ** Connections *)

(** Modelled from the spec: [migration.ProtoSend] and
    [migration.ProtoSendControl], declared outside the source files, each
    serialize one message and write it as one frame.  What is written on a
    websocket is thus a protocol message, a final status (success when the
    error is nil) or the websocket close message. *)
Definition Message : Type := string.

Inductive Frame : Type :=
  | ProtoFrame (m : Message)
  | ControlFrame (err : option error)
  | CloseFrame.

(** Modelled from the spec: the type [migrationConn] and its methods
    [Secret], [WebSocket], [Close] and [AcceptIncoming] are declared outside
    the source files.  The spec gives an entry a secret and the life cycle
    pending (secret issued, no stream attached), established (stream
    attached and upgraded), closed (never reopened).  [sent] records the
    frames written on the entry's stream. *)
Inductive connState : Type := Pending | Established | Closed.

Record migrationConn : Type := {
  Secret : string;
  state : connState;
  sent : list Frame
}.

#[global] Instance connState_eq_dec : EqDecision connState.
Proof. solve_decision. Defined.

(** Modelled from the spec: [WebSocket(ctx)] yields the stream of an
    established entry and an error for an entry that has no usable stream. *)
Definition WebSocket (c : migrationConn) : option error :=
  match state c with
  | Established => None
  | Pending => Some (errors_New "connection not established")
  | Closed => Some (errors_New "connection closed")
  end.

(** Modelled from the spec: [Close] forces the entry into the closed state,
    whatever its state was; it returns nothing. *)
Definition Close (c : migrationConn) : migrationConn :=
  {| Secret := Secret c; state := Closed; sent := sent c |}.

(** One framed write on an entry's stream.  [net] is what the network
    answers: nil when the frame went out, an error otherwise. *)
Definition write (f : Frame) (net : option error) (c : migrationConn)
  : migrationConn :=
  match net with
  | None => {| Secret := Secret c; state := state c; sent := sent c ++ [f] |}
  | Some _ => c
  end.

(** An incoming HTTP request: its form values, and whether it is a
    well-formed websocket handshake (only the modelled [AcceptIncoming]
    below reads the latter). *)
Record Request : Type := {
  Form : gmap string string;
  Handshake : bool
}.

(** [r.FormValue(key)]: the value, or the empty string when absent. *)
Definition FormValue (r : Request) (key : string) : string :=
  default EmptyString (Form r !! key).

(** Modelled from the spec: [AcceptIncoming] upgrades the request into a
    stream and marks a pending entry established; an entry that is not
    pending, or a request that cannot be upgraded, gives an error and
    leaves the entry as it was. *)
Definition AcceptIncoming_model (c : migrationConn) (r : Request)
  : option error * migrationConn :=
  match state c with
  | Pending =>
      if Handshake r
      then (None, {| Secret := Secret c; state := Established; sent := sent c |})
      else (Some (errors_New "Failed upgrading incoming request to websocket"), c)
  | _ => (Some (errors_New "Connection already established"), c)
  end.

(** ** [migrationFields] *)

(** Modelled from the spec: the reserved name of the control connection
    ([api.SecretNameControl]). *)
Definition SecretNameControl : string := "control".

(** The struct of migrate.go, without the lock (a sequential call takes and
    releases it) and without the [instance] handle. *)
Record migrationFields : Type := {
  conns : gmap string migrationConn;
  live : bool;
  instanceOnly : bool;
  volumeOnly : bool;
  allowInconsistent : bool;
  storagePool : string
}.

Definition set_conns (c : migrationFields) (m : gmap string migrationConn)
  : migrationFields :=
  {| conns := m; live := live c; instanceOnly := instanceOnly c;
     volumeOnly := volumeOnly c; allowInconsistent := allowInconsistent c;
     storagePool := storagePool c |}.

(** A write on the stream of the control entry. *)
Definition write_control (f : Frame) (net : option error) (c : migrationFields)
  : migrationFields :=
  set_conns c (alter (write f net) SecretNameControl (conns c)).

(** [send]: with the lock held, fetch the control websocket; without one,
    return the wrapped error; otherwise write the message and return the
    write's error.  A missing "control" key makes the receiver of
    [WebSocket] a nil pointer. *)
Definition send (c : migrationFields) (m : Message) (net : option error)
  : outcome (option error * migrationFields) :=
  match conns c !! SecretNameControl with
  | None => Panics
  | Some ctl =>
      match WebSocket ctl with
      | Some err =>
          Done (Some (Errorf_w "Control connection not initialized: %w" [] err), c)
      | None =>
          Done (net, write_control (ProtoFrame m) net c)
      end
  end.

(** [recv]: the same guard, then [migration.ProtoRecv], whose result
    [incoming] is the decoded message or the read error. *)
Definition recv (c : migrationFields) (incoming : error + Message)
  : outcome (error + Message) :=
  match conns c !! SecretNameControl with
  | None => Panics
  | Some ctl =>
      match WebSocket ctl with
      | Some err =>
          Done (inl (Errorf_w "Control connection not initialized: %w" [] err))
      | None => Done incoming
      end
  end.

(** [disconnect]: under the lock, write a close message on the control
    websocket if there is one, ignoring the result; then close every
    entry of the map. *)
Definition disconnect (c : migrationFields) (net : option error)
  : outcome migrationFields :=
  match conns c !! SecretNameControl with
  | None => Panics
  | Some ctl =>
      let c1 :=
        match WebSocket ctl with
        | None => write_control CloseFrame net c
        | Some _ => c
        end in
      Done (set_conns c1 (Close <$> conns c1))
  end.

(** [sendControl]: under the lock, write the final status on the control
    websocket if there is one; then, when [err] is not nil, disconnect. *)
Definition sendControl (c : migrationFields) (err : option error)
    (net net_close : option error) : outcome migrationFields :=
  match conns c !! SecretNameControl with
  | None => Panics
  | Some ctl =>
      let c1 :=
        match WebSocket ctl with
        | None => write_control (ControlFrame err) net c
        | Some _ => c
        end in
      match err with
      | Some _ => disconnect c1 net_close
      | None => Done c1
      end
  end.

(** ** The two [Connect] endpoints *)

Record migrationSourceWs : Type := {
  source_fields : migrationFields;
  source_clusterMoveSourceName : string;
  pushCertificate : string;
  pushOperationURL : string;
  pushSecrets : gmap string string
}.

Record migrationSink : Type := {
  sink_fields : migrationFields;
  url : string;
  push : bool;
  sink_clusterMoveSourceName : string;
  refresh : bool;
  refreshExcludeOlder : bool
}.

Definition source_set_conns (s : migrationSourceWs)
    (m : gmap string migrationConn) : migrationSourceWs :=
  {| source_fields := set_conns (source_fields s) m;
     source_clusterMoveSourceName := source_clusterMoveSourceName s;
     pushCertificate := pushCertificate s;
     pushOperationURL := pushOperationURL s;
     pushSecrets := pushSecrets s |}.

Definition sink_set_conns (s : migrationSink)
    (m : gmap string migrationConn) : migrationSink :=
  {| sink_fields := set_conns (sink_fields s) m;
     url := url s; push := push s;
     sink_clusterMoveSourceName := sink_clusterMoveSourceName s;
     refresh := refresh s; refreshExcludeOlder := refreshExcludeOlder s |}.

(** The loop [for connName, conn := range conns] of both endpoints, over
    the entries in the order the iteration visits them: entries whose
    secret differs are skipped, the first other one is handed to
    [AcceptIncoming] and ends the loop. *)
Fixpoint range_accept
    (AcceptIncoming : migrationConn -> Request -> option error * migrationConn)
    (incomingSecret : string) (r : Request)
    (entries : list (string * migrationConn))
  : option (string * (option error * migrationConn)) :=
  match entries with
  | [] => None
  | (connName, conn) :: rest =>
      if bool_decide (incomingSecret <> Secret conn)
      then range_accept AcceptIncoming incomingSecret r rest
      else Some (connName, AcceptIncoming conn r)
  end.

(** [migrationSourceWs.Connect].  [entries] is the order in which the
    iteration visits the map (Go leaves it unspecified); the operation and
    the response writer play no part in the result. *)
Definition migrationSourceWs_Connect
    (AcceptIncoming : migrationConn -> Request -> option error * migrationConn)
    (s : migrationSourceWs) (entries : list (string * migrationConn))
    (r : Request) : option error * migrationSourceWs :=
  let incomingSecret := FormValue r "secret" in
  if bool_decide (incomingSecret = EmptyString)
  then (Some (StatusErrorf StatusBadRequest "Missing migration source secret"), s)
  else
    match range_accept AcceptIncoming incomingSecret r entries with
    | Some (connName, (Some err, conn')) =>
        (Some (Errorf_w "Failed accepting incoming migration source %q connection: %w"
                 [connName] err),
         source_set_conns s (<[connName := conn']> (conns (source_fields s))))
    | Some (connName, (None, conn')) =>
        (None, source_set_conns s (<[connName := conn']> (conns (source_fields s))))
    | None =>
        (Some (StatusErrorf StatusForbidden "Invalid migration source secret"), s)
    end.

(** [migrationSink.Connect]. *)
Definition migrationSink_Connect
    (AcceptIncoming : migrationConn -> Request -> option error * migrationConn)
    (s : migrationSink) (entries : list (string * migrationConn))
    (r : Request) : option error * migrationSink :=
  let incomingSecret := FormValue r "secret" in
  if bool_decide (incomingSecret = EmptyString)
  then (Some (StatusErrorf StatusBadRequest "Missing migration sink secret"), s)
  else
    match range_accept AcceptIncoming incomingSecret r entries with
    | Some (connName, (Some err, conn')) =>
        (Some (Errorf_w "Failed accepting incoming migration sink %q connection: %w"
                 [connName] err),
         sink_set_conns s (<[connName := conn']> (conns (sink_fields s))))
    | Some (connName, (None, conn')) =>
        (None, sink_set_conns s (<[connName := conn']> (conns (sink_fields s))))
    | None =>
        (Some (StatusErrorf StatusForbidden "Invalid migration sink secret"), s)
    end.

(** A valid iteration order of a map: each entry once. *)
Definition iteration_of (m : gmap string migrationConn)
    (entries : list (string * migrationConn)) : Prop :=
  entries ≡ₚ map_to_list m.

(** Some registered connection has this secret. *)
Definition registered (m : gmap string migrationConn) (secret : string) : Prop :=
  ∃ name conn, m !! name = Some conn ∧ Secret conn = secret.

(** The error [Connect] returns for what [AcceptIncoming] returned. *)
Definition accept_error (format name : string) (e : option error) : option error :=
  match e with
  | Some err => Some (Errorf_w format [name] err)
  | None => None
  end.

(** Every entry of the session is in the closed state. *)
Definition all_closed (c : migrationFields) : Prop :=
  ∀ name conn, conns c !! name = Some conn → state conn = Closed.

(** The state of each entry, by name. *)
Definition conn_states (c : migrationFields) : gmap string connState :=
  state <$> conns c.

(** The frames written so far on the control stream. *)
Definition control_sent (c : migrationFields) : list Frame :=
  from_option sent [] (conns c !! SecretNameControl).

(** Two sessions used as concrete inputs: control and filesystem entries,
    both established, and the same with both still pending. *)
Definition conn0 (secret : string) (st : connState) : migrationConn :=
  {| Secret := secret; state := st; sent := [] |}.

Definition fields0 (st : connState) : migrationFields :=
  {| conns := <[ "control" := conn0 "s1" st ]> (<[ "fs" := conn0 "s2" st ]> ∅);
     live := false; instanceOnly := false; volumeOnly := false;
     allowInconsistent := false; storagePool := "default" |}.

Definition source0 : migrationSourceWs :=
  {| source_fields := fields0 Pending;
     source_clusterMoveSourceName := EmptyString;
     pushCertificate := EmptyString; pushOperationURL := EmptyString;
     pushSecrets := ∅ |}.

Definition sink0 : migrationSink :=
  {| sink_fields := fields0 Pending; url := EmptyString; push := false;
     sink_clusterMoveSourceName := EmptyString;
     refresh := false; refreshExcludeOlder := false |}.

Definition request0 (secret : string) (handshake : bool) : Request :=
  {| Form := {[ "secret" := secret ]}; Handshake := handshake |}.

(** ** Storage driver migration types *)

(** Modelled from the spec: a migration type is a format identifier with
    per-format feature flags ([migration.Type] is declared outside the
    source files), and a content type is block or filesystem. *)
Record MigrationType : Type := {
  FSType : string;
  Features : list string
}.

#[global] Instance MigrationType_eq_dec : EqDecision MigrationType.
Proof. solve_decision. Defined.

Inductive ContentType : Type := ContentTypeFS | ContentTypeBlock.

(** The migration part of the [Driver] interface: the ordered list of
    types a back-end offers for a content type and a mode. *)
Record Driver : Type := {
  MigrationTypes :
    ContentType → ∀ (refresh copySnapshots clusterMove storageMove : bool),
    list MigrationType
}.

Definition no_common_type : error := errors_New "no common transfer type".

(** Modelled from the spec: the negotiation function is outside the source
    files.  The two ordered lists are intersected, the source's preference
    deciding: the first entry of the source's list that is present in the
    sink's list wins; with no such entry the migration is rejected. *)
Fixpoint negotiate (source sink : list MigrationType)
  : error + MigrationType :=
  match source with
  | [] => inl no_common_type
  | t :: rest =>
      if bool_decide (t ∈ sink) then inr t else negotiate rest sink
  end.

(** Modelled from the spec: both sides call [MigrationTypes] independently,
    for the same content type and mode, and the results are negotiated. *)
Definition negotiate_drivers (source sink : Driver) (contentType : ContentType)
    (refresh copySnapshots clusterMove storageMove : bool)
  : error + MigrationType :=
  negotiate
    (MigrationTypes source contentType refresh copySnapshots clusterMove storageMove)
    (MigrationTypes sink contentType refresh copySnapshots clusterMove storageMove).

(** Three formats and two back-ends for concrete inputs. *)
Definition type_A : MigrationType := {| FSType := "BTRFS"; Features := ["header"] |}.
Definition type_B : MigrationType := {| FSType := "ZFS"; Features := [] |}.
Definition type_C : MigrationType := {| FSType := "RSYNC"; Features := ["xattrs"; "delete"] |}.

Definition driver_source : Driver :=
  {| MigrationTypes := λ _ _ _ _ _, [type_A; type_B; type_C] |}.
Definition driver_sink : Driver :=
  {| MigrationTypes := λ _ _ _ _ _, [type_C; type_B] |}.

(** ** The publish command *)

(** *** Go library functions *)

(** [strings.Cut(s, sep)] for a one-character separator: the text before
    and after its first occurrence. *)
Fixpoint strings_Cut (s : string) (sep : ascii) : option (string * string) :=
  match s with
  | EmptyString => None
  | String a rest =>
      if Ascii.eqb a sep then Some (EmptyString, rest)
      else match strings_Cut rest sep with
           | Some (before, after) => Some (String a before, after)
           | None => None
           end
  end.

(** [strings.Contains(s, "=")]. *)
Definition strings_Contains (s : string) (sep : ascii) : bool :=
  match strings_Cut s sep with Some _ => true | None => false end.

(** [strings.SplitN(s, "=", 2)]: at most two pieces. *)
Definition strings_SplitN2 (s : string) (sep : ascii) : list string :=
  match strings_Cut s sep with
  | Some (before, after) => [before; after]
  | None => [s]
  end.

(** [strings.Join(elems, sep)]. *)
Fixpoint strings_Join (elems : list string) (sep : string) : string :=
  match elems with
  | [] => EmptyString
  | [a] => a
  | a :: rest => String.append a (String.append sep (strings_Join rest sep))
  end.

(** *** API values *)

(** The fields of [api.Instance] the command reads, and what [Writable]
    keeps of them. *)
Record Instance : Type := {
  StatusCode : Z;
  Ephemeral : bool;
  Profiles : list string
}.

Record InstancePut : Type := {
  put_Ephemeral : bool;
  put_Profiles : list string
}.

Definition Writable (ct : Instance) : InstancePut :=
  {| put_Ephemeral := Ephemeral ct; put_Profiles := Profiles ct |}.

(** [ct.Ephemeral = b]. *)
Definition set_Ephemeral (ct : Instance) (b : bool) : Instance :=
  {| StatusCode := StatusCode ct; Ephemeral := b; Profiles := Profiles ct |}.

(** [instance.Stop] and [instance.Start]. *)
Inductive InstanceAction : Type := Stop | Start.

Record InstanceStatePut : Type := {
  Action : InstanceAction;
  Timeout : Z;
  Force : bool
}.

Definition set_Action (req : InstanceStatePut) (a : InstanceAction)
  : InstanceStatePut :=
  {| Action := a; Timeout := Timeout req; Force := Force req |}.

Definition Time : Type := Z.

Record ImagesPostSource : Type := {
  source_Type : string;
  source_Name : string
}.

Record ImagesPost : Type := {
  Source : ImagesPostSource;
  CompressionAlgorithm : string;
  Properties : option (gmap string string);
  Public : bool;
  ExpiresAt : Time;
  Format : string
}.

(** Handles and opaque values handed out by the client library. *)
Definition InstanceServer : Type := string.
Definition Operation : Type := nat.
Definition Image : Type := string.

(** A value of an operation's metadata map: a string, or something else. *)
Inductive any : Type := any_string (s : string) | any_other.

(** What the command uses from packages outside the source files and from
    Go's library: the status code [api.Stopped], the test
    [instance.IsSnapshot] and [time.Parse(time.RFC3339, _)]. *)
Record externals : Type := {
  api_Stopped : Z;
  IsSnapshot : string → bool;
  time_Parse : string → error + Time
}.

(** The command's flags ([flagQuiet] is the global one). *)
Record cmdPublish : Type := {
  flagQuiet : bool;
  flagAliases : list string;
  flagCompressionAlgorithm : string;
  flagExpiresAt : string;
  flagMakePublic : bool;
  flagForce : bool;
  flagReuse : bool;
  flagFormat : string
}.

(** *** Calls to the outside *)

(** Every call [Run] makes to the configuration, to a server or to the
    terminal, indexed by the type of its answer.  A Go result
    [(value, err)] is an [error + value] and a lone [err] an
    [option error]. *)
Inductive call : Type → Type :=
  | checkArgs (args : list string) (minArgs maxArgs : Z)
      : call (bool * option error)
  | ParseRemote (raw : string) : call (error + string * string)
  | GetInstanceServer (remote : string) : call (error + InstanceServer)
  | GetInstance (s : InstanceServer) (name : string)
      : call (error + Instance * string)
  | UpdateInstance (s : InstanceServer) (name : string) (put : InstancePut)
      (ETag : string) : call (error + Operation)
  | UpdateInstanceState (s : InstanceServer) (name : string)
      (req : InstanceStatePut) (ETag : string) : call (error + Operation)
  | Wait (op : Operation) : call (option error)
  | HasExtension (s : InstanceServer) (extension : string) : call bool
  | GetCommonAliases (d : InstanceServer) (aliases : list string)
      : call (error + list string)
  | CreateImage (s : InstanceServer) (req : ImagesPost) : call (error + Operation)
  | AddHandler (op : Operation) : call (option error)
  | CancelableWait (op : Operation) : call (option error)
  | progress_Done : call unit
  | Get (op : Operation) : call (gmap string any)
  | DeleteImage (s : InstanceServer) (fingerprint : string) : call unit
  | GetImage (s : InstanceServer) (fingerprint : string) : call (error + Image)
  | CopyImage (d s : InstanceServer) (image : Image) (public : bool)
      : call (error + Operation)
  | deleteImagesByAliases (d : InstanceServer) (aliases : list string)
      : call (option error)
  | ensureImageAliases (d : InstanceServer) (aliases : list string)
      (fingerprint : string) : call (option error)
  | Printf (format : string) (args : list string) : call unit.

(** A call with its answer. *)
Inductive event : Type :=
  | Event {X : Type} (c : call X) (answer : X).

(** The outside world: the answer to the [n]-th call of a run. *)
Definition env : Type := ∀ X : Type, nat → call X → X.

(** A program: it returns, or makes a call and goes on with the answer. *)
Inductive prog (A : Type) : Type :=
  | Ret (a : A)
  | Do {X : Type} (c : call X) (k : X → prog A).
Arguments Ret {A} a.
Arguments Do {A X} c k.

Fixpoint bind {A B : Type} (p : prog A) (f : A → prog B) : prog B :=
  match p with
  | Ret a => f a
  | Do c k => Do c (λ x, bind (k x) f)
  end.

(** Running a program in a world, from the calls already made. *)
Fixpoint run {A : Type} (p : prog A) (E : env) (tr : list event)
  : A * list event :=
  match p with
  | Ret a => (a, tr)
  | Do c k =>
      let x := E _ (length tr) c in
      run (k x) E (tr ++ [Event c x])
  end.

(** [defer d] before [rest]: the deferred call runs when [rest] is done,
    whatever [rest] returns, and does not change what is returned. *)
Definition defer {A : Type} (d : prog unit) (rest : prog A) : prog A :=
  bind rest (λ r, bind d (λ _, Ret r)).

Declare Scope prog_scope.
Delimit Scope prog_scope with prog.
Bind Scope prog_scope with prog.

(** [x, err := call; if err != nil { return err }]. *)
Notation "'let?' x := c 'in' k" :=
  (Do c (λ r, match r with
              | inl err => Ret (Done (Some err))
              | inr x => k
              end))
  (at level 10, x pattern, c at level 100, k at level 200) : prog_scope.

(** [err := call; if err != nil { return err }]. *)
Notation "'check' c 'in' k" :=
  (Do c (λ r, match r with
              | Some err => Ret (Done (Some err))
              | None => k
              end))
  (at level 10, c at level 100, k at level 200) : prog_scope.

(** A call whose answer is used as it is. *)
Notation "'let!' x := c 'in' k" :=
  (Do c (λ x, k))
  (at level 10, x pattern, c at level 100, k at level 200) : prog_scope.

Local Open Scope prog_scope.

(** *** [cmdPublish.Run] *)

Definition result : Type := outcome (option error).

Definition dquote : string := String (ascii_of_nat 34) EmptyString.
Definition newline : string := String (ascii_of_nat 10) EmptyString.

Definition msg_running : string :=
  "The instance is currently running. Use --force to have it stopped and restarted".

Definition msg_no_image_name : string :=
  String.append "There is no "
    (String.append dquote
       (String.append "image name"
          (String.append dquote ".  Did you want an alias?"))).

(** [wasRunning := ct.StatusCode != 0 && ct.StatusCode != api.Stopped]. *)
Definition wasRunning (x : externals) (ct : Instance) : bool :=
  negb (StatusCode ct =? 0)%Z && negb (StatusCode ct =? api_Stopped x)%Z.

(** The request that stops the instance. *)
Definition req_stop : InstanceStatePut :=
  {| Action := Stop; Timeout := -1; Force := true |}.

(** The deferred function: start the instance back up on exit. *)
Definition restart (s : InstanceServer) (cName : string)
    (req : InstanceStatePut) : prog unit :=
  let req := set_Action req Start in
  let! r := UpdateInstanceState s cName req EmptyString in
  match r with
  | inl _ => Ret tt
  | inr op => let! _ := Wait op in Ret tt
  end.

(** The loop over [args[firstprop:]] that fills [properties]. *)
Fixpoint parse_properties (entries : list string)
    (properties : gmap string string) : error + gmap string string :=
  match entries with
  | [] => inr properties
  | arg :: rest =>
      let entry := strings_SplitN2 arg "=" in
      match entry with
      | key :: value :: _ =>
          parse_properties rest (<[key := value]> properties)
      | _ => inl (Errorf "Bad key=value pair: %s" entry)
      end
  end.

(** From the end of the publication (the copy to the target apart):
    delete images if necessary, set the aliases, report. *)
Definition Run_aliases (c : cmdPublish) (d : InstanceServer)
    (aliases : list string) (fingerprint : string) : prog result :=
  let finish :=
    check ensureImageAliases d aliases fingerprint in
    let! _ := Printf (String.append "Instance published with fingerprint: %s" newline)
                [fingerprint] in
    Ret (Done None) in
  if flagReuse c
  then check deleteImagesByAliases d aliases in finish
  else finish.

(** From the loop over the properties to the end of [Run]: an image
    alias is its name. *)
Definition Run_publish (x : externals) (c : cmdPublish) (args : list string)
    (firstprop : nat) (cName cRemote iRemote : string)
    (d s : InstanceServer) : prog result :=
  match parse_properties (drop firstprop args) ∅ with
  | inl err => Ret (Done (Some err))
  | inr properties =>
      let properties :=
        if bool_decide (size properties = 0%nat) then None else Some properties in
      let aliases := flagAliases c in
      bind
        (if IsSnapshot x cName then Ret "snapshot"
         else let! has := HasExtension s "instances" in
              Ret (if has then "instance" else "container"))
        (λ source_type,
      let req :=
        {| Source := {| source_Type := source_type; source_Name := cName |};
           CompressionAlgorithm := flagCompressionAlgorithm c;
           Properties := properties;
           Public := if bool_decide (cRemote = iRemote) then flagMakePublic c else false;
           ExpiresAt := 0;
           Format := EmptyString |} in
      match
        (if bool_decide (flagExpiresAt c ≠ EmptyString)
         then match time_Parse x (flagExpiresAt c) with
              | inl err => inl (Errorf_w "Invalid expiration date: %w" [] err)
              | inr expiresAt => inr expiresAt
              end
         else inr (ExpiresAt req))
      with
      | inl err => Ret (Done (Some err))
      | inr expiresAt =>
      let! r := GetCommonAliases d aliases in
      match r with
      | inl err => Ret (Done (Some (Errorf_w "Error retrieving aliases: %w" [] err)))
      | inr existingAliases =>
      if negb (flagReuse c) && bool_decide (0 < length existingAliases)%nat
      then Ret (Done (Some (Errorf "Aliases already exists: %s"
                              [strings_Join existingAliases ", "])))
      else
      let req :=
        {| Source := Source req;
           CompressionAlgorithm := CompressionAlgorithm req;
           Properties := Properties req;
           Public := Public req;
           ExpiresAt := expiresAt;
           Format := flagFormat c |} in
      let? op := CreateImage s req in
      let! err := AddHandler op in
      match err with
      | Some err => let! _ := progress_Done in Ret (Done (Some err))
      | None =>
      let! err := CancelableWait op in
      match err with
      | Some err => let! _ := progress_Done in Ret (Done (Some err))
      | None =>
      let! _ := progress_Done in
      let! opAPI := Get op in
      match opAPI !! "fingerprint" with
      | Some (any_string fingerprint) =>
          if bool_decide (cRemote ≠ iRemote)
          then
            defer (let! _ := DeleteImage s fingerprint in Ret tt)
              (let? image := GetImage s fingerprint in
               let? op := CopyImage d s image (flagMakePublic c) in
               check Wait op in
               Run_aliases c d aliases fingerprint)
          else Run_aliases c d aliases fingerprint
      | _ => Ret (Done (Some (errors_New "Bad fingerprint")))
      end
      end
      end
      end
      end)
  end.

(** "If we had to clear the ephemeral flag, restore it now": read the
    instance again, set the flag, update, wait; then [rest]. *)
Definition restore_ephemeral (s : InstanceServer) (cName : string)
    (rest : prog result) : prog result :=
  let? (ct, etag) := GetInstance s cName in
  let ct := set_Ephemeral ct true in
  let? op := UpdateInstance s cName (Writable ct) etag in
  check Wait op in
  rest.

(** "Stop the instance", then register the deferred restart, then restore
    the flag if it was set, then [rest]. *)
Definition stop_instance (s : InstanceServer) (cName : string)
    (wasEphemeral : bool) (rest : prog result) : prog result :=
  let req := req_stop in
  let? op := UpdateInstanceState s cName req EmptyString in
  let! err := Wait op in
  match err with
  | Some _ => Ret (Done (Some (errors_New "Stopping instance failed!")))
  | None =>
      defer (restart s cName req)
        (if wasEphemeral then restore_ephemeral s cName rest else rest)
  end.

(** "Clear the ephemeral flag so the instance can be stopped without being
    destroyed", then [next]. *)
Definition clear_ephemeral (s : InstanceServer) (cName : string)
    (ct : Instance) (etag : string) (next : prog result) : prog result :=
  let ct := set_Ephemeral ct false in
  let? op := UpdateInstance s cName (Writable ct) etag in
  check Wait op in
  next.

(** The block [if !instance.IsSnapshot(cName) { ... }]; [rest] is what
    follows it in [Run]. *)
Definition Run_instance (x : externals) (c : cmdPublish) (s : InstanceServer)
    (cName : string) (rest : prog result) : prog result :=
  if negb (IsSnapshot x cName) then
    let? (ct, etag) := GetInstance s cName in
    let wasEphemeral := Ephemeral ct in
    if wasRunning x ct then
      if negb (flagForce c) then Ret (Done (Some (errors_New msg_running)))
      else
        if Ephemeral ct
        then clear_ephemeral s cName ct etag
               (stop_instance s cName wasEphemeral rest)
        else stop_instance s cName wasEphemeral rest
    else rest
  else rest.

(** From the two parsed remotes on. *)
Definition Run_resolved (x : externals) (c : cmdPublish) (args : list string)
    (firstprop : nat) (cRemote cName iRemote iName : string) : prog result :=
  if bool_decide (cName = EmptyString)
  then Ret (Done (Some (errors_New "Instance name is mandatory")))
  else if bool_decide (iName ≠ EmptyString)
  then Ret (Done (Some (errors_New msg_no_image_name)))
  else
    let? d := GetInstanceServer iRemote in
    let rest s :=
      Run_instance x c s cName
        (Run_publish x c args firstprop cName cRemote iRemote d s) in
    if bool_decide (cRemote ≠ iRemote)
    then let? s := GetInstanceServer cRemote in rest s
    else rest d.

(** [Run].  Indexing [args[0]] in an empty slice panics. *)
Definition Run (x : externals) (c : cmdPublish) (args : list string)
  : prog result :=
  (* Quick checks. *)
  let! (exit, err) := checkArgs args 1 (-1) in
  if exit then Ret (Done err)
  else
    match args with
    | [] => Ret Panics
    | arg0 :: _ =>
        let? (cRemote, cName) := ParseRemote arg0 in
        if bool_decide (2 ≤ length args)%nat
           && negb (strings_Contains (nth 1 args EmptyString) "=")
        then
          let? (iRemote, iName) := ParseRemote (nth 1 args EmptyString) in
          Run_resolved x c args 2 cRemote cName iRemote iName
        else
          let? (iRemote, iName) := ParseRemote EmptyString in
          Run_resolved x c args 1 cRemote cName iRemote iName
    end.

(** *** Reading a trace *)

(** A property of calls, read on events. *)
Definition on_call (P : ∀ X : Type, call X → bool) (e : event) : bool :=
  match e with Event c _ => P _ c end.

(** The calls before the instance is looked at: arguments, remotes,
    connections to the servers. *)
Definition setup_call (X : Type) (c : call X) : bool :=
  match c with
  | checkArgs _ _ _ | ParseRemote _ | GetInstanceServer _ => true
  | _ => false
  end.

(** The calls that read and change nothing on a server. *)
Definition read_call (X : Type) (c : call X) : bool :=
  match c with
  | checkArgs _ _ _ | ParseRemote _ | GetInstanceServer _ | GetInstance _ _ => true
  | _ => false
  end.

(** The calls of the publication proper: none of them reads, updates,
    stops or starts the instance. *)
Definition publish_call (X : Type) (c : call X) : bool :=
  match c with
  | checkArgs _ _ _ | ParseRemote _ | GetInstanceServer _
  | GetInstance _ _ | UpdateInstance _ _ _ _ | UpdateInstanceState _ _ _ _ => false
  | _ => true
  end.

(** The operation of an accepted request to stop the instance. *)
Definition stop_accepted (e : event) : option Operation :=
  match e with
  | Event c a =>
      match c in call X return X → option Operation with
      | UpdateInstanceState _ _ req _ =>
          λ a, match Action req, a with
               | Stop, inr op => Some op
               | _, _ => None
               end
      | _ => λ _, None
      end a
  end.

(** The operation waited for, and the answer. *)
Definition wait_answer (e : event) : option (Operation * option error) :=
  match e with
  | Event c a =>
      match c in call X return X → option (Operation * option error) with
      | Wait op => λ a, Some (op, a)
      | _ => λ _, None
      end a
  end.

(** The instance a [GetInstance] returned. *)
Definition fetched (e : event) : option Instance :=
  match e with
  | Event c a =>
      match c in call X return X → option Instance with
      | GetInstance _ _ =>
          λ a, match a with inr (ct, _) => Some ct | inl _ => None end
      | _ => λ _, None
      end a
  end.

(** The run was handed a running instance. *)
Definition fetched_running (x : externals) (e : event) : bool :=
  match fetched e with
  | Some ct => wasRunning x ct
  | None => false
  end.

(** The instance was stopped: a request to stop it was accepted and the
    wait for that operation, the next call, returned nil. *)
Definition stopped (tr : list event) : Prop :=
  ∃ pre e1 e2 post op,
    tr = pre ++ e1 :: e2 :: post
    ∧ stop_accepted e1 = Some op
    ∧ wait_answer e2 = Some (op, None).

(** The same, computed: [stopped tr] implies [stoppedb tr = true]. *)
Fixpoint stoppedb (tr : list event) : bool :=
  match tr with
  | [] => false
  | e1 :: tr' =>
      match stop_accepted e1, tr' with
      | Some op, e2 :: _ =>
          match wait_answer e2 with
          | Some (op', None) => bool_decide (op' = op) || stoppedb tr'
          | _ => stoppedb tr'
          end
      | _, _ => stoppedb tr'
      end
  end.

(** The calls of the deferred restart: the request to start the instance,
    refused, or accepted and then waited for. *)
Inductive restart_events (s : InstanceServer) (cName : string)
  : list event → Prop :=
  | restart_refused err :
      restart_events s cName
        [Event (UpdateInstanceState s cName (set_Action req_stop Start) EmptyString)
           (inl err)]
  | restart_waited op answer :
      restart_events s cName
        [Event (UpdateInstanceState s cName (set_Action req_stop Start) EmptyString)
           (inr op);
         Event (Wait op) answer].

(** What follows the stop of an ephemeral instance: the instance is read
    again, updated with the ephemeral flag set, and the update waited
    for.  Either one of the three calls fails, [Run] returns its error and
    only the restart follows; or the three succeed and, after calls of the
    publication, the restart follows. *)
Inductive restore_outcome (s : InstanceServer) (cName : string)
  : result → list event → Prop :=
  | restore_get_failed err rs :
      restart_events s cName rs →
      restore_outcome s cName (Done (Some err))
        (Event (GetInstance s cName) (inl err) :: rs)
  | restore_update_failed ct etag err rs :
      restart_events s cName rs →
      restore_outcome s cName (Done (Some err))
        (Event (GetInstance s cName) (inr (ct, etag))
         :: Event (UpdateInstance s cName (Writable (set_Ephemeral ct true)) etag)
              (inl err)
         :: rs)
  | restore_wait_failed ct etag op err rs :
      restart_events s cName rs →
      restore_outcome s cName (Done (Some err))
        (Event (GetInstance s cName) (inr (ct, etag))
         :: Event (UpdateInstance s cName (Writable (set_Ephemeral ct true)) etag)
              (inr op)
         :: Event (Wait op) (Some err)
         :: rs)
  | restore_done ct etag op r publication rs :
      Forall (λ e, on_call publish_call e = true) publication →
      restart_events s cName rs →
      restore_outcome s cName r
        (Event (GetInstance s cName) (inr (ct, etag))
         :: Event (UpdateInstance s cName (Writable (set_Ephemeral ct true)) etag)
              (inr op)
         :: Event (Wait op) None
         :: publication ++ rs).

(** The ephemeral flag was set again: an update with the flag set was
    accepted. *)
Definition restored (e : event) : bool :=
  match e with
  | Event c a =>
      match c in call X return X → bool with
      | UpdateInstance _ _ put _ =>
          λ a, match a with inr _ => put_Ephemeral put | inl _ => false end
      | _ => λ _, false
      end a
  end.

(** *** The paths of [Run] *)

(** What [stop_instance] can do: the request is refused; or the wait for
    it fails; or the instance is stopped, and then the trace ends with the
    restart, preceded by the restore and its consequences if the instance
    was ephemeral and by calls of the publication only if not. *)
Inductive stop_path (s : InstanceServer) (cName : string)
    (wasEphemeral : bool) : result → list event → Prop :=
  | stop_refused err :
      stop_path s cName wasEphemeral (Done (Some err))
        [Event (UpdateInstanceState s cName req_stop EmptyString) (inl err)]
  | stop_wait_failed op err :
      stop_path s cName wasEphemeral
        (Done (Some (errors_New "Stopping instance failed!")))
        [Event (UpdateInstanceState s cName req_stop EmptyString) (inr op);
         Event (Wait op) (Some err)]
  | stop_done op r front rs :
      restart_events s cName rs →
      (if wasEphemeral then restore_outcome s cName r (front ++ rs)
       else Forall (λ e, on_call publish_call e = true) front) →
      stop_path s cName wasEphemeral r
        (Event (UpdateInstanceState s cName req_stop EmptyString) (inr op)
         :: Event (Wait op) None :: front ++ rs).

(** The update that clears the flag, accepted, and its wait, successful;
    nothing for an instance that is not ephemeral. *)
Inductive clear_events (s : InstanceServer) (cName : string) (ct : Instance)
    (etag : string) : list event → Prop :=
  | clear_none : Ephemeral ct = false → clear_events s cName ct etag []
  | clear_done op :
      Ephemeral ct = true →
      clear_events s cName ct etag
        [Event (UpdateInstance s cName (Writable (set_Ephemeral ct false)) etag)
           (inr op);
         Event (Wait op) None].

(** What the block on the instance can do, with the calls it makes and
    what [Run] then returns. *)
Inductive instance_path (x : externals) (c : cmdPublish) (s : InstanceServer)
    (cName : string) : result → list event → Prop :=
  | path_snapshot r ext :
      IsSnapshot x cName = true →
      Forall (λ e, on_call publish_call e = true) ext →
      instance_path x c s cName r ext
  | path_get_failed err :
      instance_path x c s cName (Done (Some err))
        [Event (GetInstance s cName) (inl err)]
  | path_not_running ct etag r ext :
      wasRunning x ct = false →
      Forall (λ e, on_call publish_call e = true) ext →
      instance_path x c s cName r
        (Event (GetInstance s cName) (inr (ct, etag)) :: ext)
  | path_no_force ct etag :
      wasRunning x ct = true → flagForce c = false →
      instance_path x c s cName (Done (Some (errors_New msg_running)))
        [Event (GetInstance s cName) (inr (ct, etag))]
  | path_clear_refused ct etag err :
      wasRunning x ct = true → flagForce c = true → Ephemeral ct = true →
      instance_path x c s cName (Done (Some err))
        [Event (GetInstance s cName) (inr (ct, etag));
         Event (UpdateInstance s cName (Writable (set_Ephemeral ct false)) etag)
           (inl err)]
  | path_clear_wait_failed ct etag op err :
      wasRunning x ct = true → flagForce c = true → Ephemeral ct = true →
      instance_path x c s cName (Done (Some err))
        [Event (GetInstance s cName) (inr (ct, etag));
         Event (UpdateInstance s cName (Writable (set_Ephemeral ct false)) etag)
           (inr op);
         Event (Wait op) (Some err)]
  | path_stop ct etag clear r ext :
      wasRunning x ct = true → flagForce c = true →
      clear_events s cName ct etag clear →
      stop_path s cName (Ephemeral ct) r ext →
      instance_path x c s cName r
        (Event (GetInstance s cName) (inr (ct, etag)) :: clear ++ ext).

(** The ephemeral flag was cleared: an update with the flag unset was
    accepted. *)
Definition cleared (e : event) : bool :=
  match e with
  | Event c a =>
      match c in call X return X → bool with
      | UpdateInstance _ _ put _ =>
          λ a, match a with inr _ => negb (put_Ephemeral put) | inl _ => false end
      | _ => λ _, false
      end a
  end.

(** *** Concrete worlds *)

Definition externals0 : externals :=
  {| api_Stopped := 102;
     IsSnapshot := λ name, strings_Contains name "/";
     time_Parse := λ _, inl (errors_New "cannot parse") |}.

Definition cmd0 (force : bool) : cmdPublish :=
  {| flagQuiet := false; flagAliases := []; flagCompressionAlgorithm := EmptyString;
     flagExpiresAt := EmptyString; flagMakePublic := false; flagForce := force;
     flagReuse := false; flagFormat := "unified" |}.

(** A world with one local server and a running ephemeral instance, in
    which every call succeeds, except [GetInstance] from the call numbered
    [get_fails_from] on. *)
Definition world0 (get_fails_from : nat) : env :=
  λ X n c,
    match c in call X return X with
    | checkArgs _ _ _ => (false, None)
    | ParseRemote raw => inr ("local", raw)
    | GetInstanceServer remote => inr remote
    | GetInstance _ _ =>
        if bool_decide (get_fails_from ≤ n)%nat
        then inl (errors_New "not authorized")
        else inr ({| StatusCode := 103; Ephemeral := true; Profiles := ["default"] |},
                  "etag")
    | UpdateInstance _ _ _ _ => inr n
    | UpdateInstanceState _ _ _ _ => inr n
    | Wait _ => None
    | HasExtension _ _ => true
    | GetCommonAliases _ _ => inr []
    | CreateImage _ _ => inr n
    | AddHandler _ => None
    | CancelableWait _ => None
    | progress_Done => tt
    | Get _ => {[ "fingerprint" := any_string "0a1b2c" ]}
    | DeleteImage _ _ => tt
    | GetImage _ _ => inr "image"
    | CopyImage _ _ _ _ => inr n
    | deleteImagesByAliases _ _ => None
    | ensureImageAliases _ _ _ => None
    | Printf _ _ => tt
    end.

(** *** Programs that make only certain calls *)

(** [reaches P Q p]: [p] makes only calls in [P] until it returns or
    becomes a program in [Q]. *)
Inductive reaches {A : Type} (P : ∀ X : Type, call X → bool)
    (Q : prog A → Prop) : prog A → Prop :=
  | reaches_goal p : Q p → reaches P Q p
  | reaches_Ret a : reaches P Q (Ret a)
  | reaches_Do X (c : call X) k :
      P X c = true → (∀ x, reaches P Q (k x)) → reaches P Q (Do c k).

(** [calls_only P p]: every call of [p] is in [P]. *)
Definition calls_only {A : Type} (P : ∀ X : Type, call X → bool)
    (p : prog A) : Prop :=
  reaches P (λ _, False) p.

(** ** The control lock and concurrent writers *)

(** What a goroutine does, as far as the control stream is concerned:
    take the control lock, release it, put one byte of a frame on the
    control websocket, or do something that writes nothing there (look up
    an entry, ask for its websocket, set a deadline, close a
    connection). *)
Abbreviation byte := Byte.byte.

Inductive instr : Type :=
  | Lock
  | Unlock
  | WriteByte (b : byte)
  | Other.

(** The steps of [send]: lock; fetch the control websocket; with a
    websocket [ws], set the deadline and write the frame, of which the
    first [n] bytes go out before the write ends (all of them when [n]
    reaches the frame's length, fewer when it fails); the deferred unlock
    runs at the return.  [encode], the serialization of a frame, is
    outside the source files. *)
Definition send_code (encode : Frame → list byte) (m : Message)
    (ws : bool) (n : nat) : list instr :=
  [Lock; Other]
  ++ (if ws then Other :: (WriteByte <$> take n (encode (ProtoFrame m))) else [])
  ++ [Unlock].

(** The steps of [disconnect], on a map of [k] entries: lock; fetch the
    control websocket; with one, set the deadline and write the close
    message; unlock; close every entry. *)
Definition disconnect_code (encode : Frame → list byte)
    (ws : bool) (n : nat) (k : nat) : list instr :=
  [Lock; Other]
  ++ (if ws then Other :: (WriteByte <$> take n (encode CloseFrame)) else [])
  ++ [Unlock]
  ++ replicate k Other.

(** The steps of [sendControl]: lock; fetch the control websocket; with
    one, set the deadline and write the final status; unlock; with a
    non-nil error, those of [disconnect]. *)
Definition sendControl_code (encode : Frame → list byte) (err : option error)
    (ws : bool) (n : nat) (ws' : bool) (n' : nat) (k : nat) : list instr :=
  [Lock; Other]
  ++ (if ws then Other :: (WriteByte <$> take n (encode (ControlFrame err))) else [])
  ++ [Unlock]
  ++ match err with
     | Some _ => disconnect_code encode ws' n' k
     | None => []
     end.

(** A goroutine of the session: whether it is between a [Lock] and the
    matching [Unlock], the bytes it has written since that [Lock], and
    the steps it has left. *)
Record goroutine : Type := {
  holds : bool;
  written : list byte;
  code : list instr
}.

(** The session as its goroutines see it: the control lock, the bytes on
    the control stream in the order they went out, the byte sequences of
    the critical sections completed so far, and the goroutines. *)
Record system : Type := {
  locked : bool;
  wire : list byte;
  completed : list (list byte);
  pool : list goroutine
}.

(** One step of goroutine [i]; [None] when it has finished, when it waits
    for the lock, or when it unlocks a mutex that is not locked (a fatal
    error in Go).  The relation says which steps are possible, not that
    they happen: in the program a call made under the lock may wait or
    never return.  It serves for what can be on the wire, not for
    progress. *)
Definition step_at (i : nat) (st : system) : option system :=
  match pool st !! i with
  | None => None
  | Some g =>
      match code g with
      | [] => None
      | Lock :: rest =>
          if locked st then None
          else Some {| locked := true; wire := wire st;
                       completed := completed st;
                       pool := <[i := {| holds := true; written := [];
                                         code := rest |}]> (pool st) |}
      | Unlock :: rest =>
          if locked st
          then Some {| locked := false; wire := wire st;
                       completed := completed st ++ [written g];
                       pool := <[i := {| holds := false; written := [];
                                         code := rest |}]> (pool st) |}
          else None
      | WriteByte b :: rest =>
          Some {| locked := locked st; wire := wire st ++ [b];
                  completed := completed st;
                  pool := <[i := {| holds := holds g;
                                    written := written g ++ [b];
                                    code := rest |}]> (pool st) |}
      | Other :: rest =>
          Some {| locked := locked st; wire := wire st;
                  completed := completed st;
                  pool := <[i := {| holds := holds g; written := written g;
                                    code := rest |}]> (pool st) |}
      end
  end.

(** An execution: the goroutines take their steps in the order of the
    schedule. *)
Fixpoint run_schedule (schedule : list nat) (st : system) : option system :=
  match schedule with
  | [] => Some st
  | i :: rest =>
      match step_at i st with
      | Some st' => run_schedule rest st'
      | None => None
      end
  end.

(** The session before any goroutine has taken a step. *)
Definition start (codes : list (list instr)) : system :=
  {| locked := false; wire := []; completed := [];
     pool := (λ c, {| holds := false; written := []; code := c |}) <$> codes |}.

(** Every write is between a [Lock] and the matching [Unlock], and the
    lock is not held at the end; [held] tells whether the lock is held
    at the start. *)
Fixpoint well_locked (held : bool) (c : list instr) : bool :=
  match c with
  | [] => negb held
  | Lock :: rest => negb held && well_locked true rest
  | Unlock :: rest => held && well_locked false rest
  | WriteByte _ :: rest => held && well_locked held rest
  | Other :: rest => well_locked held rest
  end.

(** The byte sequences of the critical sections of a code, in order;
    [cur] is what the section under way has written so far. *)
Fixpoint sections_from (cur : list byte) (c : list instr) : list (list byte) :=
  match c with
  | [] => []
  | Lock :: rest => sections_from [] rest
  | Unlock :: rest => cur :: sections_from [] rest
  | WriteByte b :: rest => sections_from (cur ++ [b]) rest
  | Other :: rest => sections_from cur rest
  end.

Definition sections (c : list instr) : list (list byte) := sections_from [] c.

(** The critical sections a goroutine has yet to complete. *)
Definition pending (g : goroutine) : list (list byte) :=
  sections_from (written g) (code g).

(** What holds in every state of every execution of well-locked codes. *)
Record invariant (codes : list (list instr)) (st : system) : Prop := {
  inv_well_locked :
    ∀ i g, pool st !! i = Some g → well_locked (holds g) (code g) = true;
  inv_unlocked :
    locked st = false →
    (∀ i g, pool st !! i = Some g → holds g = false)
    ∧ wire st = concat (completed st);
  inv_locked :
    locked st = true →
    ∃ i g, pool st !! i = Some g ∧ holds g = true
      ∧ wire st = concat (completed st) ++ written g
      ∧ ∀ j g', pool st !! j = Some g' → holds g' = true → j = i;
  inv_sections :
    completed st ++ concat (pending <$> pool st)
    ≡ₚ concat (sections <$> codes)
}.

(** What a call of [send] puts on the wire. *)
Definition send_bytes (encode : Frame → list byte)
    (call : Message * bool * nat) : list byte :=
  match call with
  | (m, ws, n) => if ws then take n (encode (ProtoFrame m)) else []
  end.

(** A serialization for concrete inputs: a tag, then the text. *)
Definition encode0 (f : Frame) : list byte :=
  match f with
  | ProtoFrame m => Byte.x01 :: list_byte_of_string m
  | ControlFrame None => [Byte.x02]
  | ControlFrame (Some _) => [Byte.x03]
  | CloseFrame => [Byte.x04]
  end.

(** ** More of migrate.go: [Metadata] and [controlChannel] *)

(** The loop of both [Metadata] functions, over the entries in the order
    the iteration visits them: [secrets[connName] = conn.Secret()]. *)
Definition range_secrets (entries : list (string * migrationConn))
  : gmap string string :=
  foldl (λ secrets entry, <[entry.1 := Secret entry.2]> secrets) ∅ entries.

(** [migrationSourceWs.Metadata]: the map handed to the operation, from
    connection name to secret. *)
Definition migrationSourceWs_Metadata (s : migrationSourceWs)
    (entries : list (string * migrationConn)) : gmap string string :=
  range_secrets entries.

(** [migrationSink.Metadata]. *)
Definition migrationSink_Metadata (s : migrationSink)
    (entries : list (string * migrationConn)) : gmap string string :=
  range_secrets entries.

(** The two fields of [localMigration.ControlResponse] the function sets:
    the decoded control message and the error. *)
Record ControlResponse : Type := {
  MigrationControl : Message;
  Err : option error
}.

(** [controlChannel]: the goroutine it starts receives one control message
    into a fresh response and sends the response on the channel, with
    [Err] set when [recv] failed.  The result is the one value the channel
    delivers. *)
Definition controlChannel (c : migrationFields) (incoming : error + Message)
  : outcome ControlResponse :=
  match recv c incoming with
  | Panics => Panics
  | Done (inl err) => Done {| MigrationControl := EmptyString; Err := Some err |}
  | Done (inr m) => Done {| MigrationControl := m; Err := None |}
  end.

(** No two entries of the map share a secret. *)
Definition distinct_secrets (m : gmap string migrationConn) : Prop :=
  ∀ n1 n2 c1 c2,
    m !! n1 = Some c1 → m !! n2 = Some c2 → Secret c1 = Secret c2 → n1 = n2.

(** ** More about the goroutines of a session *)

(** Every goroutine has returned. *)
Definition all_returned (st : system) : Prop :=
  Forall (λ g, code g = []) (pool st).

(** A call of one of the three functions that write on the control
    stream, with what decides its steps: whether the control websocket is
    there ([ws]), how many bytes of a frame go out ([n]), and for
    [disconnect] the number [k] of entries to close. *)
Inductive control_call : Type :=
  | call_send (m : Message) (ws : bool) (n : nat)
  | call_sendControl (err : option error) (ws : bool) (n : nat)
      (ws' : bool) (n' : nat) (k : nat)
  | call_disconnect (ws : bool) (n : nat) (k : nat).

Definition code_of (encode : Frame → list byte) (call : control_call)
  : list instr :=
  match call with
  | call_send m ws n => send_code encode m ws n
  | call_sendControl err ws n ws' n' k => sendControl_code encode err ws n ws' n' k
  | call_disconnect ws n k => disconnect_code encode ws n k
  end.

(** The bytes of frame [f] that a write puts on the wire. *)
Definition frame_bytes (encode : Frame → list byte) (f : Frame)
    (ws : bool) (n : nat) : list byte :=
  if ws then take n (encode f) else [].

(** What a call puts on the wire, one byte sequence for each time it
    takes the lock. *)
Definition frames_of (encode : Frame → list byte) (call : control_call)
  : list (list byte) :=
  match call with
  | call_send m ws n => [frame_bytes encode (ProtoFrame m) ws n]
  | call_sendControl err ws n ws' n' k =>
      frame_bytes encode (ControlFrame err) ws n
      :: match err with
         | Some _ => [frame_bytes encode CloseFrame ws' n']
         | None => []
         end
  | call_disconnect ws n k => [frame_bytes encode CloseFrame ws n]
  end.

(** ** More about the publish command *)

(** [firstprop], as [Run] sets it: the index of the first key=value
    argument. *)
Definition firstprop (args : list string) : nat :=
  if bool_decide (2 ≤ length args)%nat
     && negb (strings_Contains (nth 1 args EmptyString) "=")
  then 2 else 1.

(** The calls [Run] makes outside the publication proper: arguments,
    remotes, server connections, and everything done to the instance
    (read, update, stop, start, and the waits for these). *)
Definition before_publish (X : Type) (c : call X) : bool :=
  match c with
  | checkArgs _ _ _ | ParseRemote _ | GetInstanceServer _
  | GetInstance _ _ | UpdateInstance _ _ _ _ | UpdateInstanceState _ _ _ _
  | Wait _ => true
  | _ => false
  end.

(** [frames P Early Q p]: [p] makes only calls in [P] until it returns a
    value in [Early] or becomes a program in [Q]; what has been deferred
    on the way makes only calls in [P]. *)
Inductive frames {A : Type} (P : ∀ X : Type, call X → bool)
    (Early : A → Prop) (Q : prog A → Prop) : prog A → Prop :=
  | frames_goal q : Q q → frames P Early Q q
  | frames_Ret a : Early a → frames P Early Q (Ret a)
  | frames_Do X (c : call X) k :
      P X c = true → (∀ x, frames P Early Q (k x)) → frames P Early Q (Do c k)
  | frames_defer d p :
      calls_only P d → frames P Early Q p → frames P Early Q (defer d p).

(** [always p Q]: in every world and after any calls, [p] returns a value
    and adds calls that satisfy [Q]. *)
Definition always {A : Type} (p : prog A) (Q : A → list event → Prop) : Prop :=
  ∀ (E : env) (tr : list event),
    ∃ ext, run p E tr = ((run p E tr).1, tr ++ ext) ∧ Q (run p E tr).1 ext.

(** The remote and the name a [ParseRemote] returned. *)
Definition parsed (e : event) : option (string * string) :=
  match e with
  | Event c a =>
      match c in call X return X → option (string * string) with
      | ParseRemote _ => λ a, match a with inr p => Some p | inl _ => None end
      | _ => λ _, None
      end a
  end.

(** [Run] returned an error or panicked. *)
Definition failed (r : result) : Prop :=
  r = Panics ∨ ∃ err, r = Done (Some err).

Definition is_call (P : ∀ X : Type, call X → bool) (e : event) : Prop :=
  on_call P e = true.

(** The calls [ext] frame a part [mid] with [Q r mid]: calls in [P]
    before it and after it; or the program gave up before that part,
    with a result in [Early] and calls in [P] only. *)
Definition framed {A : Type} (P : ∀ X : Type, call X → bool)
    (Early : A → Prop) (Q : A → list event → Prop)
    (r : A) (ext : list event) : Prop :=
  (Early r ∧ Forall (is_call P) ext)
  ∨ ∃ pre mid post,
      ext = pre ++ mid ++ post
      ∧ Forall (is_call P) pre ∧ Forall (is_call P) post ∧ Q r mid.

(** The three ways a run of [Run] goes: the argument check asks to leave;
    or [Run] fails before the publication proper, having made only calls
    of [before_publish]; or the publication [mid] runs, for the names
    [ParseRemote] returned, between calls of [before_publish]. *)
Inductive Run_shape (args : list string)
    (Q : string → string → string → result → list event → Prop)
    (r : result) (tr : list event) : Prop :=
  | shape_exit err :
      tr = [Event (checkArgs args 1 (-1)) (true, err)] → r = Done err →
      Run_shape args Q r tr
  | shape_early :
      failed r → Forall (is_call before_publish) tr → Run_shape args Q r tr
  | shape_publish e1 e2 cRemote cName iRemote iName pre mid post :
      tr = pre ++ mid ++ post →
      pre !! 1%nat = Some e1 → parsed e1 = Some (cRemote, cName) →
      pre !! 2%nat = Some e2 → parsed e2 = Some (iRemote, iName) →
      Forall (is_call before_publish) pre →
      Forall (is_call before_publish) post →
      Q cName cRemote iRemote r mid →
      Run_shape args Q r tr.

(** Reading single events. *)
Definition create_request (e : event) : option ImagesPost :=
  match e with
  | Event c _ =>
      match c with
      | CreateImage _ req => Some req
      | _ => None
      end
  end.

(** The calls that create, copy or delete an image or change aliases. *)
Definition image_call (X : Type) (c : call X) : bool :=
  match c with
  | CreateImage _ _ | CopyImage _ _ _ _ | DeleteImage _ _
  | deleteImagesByAliases _ _ | ensureImageAliases _ _ _ => true
  | _ => false
  end.

(** The calls that change the instance: update, stop, start. *)
Definition instance_change (X : Type) (c : call X) : bool :=
  match c with
  | UpdateInstance _ _ _ _ | UpdateInstanceState _ _ _ _ => true
  | _ => false
  end.

(** The calls that touch the instance at all. *)
Definition instance_call (X : Type) (c : call X) : bool :=
  match c with
  | GetInstance _ _ | UpdateInstance _ _ _ _ | UpdateInstanceState _ _ _ _ => true
  | _ => false
  end.

(** A request to start the instance. *)
Definition start_request (e : event) : bool :=
  match e with
  | Event c _ =>
      match c with
      | UpdateInstanceState _ _ req _ =>
          match Action req with Start => true | Stop => false end
      | _ => false
      end
  end.

(** A request to stop the instance. *)
Definition stop_request (e : event) : bool :=
  match e with
  | Event c _ =>
      match c with
      | UpdateInstanceState _ _ req _ =>
          match Action req with Stop => true | Start => false end
      | _ => false
      end
  end.

(** The instance returned by the first successful [GetInstance] of a
    run. *)
Fixpoint first_fetch (tr : list event) : option Instance :=
  match tr with
  | [] => None
  | e :: tr' =>
      match fetched e with
      | Some ct => Some ct
      | None => first_fetch tr'
      end
  end.

(** The calls on an instance are made under a name that is not a
    snapshot name. *)
Definition not_snapshot_call (x : externals) (X : Type) (c : call X) : bool :=
  match c with
  | GetInstance _ name | UpdateInstance _ name _ _
  | UpdateInstanceState _ name _ _ => negb (IsSnapshot x name)
  | _ => true
  end.

(** The calls made before any server is contacted. *)
Definition local_call (X : Type) (c : call X) : bool :=
  match c with
  | checkArgs _ _ _ | ParseRemote _ => true
  | _ => false
  end.

(** A world like [world0 100] in which the wait numbered [n] fails. *)
Definition world_wait_fails (n : nat) : env :=
  λ X k c,
    match c in call X return X with
    | Wait _ =>
        if bool_decide (k = n) then Some (errors_New "operation failed") else None
    | c => world0 100 _ k c
    end.

(** The calls of the copy to the target server. *)
Definition copy_call (X : Type) (c : call X) : bool :=
  match c with
  | GetImage _ _ | CopyImage _ _ _ _ | DeleteImage _ _ => true
  | _ => false
  end.

(** The call that deletes the images holding some aliases. *)
Definition deletes_by_alias (X : Type) (c : call X) : bool :=
  match c with
  | deleteImagesByAliases _ _ => true
  | _ => false
  end.

(** The image asked of the source for the copy, the image deleted from
    it, and the [public] argument of the copy. *)
Definition get_image (e : event) : option (InstanceServer * string) :=
  match e with
  | Event c _ =>
      match c with
      | GetImage s fingerprint => Some (s, fingerprint)
      | _ => None
      end
  end.

Definition deleted_image (e : event) : option (InstanceServer * string) :=
  match e with
  | Event c _ =>
      match c with
      | DeleteImage s fingerprint => Some (s, fingerprint)
      | _ => None
      end
  end.

Definition copy_public (e : event) : option bool :=
  match e with
  | Event c _ =>
      match c with
      | CopyImage _ _ _ public => Some public
      | _ => None
      end
  end.

(** The aliases a successful [GetCommonAliases] found in use. *)
Definition common_aliases (e : event) : option (list string) :=
  match e with
  | Event c a =>
      match c in call X return X → option (list string) with
      | GetCommonAliases _ _ =>
          λ a, match a with inr l => Some l | inl _ => None end
      | _ => λ _, None
      end a
  end.

(** Every image asked for in [tr] is deleted later in [tr]. *)
Fixpoint cleaned_up (tr : list event) : Prop :=
  match tr with
  | [] => True
  | e :: tr' =>
      (∀ s fingerprint, get_image e = Some (s, fingerprint) →
         Exists (λ e', deleted_image e' = Some (s, fingerprint)) tr')
      ∧ cleaned_up tr'
  end.

(** What [Run] says of the image request for the instance [cName]. *)
Definition request_for (x : externals) (c : cmdPublish) (args : list string)
    (cName : string) (req : ImagesPost) : Prop :=
  source_Name (Source req) = cName
  ∧ (source_Type (Source req) = "snapshot" ↔ IsSnapshot x cName = true)
  ∧ source_Type (Source req) ∈ ["snapshot"; "instance"; "container"]
  ∧ parse_properties (drop (firstprop args) args) ∅
    = inr (default ∅ (Properties req))
  ∧ (Properties req = None ↔ (length args ≤ firstprop args)%nat)
  ∧ CompressionAlgorithm req = flagCompressionAlgorithm c
  ∧ Format req = flagFormat c
  ∧ (if bool_decide (flagExpiresAt c = EmptyString)
     then ExpiresAt req = 0
     else time_Parse x (flagExpiresAt c) = inr (ExpiresAt req)).

(** A world like [world0 100] with a second server, "images", which is
    the default remote, and on which the alias "web" is in use when
    [used] is set. *)
Definition world_remote (used : bool) : env :=
  λ X k c,
    match c in call X return X with
    | ParseRemote raw =>
        if bool_decide (raw = EmptyString) then inr ("images", EmptyString)
        else inr ("local", raw)
    | GetCommonAliases _ aliases => inr (if used then ["web"] else [])
    | c => world0 100 _ k c
    end.

(** The flags of [cmd0 true] with aliases and the flags [public] and
    [reuse] as given. *)
Definition cmd1 (aliases : list string) (public reuse : bool) : cmdPublish :=
  {| flagQuiet := false; flagAliases := aliases;
     flagCompressionAlgorithm := EmptyString;
     flagExpiresAt := EmptyString; flagMakePublic := public; flagForce := true;
     flagReuse := reuse; flagFormat := "unified" |}.

(** The error with which a call of the publication proper failed: the
    creation of the image, the handler, the wait for the image, the calls
    of the copy and the calls on the aliases. *)
Definition image_error (e : event) : option error :=
  match e with
  | Event c a =>
      match c in call X return X → option error with
      | CreateImage _ _ | CopyImage _ _ _ _ =>
          λ a, match a with inl err => Some err | inr _ => None end
      | GetImage _ _ =>
          λ a, match a with inl err => Some err | inr _ => None end
      | AddHandler _ | CancelableWait _
      | deleteImagesByAliases _ _ | ensureImageAliases _ _ _ => λ a, a
      | _ => λ _, None
      end a
  end.

(** The calls that tidy up: the end of the progress display and the
    deletion of the image made for the copy. *)
Definition cleanup_call (X : Type) (c : call X) : bool :=
  match c with
  | progress_Done | DeleteImage _ _ => true
  | _ => false
  end.

(** After a failed call of the publication, [r] is its error and only
    tidying up and calls of [before_publish] follow. *)
Fixpoint fails_fast (r : result) (tr : list event) : Prop :=
  match tr with
  | [] => True
  | e :: tr' =>
      (∀ err, image_error e = Some err →
         r = Done (Some err)
         ∧ Forall (λ e', is_call before_publish e' ∨ is_call cleanup_call e') tr')
      ∧ fails_fast r tr'
  end.

(** * Facts about the control channel *)

Lemma Close_state (c : migrationConn) : state (Close c) = Closed.
Proof. reflexivity. Qed.

Lemma Close_closed (c : migrationConn) : state c = Closed → Close c = c.
Proof. destruct c as [sec st fr]; simpl; intros ->; reflexivity. Qed.

Lemma set_conns_id (c : migrationFields) : set_conns c (conns c) = c.
Proof. destruct c; reflexivity. Qed.

Lemma conns_set_conns (c : migrationFields) (m : gmap string migrationConn) :
  conns (set_conns c m) = m.
Proof. reflexivity. Qed.

Lemma set_conns_twice (c : migrationFields) (m1 m2 : gmap string migrationConn) :
  set_conns (set_conns c m1) m2 = set_conns c m2.
Proof. reflexivity. Qed.

Lemma write_state (f : Frame) (net : option error) (c : migrationConn) :
  state (write f net c) = state c.
Proof. destruct net; reflexivity. Qed.

Lemma write_Secret (f : Frame) (net : option error) (c : migrationConn) :
  Secret (write f net c) = Secret c.
Proof. destruct net; reflexivity. Qed.

(** Closing every entry leaves a map of closed entries with the same names,
    on which closing again changes nothing. *)
Lemma fmap_Close_closed (m : gmap string migrationConn) name conn :
  (Close <$> m) !! name = Some conn → state conn = Closed.
Proof.
  rewrite lookup_fmap. destruct (m !! name) as [c0|]; simpl; [|discriminate].
  intros [= <-]. reflexivity.
Qed.

Lemma fmap_Close_idem (m : gmap string migrationConn) :
  Close <$> (Close <$> m) = Close <$> m.
Proof.
  apply map_eq; intros name. rewrite !lookup_fmap.
  destruct (m !! name); reflexivity.
Qed.

Lemma write_control_lookup f net c name :
  conns (write_control f net c) !! name =
  if decide (SecretNameControl = name)
  then write f net <$> conns c !! name
  else conns c !! name.
Proof.
  unfold write_control. rewrite conns_set_conns.
  destruct (decide (SecretNameControl = name)) as [<-|Hne].
  - apply lookup_alter_eq.
  - by apply lookup_alter_ne.
Qed.

Lemma write_control_states f net c :
  conn_states (write_control f net c) = conn_states c.
Proof.
  apply map_eq; intros name. unfold conn_states.
  rewrite !lookup_fmap, write_control_lookup.
  destruct (decide _) as [<-|]; [|done].
  destruct (conns c !! SecretNameControl); simpl; [|done].
  by rewrite write_state.
Qed.

Lemma write_control_is_Some f net c name :
  is_Some (conns (write_control f net c) !! name) ↔ is_Some (conns c !! name).
Proof.
  rewrite write_control_lookup. destruct (decide _); [|done].
  by rewrite fmap_is_Some.
Qed.

Lemma disconnect_Done c net :
  is_Some (conns c !! SecretNameControl) →
  ∃ c1, disconnect c net = Done c1 ∧ all_closed c1
        ∧ dom (conns c1) = dom (conns c).
Proof.
  intros [ctl Hctl]. unfold disconnect. rewrite Hctl.
  eexists; split; [reflexivity|]. split.
  - intros name conn. rewrite conns_set_conns. apply fmap_Close_closed.
  - rewrite conns_set_conns, dom_fmap_L.
    destruct (WebSocket ctl); [done|].
    unfold write_control. rewrite conns_set_conns. apply dom_alter_L.
Qed.

Lemma disconnect_closed c net :
  is_Some (conns c !! SecretNameControl) → all_closed c →
  disconnect c net = Done c.
Proof.
  intros [ctl Hctl] Hall. unfold disconnect. rewrite Hctl.
  unfold WebSocket. rewrite (Hall _ _ Hctl).
  f_equal. rewrite <- (set_conns_id c) at 3. f_equal.
  apply map_eq; intros name. rewrite lookup_fmap.
  destruct (conns c !! name) as [conn|] eqn:E; simpl; [|done].
  f_equal. apply Close_closed. eauto.
Qed.

(** C7 — [disconnect] returns (no panic, nothing but the session comes
    back) on every session that has its control entry, whatever the network
    answers; every entry is then closed, whatever its state was, and no
    entry is added or lost; a second call returns as well and leaves that
    same all-closed session. *)
Theorem disconnect_total_idempotent (c : migrationFields)
    (net1 net2 : option error) :
  is_Some (conns c !! SecretNameControl) →
  ∃ c1, disconnect c net1 = Done c1
        ∧ all_closed c1
        ∧ dom (conns c1) = dom (conns c)
        ∧ disconnect c1 net2 = Done c1.
Proof.
  intros Hctl.
  destruct (disconnect_Done c net1 Hctl) as (c1 & H1 & Hall & Hdom).
  exists c1. repeat split; try done.
  apply disconnect_closed; [|done].
  apply elem_of_dom. rewrite Hdom. by apply elem_of_dom.
Qed.

Lemma disconnect_total_idempotent_witness :
  ∃ c1, disconnect (fields0 Established) None = Done c1
        ∧ all_closed c1
        ∧ dom (conns c1) = dom (conns (fields0 Established))
        ∧ disconnect c1 (Some (errors_New "broken pipe")) = Done c1.
Proof.
  apply (disconnect_total_idempotent (fields0 Established)).
  vm_compute. eauto.
Defined.

Lemma control_sent_write_control f net c ctl :
  conns c !! SecretNameControl = Some ctl →
  control_sent (write_control f net c) =
  match net with None => sent ctl ++ [f] | Some _ => sent ctl end.
Proof.
  intros Hctl. unfold control_sent.
  rewrite write_control_lookup, decide_True by done. rewrite Hctl; simpl.
  by destruct net.
Qed.

Lemma disconnect_control_sent c net c1 ctl :
  conns c !! SecretNameControl = Some ctl →
  disconnect c net = Done c1 →
  control_sent c1 =
  match WebSocket ctl, net with
  | None, None => sent ctl ++ [CloseFrame]
  | _, _ => sent ctl
  end.
Proof.
  intros Hctl. unfold disconnect. rewrite Hctl. intros [= <-].
  unfold control_sent at 1. rewrite conns_set_conns, lookup_fmap.
  destruct (WebSocket ctl).
  - by rewrite Hctl.
  - rewrite write_control_lookup, decide_True by done. rewrite Hctl; simpl.
    by destruct net.
Qed.

(** C1 (amended) — on a session that has its control entry:
    with a non-nil error, [sendControl] returns with every entry closed and
    no entry added or lost, whatever the two writes answered; with a nil
    error it returns with the state of every entry unchanged, so nothing is
    closed.  In both cases the final status is written on the control
    stream exactly when that stream is established and the write succeeds. *)
Theorem sendControl_disconnects_on_error (c : migrationFields)
    (ctl : migrationConn) (net net_close : option error) :
  conns c !! SecretNameControl = Some ctl →
  (∀ e, ∃ c', sendControl c (Some e) net net_close = Done c'
              ∧ all_closed c'
              ∧ dom (conns c') = dom (conns c))
  ∧ (∃ c', sendControl c None net net_close = Done c'
           ∧ conn_states c' = conn_states c
           ∧ control_sent c' =
             match WebSocket ctl, net with
             | None, None => sent ctl ++ [ControlFrame None]
             | _, _ => sent ctl
             end)
  ∧ (∀ e c', sendControl c (Some e) net net_close = Done c' →
             WebSocket ctl = None → net = None →
             ∃ rest, control_sent c' = sent ctl ++ ControlFrame (Some e) :: rest).
Proof.
  intros Hctl. unfold sendControl. rewrite Hctl. split; [|split].
  - intros e. destruct (WebSocket ctl) as [err|].
    + apply disconnect_Done. eauto.
    + destruct (disconnect_Done (write_control (ControlFrame (Some e)) net c) net_close)
        as (c' & H1 & Hall & Hdom).
      { apply write_control_is_Some. eauto. }
      exists c'. repeat split; try done. rewrite Hdom.
      unfold write_control. rewrite conns_set_conns. apply dom_alter_L.
  - destruct (WebSocket ctl) as [err|].
    + exists c. repeat split. unfold control_sent. by rewrite Hctl.
    + eexists; split; [reflexivity|]. split.
      * apply write_control_states.
      * by apply control_sent_write_control.
  - intros e c' Hrun Hws ->. rewrite Hws in Hrun.
    assert (conns (write_control (ControlFrame (Some e)) None c) !! SecretNameControl
            = Some (write (ControlFrame (Some e)) None ctl)) as Hctl'.
    { rewrite write_control_lookup, decide_True by done. by rewrite Hctl. }
    rewrite (disconnect_control_sent _ _ _ _ Hctl' Hrun). simpl.
    destruct (WebSocket _), net_close; rewrite <- ?app_assoc; simpl; eauto.
Qed.

Lemma sendControl_disconnects_on_error_witness :
  ∃ c', sendControl (fields0 Established)
          (Some (errors_New "transfer failed")) None None = Done c'
        ∧ all_closed c'
        ∧ dom (conns c') = dom (conns (fields0 Established)).
Proof.
  refine (proj1 (sendControl_disconnects_on_error (fields0 Established)
                   (conn0 "s1" Established) None None _) _).
  reflexivity.
Defined.

(** C1 (as stated, refuted) — success is reported on a session whose two
    entries are established, and both writes succeed: the final status
    goes out, [sendControl] returns, and the filesystem entry is still
    established, as is the control entry; nothing was torn down. *)
Lemma sendControl_nil_keeps_connections :
  ∃ c', sendControl (fields0 Established) None None None = Done c'
        ∧ control_sent c' = [ControlFrame None]
        ∧ conn_states c' !! "fs" = Some Established
        ∧ conn_states c' !! "control" = Some Established
        ∧ ¬ all_closed c'.
Proof.
  eexists; split; [reflexivity|].
  repeat split; try reflexivity.
  intros Hall. specialize (Hall "fs" (conn0 "s2" Established) eq_refl).
  discriminate.
Qed.

(** What [send] and [recv] do once [WebSocket] has returned an error for
    the control entry: [send] returns, for every message and whatever the
    network would have answered, the error "Control connection not
    initialized" wrapping that error, and leaves the session (every stream
    included) as it was; [recv] returns the same wrapped error, whatever
    was there to read.  Whether [WebSocket] returns an error at once for
    an entry that is not yet established, or waits on its context, is
    decided outside these two functions. *)
Lemma send_recv_after_WebSocket_error (c : migrationFields)
    (ctl : migrationConn) (err : error) :
  conns c !! SecretNameControl = Some ctl →
  WebSocket ctl = Some err →
  (∀ m net, send c m net =
     Done (Some (Errorf_w "Control connection not initialized: %w" [] err), c))
  ∧ (∀ incoming, recv c incoming =
       Done (inl (Errorf_w "Control connection not initialized: %w" [] err))).
Proof.
  intros Hctl Hws. unfold send, recv. rewrite Hctl, Hws. done.
Qed.

(** A message sent on an established control connection goes out as one
    frame; a failed write returns the network's error and leaves the
    stream as it was. *)
Example send_writes_one_frame :
  (∃ c', send (fields0 Established) "offer" None = Done (None, c')
         ∧ control_sent c' = [ProtoFrame "offer"])
  ∧ send (fields0 Established) "offer" (Some (errors_New "timeout"))
    = Done (Some (errors_New "timeout"), fields0 Established).
Proof.
  split.
  - eexists. split; reflexivity.
  - vm_compute. reflexivity.
Qed.

(** Without the control entry the receiver of [WebSocket] is nil. *)
Example send_without_control_entry :
  send (set_conns (fields0 Established) ∅) "offer" None = Panics.
Proof. reflexivity. Qed.

(** * Facts about the [Connect] endpoints *)

Section Connect.

Variable AcceptIncoming : migrationConn → Request → option error * migrationConn.

Lemma range_accept_None secret r entries :
  range_accept AcceptIncoming secret r entries = None ↔
  ∀ name conn, (name, conn) ∈ entries → Secret conn ≠ secret.
Proof.
  induction entries as [|[n c0] rest IH]; simpl.
  - split; [|done]. intros _ name conn Hin. by apply elem_of_nil in Hin.
  - case_bool_decide as Hne.
    + rewrite IH. split.
      * intros Hrest name conn [[= -> ->]|Hin]%elem_of_cons; [congruence|eauto].
      * intros Hall name conn Hin. apply (Hall name conn). apply elem_of_cons; by right.
    + split; [done|]. intros Hall. exfalso.
      apply (Hall n c0); [apply elem_of_cons; by left|done].
Qed.

Lemma range_accept_Some secret r entries name res :
  range_accept AcceptIncoming secret r entries = Some (name, res) →
  ∃ conn, (name, conn) ∈ entries ∧ Secret conn = secret
          ∧ res = AcceptIncoming conn r.
Proof.
  induction entries as [|[n c0] rest IH]; simpl; [done|].
  case_bool_decide as Hne.
  - intros (conn & Hin & Hs & Hr)%IH. exists conn. split; [apply elem_of_cons; by right|done].
  - intros [= -> <-]. exists c0. split; [apply elem_of_cons; by left|done].
Qed.

Lemma iteration_lookup m entries name conn :
  iteration_of m entries → (name, conn) ∈ entries ↔ m !! name = Some conn.
Proof.
  unfold iteration_of. intros ->. apply elem_of_map_to_list.
Qed.

Lemma range_accept_unregistered m entries secret r :
  iteration_of m entries → ¬ registered m secret →
  range_accept AcceptIncoming secret r entries = None.
Proof.
  intros Hit Hno. apply range_accept_None. intros name conn Hin Hs.
  apply Hno. exists name, conn. split; [|done]. by apply (iteration_lookup m entries name conn Hit).
Qed.

Lemma range_accept_registered m entries secret r :
  iteration_of m entries → registered m secret →
  ∃ name conn, m !! name = Some conn ∧ Secret conn = secret
    ∧ range_accept AcceptIncoming secret r entries
      = Some (name, AcceptIncoming conn r).
Proof.
  intros Hit (n0 & c0 & Hl & Hs).
  destruct (range_accept AcceptIncoming secret r entries) as [[name res]|] eqn:E.
  - apply range_accept_Some in E as (conn & Hin & Hs' & ->).
    exists name, conn. split; [by apply (iteration_lookup m entries name conn Hit)|done].
  - exfalso. rewrite range_accept_None in E.
    apply (E n0 c0); [by apply (iteration_lookup m entries n0 c0 Hit)|done].
Qed.

Lemma source_set_conns_id s : source_set_conns s (conns (source_fields s)) = s.
Proof.
  destruct s as [f ? ? ? ?]. unfold source_set_conns. simpl.
  by rewrite set_conns_id.
Qed.

Lemma sink_set_conns_id k : sink_set_conns k (conns (sink_fields k)) = k.
Proof.
  destruct k as [f ? ? ? ? ?]. unfold sink_set_conns. simpl.
  by rewrite set_conns_id.
Qed.

(** C2 (amended) — for a non-empty presented secret, on the source and on
    the sink endpoint alike and for every order in which the map is
    visited: if some registered entry has exactly that secret, the request
    is handed to [AcceptIncoming] of an entry with exactly that secret,
    [Connect] returns nil exactly when that call does (its error is
    returned wrapped otherwise) and the entry is stored as that call left
    it; if no registered entry has exactly that secret (a proper prefix or
    suffix of one included), the result is the 403 authorization failure
    and the session is unchanged.  Hence the result is the authorization
    failure if and only if no registered secret equals the presented one.
    What a failing [AcceptIncoming] does to its entry is not [Connect]'s
    to decide: whenever it leaves the entry as it was, a [Connect] that
    returns an error leaves the whole session as it was, so nothing is
    established. *)
Theorem Connect_secret_exact (s : migrationSourceWs) (k : migrationSink)
    (entries_s entries_k : list (string * migrationConn)) (r : Request) :
  iteration_of (conns (source_fields s)) entries_s →
  iteration_of (conns (sink_fields k)) entries_k →
  FormValue r "secret" ≠ EmptyString →
  let secret := FormValue r "secret" in
  let res_s := migrationSourceWs_Connect AcceptIncoming s entries_s r in
  let res_k := migrationSink_Connect AcceptIncoming k entries_k r in
  (registered (conns (source_fields s)) secret →
     ∃ name conn, conns (source_fields s) !! name = Some conn
       ∧ Secret conn = secret
       ∧ res_s = (accept_error
                    "Failed accepting incoming migration source %q connection: %w"
                    name (AcceptIncoming conn r).1,
                  source_set_conns s (<[name := (AcceptIncoming conn r).2]>
                                        (conns (source_fields s)))))
  ∧ (¬ registered (conns (source_fields s)) secret →
     res_s = (Some (StatusErrorf StatusForbidden "Invalid migration source secret"), s))
  ∧ (res_s.1 = Some (StatusErrorf StatusForbidden "Invalid migration source secret")
     ↔ ¬ registered (conns (source_fields s)) secret)
  ∧ (registered (conns (sink_fields k)) secret →
     ∃ name conn, conns (sink_fields k) !! name = Some conn
       ∧ Secret conn = secret
       ∧ res_k = (accept_error
                    "Failed accepting incoming migration sink %q connection: %w"
                    name (AcceptIncoming conn r).1,
                  sink_set_conns k (<[name := (AcceptIncoming conn r).2]>
                                      (conns (sink_fields k)))))
  ∧ (¬ registered (conns (sink_fields k)) secret →
     res_k = (Some (StatusErrorf StatusForbidden "Invalid migration sink secret"), k))
  ∧ (res_k.1 = Some (StatusErrorf StatusForbidden "Invalid migration sink secret")
     ↔ ¬ registered (conns (sink_fields k)) secret)
  ∧ ((∀ conn, (AcceptIncoming conn r).1 ≠ None → (AcceptIncoming conn r).2 = conn) →
     (res_s.1 ≠ None → res_s.2 = s) ∧ (res_k.1 ≠ None → res_k.2 = k)).
Proof.
  intros Hs Hk Hne secret res_s res_k.
  assert (registered (conns (source_fields s)) secret →
     ∃ name conn, conns (source_fields s) !! name = Some conn
       ∧ Secret conn = secret
       ∧ res_s = (accept_error
                    "Failed accepting incoming migration source %q connection: %w"
                    name (AcceptIncoming conn r).1,
                  source_set_conns s (<[name := (AcceptIncoming conn r).2]>
                                        (conns (source_fields s))))) as Hs1.
  { intros Hreg.
    destruct (range_accept_registered _ _ _ r Hs Hreg) as (name & conn & Hl & Hsec & E).
    exists name, conn. split; [done|]. split; [done|].
    subst res_s. unfold migrationSourceWs_Connect.
    rewrite bool_decide_false by done. fold secret. rewrite E.
    by destruct (AcceptIncoming conn r) as [[err|] conn']. }
  assert (¬ registered (conns (source_fields s)) secret →
     res_s = (Some (StatusErrorf StatusForbidden "Invalid migration source secret"), s)) as Hs2.
  { intros Hno. subst res_s. unfold migrationSourceWs_Connect.
    rewrite bool_decide_false by done. fold secret.
    by rewrite (range_accept_unregistered _ _ _ r Hs Hno). }
  assert (registered (conns (sink_fields k)) secret →
     ∃ name conn, conns (sink_fields k) !! name = Some conn
       ∧ Secret conn = secret
       ∧ res_k = (accept_error
                    "Failed accepting incoming migration sink %q connection: %w"
                    name (AcceptIncoming conn r).1,
                  sink_set_conns k (<[name := (AcceptIncoming conn r).2]>
                                      (conns (sink_fields k))))) as Hk1.
  { intros Hreg.
    destruct (range_accept_registered _ _ _ r Hk Hreg) as (name & conn & Hl & Hsec & E).
    exists name, conn. split; [done|]. split; [done|].
    subst res_k. unfold migrationSink_Connect.
    rewrite bool_decide_false by done. fold secret. rewrite E.
    by destruct (AcceptIncoming conn r) as [[err|] conn']. }
  assert (¬ registered (conns (sink_fields k)) secret →
     res_k = (Some (StatusErrorf StatusForbidden "Invalid migration sink secret"), k)) as Hk2.
  { intros Hno. subst res_k. unfold migrationSink_Connect.
    rewrite bool_decide_false by done. fold secret.
    by rewrite (range_accept_unregistered _ _ _ r Hk Hno). }
  split; [exact Hs1|]. split; [exact Hs2|]. split.
  { split.
    - intros Hres Hreg. destruct (Hs1 Hreg) as (name & conn & _ & _ & E).
      rewrite E in Hres. simpl in Hres.
      by destruct (AcceptIncoming conn r).1.
    - intros Hno. by rewrite (Hs2 Hno). }
  split; [exact Hk1|]. split; [exact Hk2|]. split.
  { split.
    - intros Hres Hreg. destruct (Hk1 Hreg) as (name & conn & _ & _ & E).
      rewrite E in Hres. simpl in Hres.
      by destruct (AcceptIncoming conn r).1.
    - intros Hno. by rewrite (Hk2 Hno). }
  intros Hkeep. split.
  - intros Herr. subst res_s. revert Herr. unfold migrationSourceWs_Connect.
    rewrite bool_decide_false by done. fold secret.
    destruct (range_accept AcceptIncoming secret r entries_s)
      as [[name [[err|] conn']]|] eqn:E; simpl; [|done|done].
    intros _. apply range_accept_Some in E as (conn & Hin & _ & Hres).
    apply (iteration_lookup _ _ _ _ Hs) in Hin.
    assert (conn' = conn) as ->.
    { rewrite <- (Hkeep conn); rewrite <- Hres; done. }
    rewrite insert_id by done. apply source_set_conns_id.
  - intros Herr. subst res_k. revert Herr. unfold migrationSink_Connect.
    rewrite bool_decide_false by done. fold secret.
    destruct (range_accept AcceptIncoming secret r entries_k)
      as [[name [[err|] conn']]|] eqn:E; simpl; [|done|done].
    intros _. apply range_accept_Some in E as (conn & Hin & _ & Hres).
    apply (iteration_lookup _ _ _ _ Hk) in Hin.
    assert (conn' = conn) as ->.
    { rewrite <- (Hkeep conn); rewrite <- Hres; done. }
    rewrite insert_id by done. apply sink_set_conns_id.
Qed.

(** C3 — on the source and on the sink endpoint alike: a request with no
    secret (empty form value) is answered by an error of status 400; a
    request whose non-empty secret is the secret of no registered entry is
    answered by an error of status 403, which is not 404. *)
Theorem Connect_status_codes (s : migrationSourceWs) (k : migrationSink)
    (entries_s entries_k : list (string * migrationConn)) (r : Request) :
  iteration_of (conns (source_fields s)) entries_s →
  iteration_of (conns (sink_fields k)) entries_k →
  let secret := FormValue r "secret" in
  let res_s := migrationSourceWs_Connect AcceptIncoming s entries_s r in
  let res_k := migrationSink_Connect AcceptIncoming k entries_k r in
  (secret = EmptyString →
     (∃ e, res_s = (Some e, s) ∧ status_of e = Some 400)
     ∧ (∃ e, res_k = (Some e, k) ∧ status_of e = Some 400))
  ∧ (secret ≠ EmptyString → ¬ registered (conns (source_fields s)) secret →
     ∃ e, res_s = (Some e, s) ∧ status_of e = Some 403
          ∧ status_of e ≠ Some StatusNotFound)
  ∧ (secret ≠ EmptyString → ¬ registered (conns (sink_fields k)) secret →
     ∃ e, res_k = (Some e, k) ∧ status_of e = Some 403
          ∧ status_of e ≠ Some StatusNotFound).
Proof.
  intros Hs Hk secret res_s res_k. split; [|split].
  - intros Hempty. subst res_s res_k.
    unfold migrationSourceWs_Connect, migrationSink_Connect.
    fold secret. rewrite !bool_decide_true by done.
    split; eexists; (split; [reflexivity|reflexivity]).
  - intros Hne Hno. subst res_s. unfold migrationSourceWs_Connect.
    fold secret. rewrite bool_decide_false by done.
    rewrite (range_accept_unregistered _ _ _ r Hs Hno).
    eexists; split; [reflexivity|]. split; [reflexivity|discriminate].
  - intros Hne Hno. subst res_k. unfold migrationSink_Connect.
    fold secret. rewrite bool_decide_false by done.
    rewrite (range_accept_unregistered _ _ _ r Hk Hno).
    eexists; split; [reflexivity|]. split; [reflexivity|discriminate].
Qed.

End Connect.

(** The presented secret "s" is a proper prefix of the registered "s1" and
    equals no registered secret. *)
Lemma prefix_not_registered :
  ¬ registered (conns (fields0 Pending)) "s".
Proof.
  intros (name & conn & Hl & Hs). revert Hl. unfold fields0; simpl.
  rewrite lookup_insert. case_decide.
  - intros [= <-]. discriminate.
  - rewrite lookup_insert. case_decide; [|by rewrite lookup_empty].
    intros [= <-]. discriminate.
Qed.

Lemma Connect_secret_exact_witness :
  let r := request0 "s" true in
  let res_s := migrationSourceWs_Connect AcceptIncoming_model source0
                 (map_to_list (conns (fields0 Pending))) r in
  res_s.1 = Some (StatusErrorf StatusForbidden "Invalid migration source secret")
  ↔ ¬ registered (conns (fields0 Pending)) "s".
Proof.
  intros r res_s.
  refine (proj1 (proj2 (proj2
    (Connect_secret_exact AcceptIncoming_model source0 sink0
       (map_to_list (conns (fields0 Pending)))
       (map_to_list (conns (fields0 Pending))) r _ _ _)))).
  - unfold iteration_of. reflexivity.
  - unfold iteration_of. reflexivity.
  - vm_compute. discriminate.
Defined.

(** C2 (as stated, refuted) — the presented secret "s1" is exactly the
    secret of the registered, still pending control entry, but the request
    cannot be upgraded: [Connect] returns the wrapped accept error, which
    carries no status, and the session is as before, the control entry
    still pending.  An exact match did not establish a connection. *)
Lemma Connect_exact_secret_not_established :
  let r := request0 "s1" false in
  FormValue r "secret" = "s1"
  ∧ registered (conns (source_fields source0)) "s1"
  ∧ migrationSourceWs_Connect AcceptIncoming_model source0
      (map_to_list (conns (source_fields source0))) r
    = (Some (Errorf_w "Failed accepting incoming migration source %q connection: %w"
               ["control"]
               (errors_New "Failed upgrading incoming request to websocket")),
       source0)
  ∧ conn_states (source_fields source0) !! "control" = Some Pending.
Proof.
  simpl. split; [reflexivity|]. split.
  - exists "control", (conn0 "s1" Pending). split; reflexivity.
  - split; [|reflexivity]. vm_compute. reflexivity.
Qed.

Lemma Connect_status_codes_witness :
  let r := request0 "s" true in
  ∃ e, migrationSink_Connect AcceptIncoming_model sink0
         (map_to_list (conns (fields0 Pending))) r = (Some e, sink0)
       ∧ status_of e = Some 403
       ∧ status_of e ≠ Some StatusNotFound.
Proof.
  intros r.
  refine (proj2 (proj2
    (Connect_status_codes AcceptIncoming_model source0 sink0
       (map_to_list (conns (fields0 Pending)))
       (map_to_list (conns (fields0 Pending))) r _ _)) _ _).
  - unfold iteration_of. reflexivity.
  - unfold iteration_of. reflexivity.
  - vm_compute. discriminate.
  - apply prefix_not_registered.
Defined.

(** The exact secret with a request that can be upgraded establishes the
    control entry and leaves the other entry pending. *)
Example Connect_accepts_exact_secret :
  let res := migrationSourceWs_Connect AcceptIncoming_model source0
               (map_to_list (conns (source_fields source0)))
               (request0 "s1" true) in
  res.1 = None
  ∧ conn_states (source_fields res.2) !! "control" = Some Established
  ∧ conn_states (source_fields res.2) !! "fs" = Some Pending.
Proof. vm_compute. done. Qed.

(** A proper prefix and a proper suffix of the registered secret "s1"
    are refused with status 403. *)
Example Connect_refuses_prefix_and_suffix :
  (migrationSourceWs_Connect AcceptIncoming_model source0
     (map_to_list (conns (source_fields source0))) (request0 "s" true)).1
  = Some (StatusErrorf 403 "Invalid migration source secret")
  ∧ (migrationSink_Connect AcceptIncoming_model sink0
       (map_to_list (conns (sink_fields sink0))) (request0 "1" true)).1
    = Some (StatusErrorf 403 "Invalid migration sink secret").
Proof. vm_compute. done. Qed.

(** * Facts about type negotiation *)

Lemma negotiate_inr source sink t :
  negotiate source sink = inr t ↔
  ∃ pre post, source = pre ++ t :: post ∧ t ∈ sink ∧ ∀ x, x ∈ pre → x ∉ sink.
Proof.
  induction source as [|a rest IH]; simpl.
  - split; [done|]. intros (pre & post & Heq & _). by destruct pre.
  - case_bool_decide as Ha.
    + split.
      * intros [= ->]. exists [], rest. split; [done|]. split; [done|].
        intros x Hx. by apply elem_of_nil in Hx.
      * intros (pre & post & Heq & Ht & Hpre). destruct pre as [|b pre].
        -- simpl in Heq. by injection Heq as ->.
        -- simpl in Heq. injection Heq as -> _. exfalso.
           apply (Hpre b); [apply elem_of_cons; by left|done].
    + rewrite IH. split.
      * intros (pre & post & -> & Ht & Hpre). exists (a :: pre), post.
        split; [done|]. split; [done|].
        intros x [->|Hx]%elem_of_cons; [done|by apply Hpre].
      * intros (pre & post & Heq & Ht & Hpre). destruct pre as [|b pre].
        -- simpl in Heq. injection Heq as -> _. done.
        -- simpl in Heq. injection Heq as -> ->. exists pre, post.
           split; [done|]. split; [done|].
           intros x Hx. apply Hpre. apply elem_of_cons; by right.
Qed.

Lemma negotiate_inl source sink e :
  negotiate source sink = inl e ↔
  e = no_common_type ∧ ∀ x, x ∈ source → x ∉ sink.
Proof.
  induction source as [|a rest IH]; simpl.
  - split.
    + intros [= <-]. split; [done|]. intros x Hx. by apply elem_of_nil in Hx.
    + by intros [-> _].
  - case_bool_decide as Ha.
    + split; [done|]. intros [_ Hall]. exfalso.
      apply (Hall a); [apply elem_of_cons; by left|done].
    + rewrite IH. split.
      * intros [-> Hall]. split; [done|].
        intros x [->|Hx]%elem_of_cons; [done|by apply Hall].
      * intros [-> Hall]. split; [done|].
        intros x Hx. apply Hall. apply elem_of_cons; by right.
Qed.

(** C4 — negotiation returns a type exactly when it is the first entry of
    the source's list that also appears in the sink's list; it returns the
    no-common-transfer-type error, and no type to transfer with, exactly
    when the two lists share no entry; and for pairwise different A, B, C
    the lists [A; B; C] and [C; B] give B.  The same holds for the lists
    two drivers offer. *)
Theorem negotiate_first_common (source sink : list MigrationType) :
  (∀ t, negotiate source sink = inr t ↔
     ∃ pre post, source = pre ++ t :: post ∧ t ∈ sink
                 ∧ ∀ x, x ∈ pre → x ∉ sink)
  ∧ (negotiate source sink = inl no_common_type ↔
     ∀ x, x ∈ source → x ∉ sink)
  ∧ (∀ e, negotiate source sink = inl e → e = no_common_type)
  ∧ (∀ A B C, A ≠ B → A ≠ C →
     negotiate [A; B; C] [C; B] = inr B)
  ∧ (∀ (src snk : Driver) ct refresh copySnapshots clusterMove storageMove,
     MigrationTypes src ct refresh copySnapshots clusterMove storageMove = source →
     MigrationTypes snk ct refresh copySnapshots clusterMove storageMove = sink →
     negotiate_drivers src snk ct refresh copySnapshots clusterMove storageMove
     = negotiate source sink).
Proof.
  split; [apply negotiate_inr|]. split; [|split; [|split]].
  - rewrite negotiate_inl. split; [by intros [_ Hall]|by intros Hall].
  - intros e He. by apply negotiate_inl in He as [-> _].
  - intros A B C HAB HAC. simpl.
    rewrite bool_decide_false.
    + rewrite bool_decide_true; [done|]. apply elem_of_cons; right.
      apply elem_of_cons; by left.
    + rewrite !elem_of_cons, elem_of_nil. intros [->|[->|[]]]; done.
  - intros src snk ct r cs cm sm <- <-. reflexivity.
Qed.

Lemma negotiate_first_common_witness :
  negotiate [type_A; type_B; type_C] [type_C; type_B] = inr type_B
  ∧ negotiate_drivers driver_source driver_sink ContentTypeFS false true false false
    = negotiate [type_A; type_B; type_C] [type_C; type_B].
Proof.
  pose proof (negotiate_first_common [type_A; type_B; type_C] [type_C; type_B])
    as (_ & _ & _ & Hex & Hdrv).
  split.
  - apply Hex; discriminate.
  - apply Hdrv; reflexivity.
Defined.

(** * Facts about programs and traces *)

Lemma run_bind {A B : Type} (p : prog A) (f : A → prog B) E tr :
  run (bind p f) E tr = run (f (run p E tr).1) E (run p E tr).2.
Proof.
  revert tr. induction p as [a|X c k IH]; intros tr; simpl; [done|].
  apply IH.
Qed.

Lemma run_defer {A : Type} (d : prog unit) (rest : prog A) E tr :
  run (defer d rest) E tr = ((run rest E tr).1, (run d E (run rest E tr).2).2).
Proof.
  unfold defer. rewrite !run_bind. reflexivity.
Qed.

Lemma reaches_run {A : Type} P (Q : prog A → Prop) p :
  reaches P Q p → ∀ E tr,
  ∃ ext, Forall (λ e, on_call P e = true) ext
    ∧ ((∃ a, run p E tr = (a, tr ++ ext))
       ∨ (∃ q, Q q ∧ run p E tr = run q E (tr ++ ext))).
Proof.
  induction 1 as [p Hq|a|X c k Hc Hk IH]; intros E tr.
  - exists []. split; [constructor|]. right. exists p. by rewrite app_nil_r.
  - exists []. split; [constructor|]. left. exists a. by rewrite app_nil_r.
  - simpl run.
    destruct (IH (E X (length tr) c) E (tr ++ [Event c (E X (length tr) c)]))
      as (ext & Hext & Hrun).
    exists (Event c (E X (length tr) c) :: ext). split.
    + constructor; [exact Hc|exact Hext].
    + rewrite <- app_assoc in Hrun. exact Hrun.
Qed.

Lemma calls_only_run {A : Type} P (p : prog A) :
  calls_only P p → ∀ E tr,
  ∃ ext, Forall (λ e, on_call P e = true) ext
    ∧ (run p E tr).2 = tr ++ ext.
Proof.
  intros Hp E tr. destruct (reaches_run P _ p Hp E tr) as (ext & Hext & [[a Hr]|(q & [] & _)]).
  exists ext. split; [done|]. by rewrite Hr.
Qed.

Lemma calls_only_bind {A B : Type} P (p : prog A) (f : A → prog B) :
  calls_only P p → (∀ a, calls_only P (f a)) → calls_only P (bind p f).
Proof.
  intros Hp Hf. induction Hp as [p []|a|X c k Hc Hk IH]; simpl.
  - apply Hf.
  - apply reaches_Do; [done|]. exact IH.
Qed.

Lemma calls_only_defer {A : Type} P (d : prog unit) (rest : prog A) :
  calls_only P d → calls_only P rest → calls_only P (defer d rest).
Proof.
  intros Hd Hr. unfold defer. apply calls_only_bind; [done|].
  intros r. apply calls_only_bind; [done|]. intros _. apply reaches_Ret.
Qed.

(** One step of a proof that a program makes only calls in [P]. *)
Ltac calls_step :=
  first
    [ apply reaches_Ret
    | apply reaches_Do; [reflexivity|intros ?]
    | apply calls_only_defer
    | apply calls_only_bind; [|intros ?]
    | match goal with
      | |- reaches _ _ (match ?t with _ => _ end) => destruct t
      | |- calls_only _ (match ?t with _ => _ end) => destruct t
      end ].

Lemma Run_aliases_calls c d aliases fingerprint :
  calls_only publish_call (Run_aliases c d aliases fingerprint).
Proof.
  unfold Run_aliases, calls_only. repeat calls_step.
Qed.

Lemma Run_publish_calls x c args firstprop cName cRemote iRemote d s :
  calls_only publish_call
    (Run_publish x c args firstprop cName cRemote iRemote d s).
Proof.
  unfold Run_publish.
  repeat first [apply Run_aliases_calls | calls_step].
Qed.

(** * Facts about [Run] *)

Lemma stopped_stoppedb tr : stopped tr → stoppedb tr = true.
Proof.
  intros (pre & e1 & e2 & post & op & -> & H1 & H2).
  induction pre as [|a pre IH]; simpl.
  - rewrite H1, H2. by rewrite bool_decide_true.
  - destruct (stop_accepted a); [|exact IH].
    destruct (pre ++ e1 :: e2 :: post) as [|b l]; [exact IH|].
    destruct (wait_answer b) as [[op' [err|]]|]; try exact IH.
    rewrite IH. apply orb_true_r.
Qed.

Lemma stoppedb_app_no_stop l1 l2 :
  Forall (λ e, stop_accepted e = None) l1 →
  stoppedb (l1 ++ l2) = stoppedb l2.
Proof.
  induction 1 as [|a l1 Ha _ IH]; simpl; [done|]. by rewrite Ha.
Qed.

Lemma stoppedb_no_stop l :
  Forall (λ e, stop_accepted e = None) l → stoppedb l = false.
Proof.
  intros H. rewrite <- (app_nil_r l). by rewrite stoppedb_app_no_stop.
Qed.

Lemma setup_no_stop e : on_call setup_call e = true → stop_accepted e = None.
Proof. by destruct e as [X []]. Qed.

Lemma publish_no_stop e : on_call publish_call e = true → stop_accepted e = None.
Proof. by destruct e as [X []]. Qed.

Lemma setup_not_fetched e : on_call setup_call e = true → fetched e = None.
Proof. by destruct e as [X []]. Qed.

Lemma publish_not_fetched e : on_call publish_call e = true → fetched e = None.
Proof. by destruct e as [X []]. Qed.

Lemma setup_read e : on_call setup_call e = true → on_call read_call e = true.
Proof. by destruct e as [X []]. Qed.

Lemma Forall_setup_no_stop l :
  Forall (λ e, on_call setup_call e = true) l →
  Forall (λ e, stop_accepted e = None) l.
Proof. intros H. eapply Forall_impl; [exact H|]. intros e. apply setup_no_stop. Qed.

Lemma Forall_publish_no_stop l :
  Forall (λ e, on_call publish_call e = true) l →
  Forall (λ e, stop_accepted e = None) l.
Proof. intros H. eapply Forall_impl; [exact H|]. intros e. apply publish_no_stop. Qed.

(** The deferred restart makes its request, and waits when it is accepted. *)
Lemma restart_run s cName E tr :
  ∃ rs, run (restart s cName req_stop) E tr = (tt, tr ++ rs)
        ∧ restart_events s cName rs.
Proof.
  unfold restart. cbn [run].
  destruct (E _ (length tr) (UpdateInstanceState s cName (set_Action req_stop Start) EmptyString))
    as [err|op]; cbn [run].
  - eexists. split; [reflexivity|]. constructor.
  - eexists. split; [by rewrite <- app_assoc|]. constructor.
Qed.

(** The restore block, followed by [rest]. *)
Lemma restore_run s cName (rest : prog result) E tr :
  calls_only publish_call rest →
  ∃ r post, run (restore_ephemeral s cName rest) E tr = (r, tr ++ post)
    ∧ ∀ rs, restart_events s cName rs → restore_outcome s cName r (post ++ rs).
Proof.
  intros Hrest. unfold restore_ephemeral. cbn [run].
  destruct (E _ (length tr) (GetInstance s cName)) as [err|[ct etag]]; cbn [run].
  { eexists _, _. split; [reflexivity|]. intros rs Hrs. by constructor. }
  set (tr1 := tr ++ [_]).
  destruct (E _ (length tr1) (UpdateInstance s cName (Writable (set_Ephemeral ct true)) etag))
    as [err|op]; cbn [run].
  { eexists _, _. subst tr1. split; [by rewrite <- app_assoc|].
    intros rs Hrs. by constructor. }
  set (tr2 := tr1 ++ [_]).
  destruct (E _ (length tr2) (Wait op)) as [err|] eqn:Hw; cbn [run].
  { eexists _, _. subst tr2 tr1. split; [by rewrite <- !app_assoc|].
    intros rs Hrs. by constructor. }
  set (tr3 := tr2 ++ [_]).
  destruct (calls_only_run _ _ Hrest E tr3) as (ext & Hext & Hrun).
  exists (run rest E tr3).1, ([Event (GetInstance s cName) (inr (ct, etag));
     Event (UpdateInstance s cName (Writable (set_Ephemeral ct true)) etag) (inr op);
     Event (Wait op) None] ++ ext).
  split.
  - rewrite (surjective_pairing (run rest E tr3)), Hrun.
    subst tr3 tr2 tr1. by rewrite <- !app_assoc.
  - intros rs Hrs. simpl. by constructor.
Qed.

Lemma stop_run s cName wasEphemeral (rest : prog result) E tr :
  calls_only publish_call rest →
  ∃ r ext, run (stop_instance s cName wasEphemeral rest) E tr = (r, tr ++ ext)
    ∧ stop_path s cName wasEphemeral r ext.
Proof.
  intros Hrest. unfold stop_instance. cbn [run].
  destruct (E _ (length tr) (UpdateInstanceState s cName req_stop EmptyString))
    as [err|op]; cbn [run].
  { eexists _, _. split; [reflexivity|]. constructor. }
  set (tr1 := tr ++ [_]).
  destruct (E _ (length tr1) (Wait op)) as [err|]; cbn [run].
  { eexists _, _. subst tr1. split; [by rewrite <- app_assoc|]. constructor. }
  set (tr2 := tr1 ++ [_]).
  rewrite run_defer.
  destruct wasEphemeral.
  - destruct (restore_run s cName rest E tr2 Hrest) as (r & post & Hrun & Hout).
    rewrite Hrun. cbn [fst snd].
    destruct (restart_run s cName E (tr2 ++ post)) as (rs & Hrs & Hev).
    rewrite Hrs. cbn [fst snd]. eexists r, _. split.
    + subst tr2 tr1. rewrite <- !app_assoc. simpl. reflexivity.
    + constructor; [done|]. by apply Hout.
  - destruct (calls_only_run _ _ Hrest E tr2) as (ext & Hext & Hrun).
    rewrite Hrun.
    destruct (restart_run s cName E (tr2 ++ ext)) as (rs & Hrs & Hev).
    rewrite Hrs. cbn [fst snd]. eexists _, _. split.
    + subst tr2 tr1. rewrite <- !app_assoc. simpl. reflexivity.
    + by constructor.
Qed.

Lemma Run_instance_run x c s cName (rest : prog result) E tr :
  calls_only publish_call rest →
  ∃ r ext, run (Run_instance x c s cName rest) E tr = (r, tr ++ ext)
    ∧ instance_path x c s cName r ext.
Proof.
  intros Hrest. unfold Run_instance.
  destruct (IsSnapshot x cName) eqn:Hsnap; cbn [negb].
  { destruct (calls_only_run _ _ Hrest E tr) as (ext & Hext & Hrun).
    exists (run rest E tr).1, ext. split.
    - by rewrite (surjective_pairing (run rest E tr)), Hrun.
    - by apply path_snapshot. }
  cbn [run].
  destruct (E _ (length tr) (GetInstance s cName)) as [err|[ct etag]]; cbn [run].
  { eexists _, _. split; [reflexivity|]. apply path_get_failed. }
  set (tr1 := tr ++ [_]).
  destruct (wasRunning x ct) eqn:Hrunning.
  2:{ destruct (calls_only_run _ _ Hrest E tr1) as (ext & Hext & Hrun).
      exists (run rest E tr1).1, (Event (GetInstance s cName) (inr (ct, etag)) :: ext).
      split.
      - rewrite (surjective_pairing (run rest E tr1)), Hrun. subst tr1.
        by rewrite <- app_assoc.
      - by apply path_not_running. }
  destruct (flagForce c) eqn:Hforce; cbn [negb run].
  2:{ eexists _, _. split; [reflexivity|]. by apply path_no_force. }
  destruct (Ephemeral ct) eqn:Heph.
  - unfold clear_ephemeral. cbn [run].
    destruct (E _ (length tr1)
                (UpdateInstance s cName (Writable (set_Ephemeral ct false)) etag))
      as [err|op]; cbn [run].
    { eexists _, _. subst tr1. split; [by rewrite <- app_assoc|].
      by apply path_clear_refused. }
    set (tr2 := tr1 ++ [_]).
    destruct (E _ (length tr2) (Wait op)) as [err|]; cbn [run].
    { eexists _, _. subst tr2 tr1. split; [by rewrite <- !app_assoc|].
      by apply path_clear_wait_failed. }
    set (tr3 := tr2 ++ [_]).
    destruct (stop_run s cName true rest E tr3 Hrest) as (r & ext & Hrun & Hpath).
    rewrite Hrun.
    exists r, (Event (GetInstance s cName) (inr (ct, etag))
               :: [Event (UpdateInstance s cName (Writable (set_Ephemeral ct false)) etag)
                     (inr op);
                   Event (Wait op) None] ++ ext).
    split.
    + subst tr3 tr2 tr1. by rewrite <- !app_assoc.
    + apply path_stop; try done.
      * by constructor.
      * by rewrite Heph.
  - destruct (stop_run s cName false rest E tr1 Hrest) as (r & ext & Hrun & Hpath).
    rewrite Hrun.
    exists r, (Event (GetInstance s cName) (inr (ct, etag)) :: [] ++ ext).
    split.
    + subst tr1. by rewrite <- !app_assoc.
    + apply path_stop; try done.
      * by constructor.
      * by rewrite Heph.
Qed.

(** Before the block on the instance, [Run] makes only set-up calls. *)
Lemma Run_reaches x c args :
  reaches setup_call
    (λ q, ∃ s cName rest,
       q = Run_instance x c s cName rest ∧ calls_only publish_call rest)
    (Run x c args).
Proof.
  unfold Run, Run_resolved.
  repeat first
    [ apply reaches_goal; do 3 eexists; split;
        [reflexivity|apply Run_publish_calls]
    | apply reaches_Ret
    | apply reaches_Do; [reflexivity|intros ?]
    | match goal with
      | |- reaches _ _ (match ?t with _ => _ end) => destruct t
      end ].
Qed.

(** Everything [Run] can do. *)
Lemma Run_run x c args E :
  ∃ r setup,
    Forall (λ e, on_call setup_call e = true) setup
    ∧ (run (Run x c args) E [] = (r, setup)
       ∨ ∃ s cName ext,
           run (Run x c args) E [] = (r, setup ++ ext)
           ∧ instance_path x c s cName r ext).
Proof.
  destruct (reaches_run _ _ _ (Run_reaches x c args) E [])
    as (setup & Hsetup & [[a Hrun]|(q & (s & cName & rest & -> & Hrest) & Hrun)]).
  - exists a, setup. split; [done|]. by left.
  - change ([] ++ setup) with setup in Hrun.
    destruct (Run_instance_run x c s cName rest E setup Hrest)
      as (r & ext & Hrun' & Hpath).
    exists r, setup. split; [done|]. right. exists s, cName, ext.
    split; [|done]. by rewrite Hrun.
Qed.

(** On a trace that starts with set-up calls, the stop is to be found
    after them. *)
Ltac no_stop H :=
  apply stopped_stoppedb in H;
  rewrite ?stoppedb_no_stop in H by (by apply Forall_setup_no_stop);
  rewrite ?stoppedb_app_no_stop in H by (by apply Forall_setup_no_stop);
  simpl in H;
  rewrite ?stoppedb_no_stop in H by (by apply Forall_publish_no_stop);
  try discriminate H.

Lemma Exists_fetched_setup x l :
  Forall (λ e, on_call setup_call e = true) l →
  ¬ Exists (λ e, fetched_running x e = true) l.
Proof.
  intros Hall Hex. apply Exists_exists in Hex as (e & Hin & He).
  rewrite Forall_forall in Hall. specialize (Hall e Hin).
  unfold fetched_running in He. by rewrite setup_not_fetched in He.
Qed.

Lemma Exists_fetched_publish x l :
  Forall (λ e, on_call publish_call e = true) l →
  ¬ Exists (λ e, fetched_running x e = true) l.
Proof.
  intros Hall Hex. apply Exists_exists in Hex as (e & Hin & He).
  rewrite Forall_forall in Hall. specialize (Hall e Hin).
  unfold fetched_running in He. by rewrite publish_not_fetched in He.
Qed.

(** C9 — if [Run] is handed a running instance and force was not
    requested, [Run] returns the error that tells the caller to use
    --force to have the instance stopped, and every call it has made only
    reads (arguments, remotes, server connections, the instance): no
    update of the instance, no stop, no image creation, copy or alias
    change. *)
Theorem Run_running_without_force (x : externals) (c : cmdPublish)
    (args : list string) (E : env) (r : result) (tr : list event) :
  run (Run x c args) E [] = (r, tr) →
  flagForce c = false →
  Exists (λ e, fetched_running x e = true) tr →
  r = Done (Some (errors_New msg_running))
  ∧ Forall (λ e, on_call read_call e = true) tr.
Proof.
  intros Hrun Hforce Hex.
  destruct (Run_run x c args E)
    as (r' & setup & Hsetup & [Hr|(s & cName & ext & Hr & Hpath)]);
    rewrite Hr in Hrun; injection Hrun as -> <-.
  { by apply Exists_fetched_setup in Hex. }
  apply Exists_app in Hex as [Hex|Hex]; [by apply Exists_fetched_setup in Hex|].
  destruct Hpath as [r ext Hsnap Hext|err|ct etag r ext Hnot Hext|ct etag Hrunning _
                    |ct etag err _ Hf _|ct etag op err _ Hf _|ct etag clear r ext _ Hf _ _];
    try congruence.
  - by apply Exists_fetched_publish in Hex.
  - apply Exists_cons in Hex as [Hex|Hex]; [done|]. by apply Exists_nil in Hex.
  - apply Exists_cons in Hex as [Hex|Hex].
    + unfold fetched_running in Hex. simpl in Hex. congruence.
    + by apply Exists_fetched_publish in Hex.
  - split; [done|]. apply Forall_app. split.
    + eapply Forall_impl; [exact Hsetup|]. intros e. apply setup_read.
    + by repeat constructor.
Qed.

(** C5 — whenever [Run] has stopped the instance (the stop request was
    accepted and the wait for it returned nil), force was requested, the
    instance was running, and the calls of the run end with the restart of
    that instance: the request to start it, with the wait for it when the
    request is accepted.  This holds whatever [Run] returns and whatever
    happened between the stop and the restart. *)
Theorem Run_restart_after_stop (x : externals) (c : cmdPublish)
    (args : list string) (E : env) (r : result) (tr : list event) :
  run (Run x c args) E [] = (r, tr) →
  stopped tr →
  flagForce c = true
  ∧ Exists (λ e, fetched_running x e = true) tr
  ∧ ∃ pre s cName op between rs,
      tr = pre
           ++ Event (UpdateInstanceState s cName req_stop EmptyString) (inr op)
           :: Event (Wait op) None
           :: between ++ rs
      ∧ restart_events s cName rs.
Proof.
  intros Hrun Hstop.
  destruct (Run_run x c args E)
    as (r' & setup & Hsetup & [Hr|(s & cName & ext & Hr & Hpath)]);
    rewrite Hr in Hrun; injection Hrun as -> <-.
  { no_stop Hstop. }
  destruct Hpath as [r ext Hsnap Hext|err|ct etag r ext Hnot Hext|ct etag Hrunning Hf
                    |ct etag err _ Hf _|ct etag op err _ Hf _
                    |ct etag clear r ext Hrunning Hf Hclear Hpath];
    try (no_stop Hstop; fail).
  split; [done|]. split.
  { apply Exists_app. right. apply Exists_cons. left.
    unfold fetched_running. simpl. done. }
  destruct Hpath as [err|op err|op r front rs Hrs Hfront].
  - destruct Hclear; no_stop Hstop.
  - destruct Hclear; no_stop Hstop.
  - exists (setup ++ Event (GetInstance s cName) (inr (ct, etag)) :: clear),
      s, cName, op, front, rs.
    split; [|done]. rewrite <- app_assoc. reflexivity.
Qed.


Lemma stoppedb_stopped tr : stoppedb tr = true → stopped tr.
Proof.
  induction tr as [|e1 tr IH]; simpl; [done|].
  assert (stoppedb tr = true → stopped (e1 :: tr)) as Hshift.
  { intros (pre & a & b & post & op & -> & Ha & Hb)%IH.
    by exists (e1 :: pre), a, b, post, op. }
  destruct (stop_accepted e1) as [op|] eqn:H1; [|done].
  destruct tr as [|e2 tr]; [done|].
  destruct (wait_answer e2) as [[op' [err|]]|] eqn:H2; try done.
  intros [Hop%bool_decide_eq_true|H]%orb_true_iff; [|by apply Hshift].
  subst op'. by exists [], e1, e2, tr, op.
Qed.

Lemma Run_running_without_force_witness :
  (run (Run externals0 (cmd0 false) ["c1"]) (world0 100) []).1
  = Done (Some (errors_New msg_running))
  ∧ Forall (λ e, on_call read_call e = true)
      (run (Run externals0 (cmd0 false) ["c1"]) (world0 100) []).2.
Proof.
  apply (Run_running_without_force externals0 (cmd0 false) ["c1"] (world0 100)).
  - apply surjective_pairing.
  - reflexivity.
  - vm_compute. do 4 apply Exists_cons_tl. apply Exists_cons_hd. reflexivity.
Defined.

Lemma Run_restart_after_stop_witness :
  flagForce (cmd0 true) = true
  ∧ Exists (λ e, fetched_running externals0 e = true)
      (run (Run externals0 (cmd0 true) ["c1"]) (world0 100) []).2
  ∧ ∃ pre s cName op between rs,
      (run (Run externals0 (cmd0 true) ["c1"]) (world0 100) []).2
      = pre
        ++ Event (UpdateInstanceState s cName req_stop EmptyString) (inr op)
        :: Event (Wait op) None
        :: between ++ rs
      ∧ restart_events s cName rs.
Proof.
  apply (Run_restart_after_stop externals0 (cmd0 true) ["c1"] (world0 100)
           (run (Run externals0 (cmd0 true) ["c1"]) (world0 100) []).1).
  - symmetry. apply surjective_pairing.
  - apply stoppedb_stopped. vm_compute. reflexivity.
Defined.



(** * The publish command on concrete inputs *)

Example strings_SplitN2_first_separator :
  strings_SplitN2 "a=b=c" "=" = ["a"; "b=c"]
  ∧ strings_SplitN2 "abc" "=" = ["abc"]
  ∧ strings_Contains "key=" "=" = true
  ∧ strings_Join ["x"; "y"; "z"] ", " = "x, y, z".
Proof. repeat split; reflexivity. Qed.

Example parse_properties_bad_pair :
  parse_properties ["os=linux"; "release"] ∅
  = inl (Errorf "Bad key=value pair: %s" ["release"]).
Proof. reflexivity. Qed.

(** With no argument the command returns what [checkArgs] decided; if
    [checkArgs] lets an empty argument list through, [args[0]] panics. *)
Example Run_no_argument :
  (run (Run externals0 (cmd0 false) [])
     (λ X n c,
        match c in call X return X with
        | checkArgs _ _ _ => (true, None)
        | c => world0 100 _ n c
        end) []).1 = Done None
  ∧ (run (Run externals0 (cmd0 false) []) (world0 100) []).1 = Panics.
Proof. split; reflexivity. Qed.

(** A stopped instance is published without any stop or restart. *)
Example Run_stopped_instance :
  let E : env :=
    λ X n c,
      match c in call X return X with
      | GetInstance _ _ =>
          inr ({| StatusCode := 102; Ephemeral := false; Profiles := [] |}, "etag")
      | c => world0 100 _ n c
      end in
  (run (Run externals0 (cmd0 false) ["c1"; "os=linux"]) E []).1 = Done None
  ∧ stoppedb (run (Run externals0 (cmd0 false) ["c1"; "os=linux"]) E []).2 = false.
Proof. split; vm_compute; reflexivity. Qed.

(** * Facts about the control lock *)

Lemma well_locked_writes bs rest :
  well_locked true ((WriteByte <$> bs) ++ rest) = well_locked true rest.
Proof. induction bs as [|b bs IH]; simpl; [done|exact IH]. Qed.

Lemma well_locked_others held k rest :
  well_locked held (replicate k Other ++ rest) = well_locked held rest.
Proof. induction k as [|k IH]; simpl; [done|exact IH]. Qed.

Lemma send_code_well_locked encode m ws n :
  well_locked false (send_code encode m ws n) = true.
Proof.
  unfold send_code. destruct ws; simpl; [|done].
  by rewrite well_locked_writes.
Qed.

Lemma disconnect_code_well_locked encode ws n k :
  well_locked false (disconnect_code encode ws n k) = true.
Proof.
  unfold disconnect_code. destruct ws; simpl.
  - rewrite well_locked_writes. simpl.
    rewrite <- (app_nil_r (replicate k Other)). by rewrite well_locked_others.
  - rewrite <- (app_nil_r (replicate k Other)). by rewrite well_locked_others.
Qed.

Lemma sendControl_code_well_locked encode err ws n ws' n' k :
  well_locked false (sendControl_code encode err ws n ws' n' k) = true.
Proof.
  unfold sendControl_code.
  assert (well_locked false
            match err with
            | Some _ => disconnect_code encode ws' n' k
            | None => []
            end = true) as Htail.
  { destruct err; [apply disconnect_code_well_locked|done]. }
  destruct ws; simpl; [|done].
  by rewrite well_locked_writes.
Qed.

Lemma sections_from_writes cur bs rest :
  sections_from cur ((WriteByte <$> bs) ++ rest) = sections_from (cur ++ bs) rest.
Proof.
  revert cur. induction bs as [|b bs IH]; intros cur; simpl.
  - by rewrite app_nil_r.
  - rewrite IH. by rewrite <- app_assoc.
Qed.

Lemma send_code_sections encode m ws n :
  sections (send_code encode m ws n) = [send_bytes encode (m, ws, n)].
Proof.
  unfold sections, send_code, send_bytes. destruct ws; simpl; [|done].
  by rewrite sections_from_writes.
Qed.

(** A goroutine that holds the lock completes its section: what it has
    written is the beginning of its first pending section. *)
Lemma pending_holder g :
  holds g = true → well_locked (holds g) (code g) = true →
  ∃ more others, pending g = (written g ++ more) :: others.
Proof.
  destruct g as [h w c]. simpl. intros ->. unfold pending. simpl. revert w.
  induction c as [|[| |b|] c IH]; intros w; simpl; try done.
  - intros _. exists [], (sections_from [] c). by rewrite app_nil_r.
  - intros Hc. destruct (IH (w ++ [b]) Hc) as (more & others & ->).
    exists (b :: more), others. by rewrite <- app_assoc.
  - intros Hc. apply IH, Hc.
Qed.

Lemma invariant_start codes :
  Forall (λ c, well_locked false c = true) codes → invariant codes (start codes).
Proof.
  intros Hcodes. split; simpl.
  - intros i g. rewrite list_lookup_fmap.
    destruct (codes !! i) as [c|] eqn:Hc; simpl; [|done].
    intros [= <-]. simpl. rewrite Forall_forall in Hcodes.
    apply Hcodes. by eapply list_elem_of_lookup_2.
  - intros _. split; [|done]. intros i g. rewrite list_lookup_fmap.
    destruct (codes !! i); simpl; [|done]. by intros [= <-].
  - done.
  - rewrite <- list_fmap_compose. done.
Qed.

Lemma pending_insert_same (l : list goroutine) i g g' :
  l !! i = Some g → pending g' = pending g →
  pending <$> <[i := g']> l = pending <$> l.
Proof.
  intros Hl Hp. rewrite list_fmap_insert, Hp. apply list_insert_id.
  by rewrite list_lookup_fmap, Hl.
Qed.

Lemma pending_insert_pop (l : list goroutine) i g g' w :
  l !! i = Some g → pending g = w :: pending g' →
  concat (pending <$> l) ≡ₚ w :: concat (pending <$> <[i := g']> l).
Proof.
  intros Hl Hp.
  rewrite insert_take_drop by (by eapply lookup_lt_Some).
  rewrite <- (take_drop_middle l i g Hl) at 1.
  rewrite !fmap_app, !fmap_cons, !concat_app, !concat_cons, Hp. simpl.
  symmetry. apply Permutation_middle.
Qed.

Lemma lookup_insert_holder (l : list goroutine) i j g g' :
  <[i := g]> l !! j = Some g' → (j = i ∧ g' = g) ∨ (j ≠ i ∧ l !! j = Some g').
Proof.
  destruct (decide (i = j)) as [<-|Hne].
  - intros H. left. split; [done|].
    destruct (decide (i < length l)%nat) as [Hlt|Hge].
    + rewrite list_lookup_insert_eq in H by done. congruence.
    + rewrite list_insert_ge in H by lia.
      apply lookup_lt_Some in H. lia.
  - rewrite list_lookup_insert_ne by done. intros H. right. split; [congruence|done].
Qed.

Lemma invariant_step codes i st st' :
  invariant codes st → step_at i st = Some st' → invariant codes st'.
Proof.
  intros [Hwl Hun Hlk Hsec]. unfold step_at.
  destruct (pool st !! i) as [g|] eqn:Hg; [|done].
  pose proof (Hwl i g Hg) as Hgw.
  destruct (code g) as [|[| |b|] rest] eqn:Hcode; [done| | | |].
  - (* Lock *)
    destruct (locked st) eqn:Hl; [done|]. intros [= <-].
    destruct (Hun eq_refl) as [Hnone Hwire].
    simpl in Hgw. apply andb_true_iff in Hgw as [_ Hrest].
    split; simpl.
    + intros j g' [[-> ->]|[_ Hj]]%lookup_insert_holder; [done|eauto].
    + done.
    + intros _. exists i, {| holds := true; written := []; code := rest |}.
      split; [apply list_lookup_insert_eq; by eapply lookup_lt_Some|].
      split; [done|]. split; [by rewrite app_nil_r|].
      intros j g' [[-> _]|[_ Hj]]%lookup_insert_holder Hh; [done|].
      rewrite (Hnone j g' Hj) in Hh. done.
    + rewrite (pending_insert_same _ i g); [done|done|].
      unfold pending. by rewrite Hcode.
  - (* Unlock *)
    destruct (locked st) eqn:Hl; [|done]. intros [= <-].
    destruct (Hlk eq_refl) as (h & gh & Hh & Hholds & Hwire & Huniq).
    simpl in Hgw. apply andb_true_iff in Hgw as [Hgh Hrest].
    assert (i = h) as -> by eauto. assert (gh = g) as -> by congruence.
    split; simpl.
    + intros j g' [[-> ->]|[_ Hj]]%lookup_insert_holder; [done|eauto].
    + intros _. split.
      * intros j g' [[-> ->]|[Hne Hj]]%lookup_insert_holder; [done|].
        destruct (holds g') eqn:Hg'; [|done]. by destruct Hne; eauto.
      * rewrite concat_app. simpl. by rewrite app_nil_r.
    + done.
    + rewrite <- Hsec.
      rewrite (pending_insert_pop (pool st) h g
                 {| holds := false; written := []; code := rest |} (written g) Hg).
      * rewrite <- app_assoc. simpl. done.
      * unfold pending. by rewrite Hcode.
  - (* WriteByte *)
    intros [= <-].
    simpl in Hgw. apply andb_true_iff in Hgw as [Hgh Hrest].
    destruct (locked st) eqn:Hl.
    2:{ destruct (Hun eq_refl) as [Hnone _]. rewrite (Hnone i g Hg) in Hgh. done. }
    destruct (Hlk eq_refl) as (h & gh & Hh & Hholds & Hwire & Huniq).
    assert (i = h) as -> by eauto. assert (gh = g) as -> by congruence.
    split; simpl.
    + intros j g' [[-> ->]|[_ Hj]]%lookup_insert_holder; [exact Hrest|eauto].
    + done.
    + intros _. exists h, {| holds := holds g; written := written g ++ [b]; code := rest |}.
      split; [apply list_lookup_insert_eq; by eapply lookup_lt_Some|].
      split; [done|]. split; [by rewrite Hwire, <- app_assoc|].
      intros j g' [[-> _]|[_ Hj]]%lookup_insert_holder Hh'; [done|eauto].
    + rewrite (pending_insert_same _ h g); [done|done|].
      unfold pending. by rewrite Hcode.
  - (* Other *)
    intros [= <-]. simpl in Hgw.
    split; simpl.
    + intros j g' [[-> ->]|[_ Hj]]%lookup_insert_holder; [done|eauto].
    + intros Hl. destruct (Hun Hl) as [Hnone Hwire]. split; [|done].
      intros j g' [[-> ->]|[_ Hj]]%lookup_insert_holder; [simpl; eauto|eauto].
    + intros Hl. destruct (Hlk Hl) as (h & gh & Hh & Hholds & Hwire & Huniq).
      destruct (decide (h = i)) as [->|Hne].
      * assert (gh = g) as -> by congruence.
        exists i, {| holds := holds g; written := written g; code := rest |}.
        split; [apply list_lookup_insert_eq; by eapply lookup_lt_Some|].
        split; [done|]. split; [done|].
        intros j g' [[-> _]|[_ Hj]]%lookup_insert_holder Hh'; [done|eauto].
      * exists h, gh. split; [by rewrite list_lookup_insert_ne|].
        split; [done|]. split; [done|].
        intros j g' [[-> ->]|[_ Hj]]%lookup_insert_holder Hh'; [|eauto].
        simpl in Hh'. eauto.
    + rewrite (pending_insert_same _ i g); [done|done|].
      unfold pending. by rewrite Hcode.
Qed.

Lemma invariant_run codes schedule st st' :
  invariant codes st → run_schedule schedule st = Some st' → invariant codes st'.
Proof.
  revert st. induction schedule as [|i schedule IH]; intros st Hinv; simpl.
  - by intros [= <-].
  - destruct (step_at i st) as [st1|] eqn:Hstep; [|done].
    apply IH. by eapply invariant_step.
Qed.

Lemma pending_finished (l : list goroutine) :
  Forall (λ g, code g = []) l → concat (pending <$> l) = [].
Proof.
  induction 1 as [|g l Hg _ IH]; simpl; [done|].
  unfold pending at 1. by rewrite Hg.
Qed.

Lemma send_sections encode (calls : list (Message * bool * nat)) :
  concat (sections <$> ((λ '(m, ws, n), send_code encode m ws n) <$> calls))
  = send_bytes encode <$> calls.
Proof.
  induction calls as [|[[m ws] n] calls IH]; [done|].
  rewrite !fmap_cons, concat_cons, send_code_sections, IH. reflexivity.
Qed.

(** What the invariant says about the wire. *)
Lemma invariant_wire codes st :
  invariant codes st →
  ∃ cur,
    wire st = concat (completed st) ++ cur
    ∧ (if locked st
       then ∃ more, completed st ++ [cur ++ more] ⊆+ concat (sections <$> codes)
       else cur = [] ∧ completed st ⊆+ concat (sections <$> codes))
    ∧ (Forall (λ g, code g = []) (pool st) →
       cur = [] ∧ completed st ≡ₚ concat (sections <$> codes)).
Proof.
  intros [Hwl Hun Hlk Hsec].
  assert (completed st ⊆+ concat (sections <$> codes)) as Hsub.
  { rewrite <- Hsec. apply submseteq_inserts_r. done. }
  destruct (locked st) eqn:Hl.
  - destruct (Hlk eq_refl) as (h & g & Hg & Hh & Hwire & _).
    exists (written g). split; [done|]. split.
    + destruct (pending_holder g Hh (Hwl h g Hg)) as (more & others & Hp).
      exists more. rewrite <- Hsec. apply submseteq_skips_l.
      apply singleton_submseteq_l.
      apply list_elem_of_In, in_concat. exists (pending g). split.
      * apply list_elem_of_In, list_elem_of_fmap_2.
        by eapply list_elem_of_lookup_2.
      * rewrite Hp. by left.
    + intros Hfin. exfalso. rewrite Forall_forall in Hfin.
      pose proof (Hwl h g Hg) as Hw.
      rewrite (Hfin g) in Hw by (by eapply list_elem_of_lookup_2).
      rewrite Hh in Hw. done.
  - destruct (Hun eq_refl) as [_ Hwire].
    exists []. split; [by rewrite app_nil_r|]. split; [done|].
    intros Hfin. split; [done|].
    rewrite <- Hsec, (pending_finished _ Hfin). by rewrite app_nil_r.
Qed.

(** C8 — the steps of [send], [sendControl] and [disconnect] put every
    write to the control stream between taking and releasing the control
    lock.  In every execution of goroutines whose codes do so: at most one
    goroutine is between its Lock and its Unlock, a goroutine about to
    write is that one and the lock is taken, and the wire is the byte
    sequences of completed critical sections, each whole and one after
    the other, followed by what the goroutine holding the lock has written
    of its own section so far.  For any number of goroutines calling
    [send], the wire is therefore whole messages one after the other,
    followed by the beginning of the message being sent; when all have
    returned, it is the messages in some order. *)
Theorem control_lock_single_writer (encode : Frame → list byte) :
  (∀ m ws n, well_locked false (send_code encode m ws n) = true)
  ∧ (∀ err ws n ws' n' k,
       well_locked false (sendControl_code encode err ws n ws' n' k) = true)
  ∧ (∀ ws n k, well_locked false (disconnect_code encode ws n k) = true)
  ∧ (∀ codes schedule st,
       Forall (λ c, well_locked false c = true) codes →
       run_schedule schedule (start codes) = Some st →
       (∀ i j gi gj,
          pool st !! i = Some gi → pool st !! j = Some gj →
          holds gi = true → holds gj = true → i = j)
       ∧ (∀ i g b rest,
            pool st !! i = Some g → code g = WriteByte b :: rest →
            holds g = true ∧ locked st = true)
       ∧ ∃ cur,
           wire st = concat (completed st) ++ cur
           ∧ (if locked st
              then ∃ more,
                     completed st ++ [cur ++ more] ⊆+ concat (sections <$> codes)
              else cur = [] ∧ completed st ⊆+ concat (sections <$> codes))
           ∧ (Forall (λ g, code g = []) (pool st) →
              cur = [] ∧ completed st ≡ₚ concat (sections <$> codes)))
  ∧ (∀ (calls : list (Message * bool * nat)) schedule st,
       run_schedule schedule
         (start ((λ '(m, ws, n), send_code encode m ws n) <$> calls)) = Some st →
       ∃ whole cur,
         wire st = concat whole ++ cur
         ∧ (if locked st
            then ∃ more, whole ++ [cur ++ more] ⊆+ send_bytes encode <$> calls
            else cur = [] ∧ whole ⊆+ send_bytes encode <$> calls)
         ∧ (Forall (λ g, code g = []) (pool st) →
            cur = [] ∧ whole ≡ₚ send_bytes encode <$> calls)).
Proof.
  split; [apply send_code_well_locked|].
  split; [apply sendControl_code_well_locked|].
  split; [apply disconnect_code_well_locked|].
  split.
  - intros codes schedule st Hcodes Hrun.
    pose proof (invariant_run codes schedule _ st (invariant_start codes Hcodes) Hrun)
      as Hinv.
    split; [|split; [|by apply invariant_wire]].
    + intros i j gi gj Hi Hj Hgi Hgj.
      destruct Hinv as [_ Hun Hlk _]. destruct (locked st).
      * destruct (Hlk eq_refl) as (h & g & _ & _ & _ & Huniq).
        rewrite (Huniq i gi Hi Hgi). symmetry. by apply (Huniq j gj).
      * destruct (Hun eq_refl) as [Hnone _]. rewrite (Hnone i gi Hi) in Hgi. done.
    + intros i g b rest Hg Hcode.
      destruct Hinv as [Hwl Hun _ _].
      pose proof (Hwl i g Hg) as Hw. rewrite Hcode in Hw. simpl in Hw.
      apply andb_true_iff in Hw as [Hh _]. split; [done|].
      destruct (locked st); [done|].
      destruct (Hun eq_refl) as [Hnone _]. rewrite (Hnone i g Hg) in Hh. done.
  - intros calls schedule st Hrun.
    assert (Forall (λ c, well_locked false c = true)
              ((λ '(m, ws, n), send_code encode m ws n) <$> calls)) as Hcodes.
    { apply Forall_fmap, Forall_forall. intros [[m ws] n] _.
      apply send_code_well_locked. }
    pose proof (invariant_run _ schedule _ st (invariant_start _ Hcodes) Hrun)
      as Hinv.
    destruct (invariant_wire _ _ Hinv) as (cur & Hwire & Hmid & Hend).
    rewrite send_sections in Hmid, Hend.
    by exists (completed st), cur.
Qed.

Lemma control_lock_single_writer_witness :
  ∃ st,
    run_schedule [1; 1; 1; 1; 1; 1; 1; 0; 0; 0; 0; 0]%nat
      (start ((λ '(m, ws, n), send_code encode0 m ws n)
              <$> [("ab", true, 3%nat); ("cd", true, 3%nat)])) = Some st
    ∧ ∃ whole cur,
        wire st = concat whole ++ cur
        ∧ (if locked st
           then ∃ more,
                  whole ++ [cur ++ more]
                  ⊆+ send_bytes encode0 <$> [("ab", true, 3%nat); ("cd", true, 3%nat)]
           else cur = []
                ∧ whole ⊆+ send_bytes encode0
                           <$> [("ab", true, 3%nat); ("cd", true, 3%nat)])
        ∧ (Forall (λ g, code g = []) (pool st) →
           cur = []
           ∧ whole ≡ₚ send_bytes encode0
                      <$> [("ab", true, 3%nat); ("cd", true, 3%nat)]).
Proof.
  eexists. split; [vm_compute; reflexivity|].
  refine (proj2 (proj2 (proj2 (proj2 (control_lock_single_writer encode0))))
            [("ab", true, 3%nat); ("cd", true, 3%nat)]
            [1; 1; 1; 1; 1; 1; 1; 0; 0; 0; 0; 0]%nat _ _).
  vm_compute. reflexivity.
Defined.

(** The step relation does interleave writers that do not take the lock:
    two goroutines that write two bytes each without locking can leave
    their bytes alternating on the wire.  Such codes are not well-locked. *)
Example unguarded_writes_interleave :
  let codes := [[WriteByte Byte.x61; WriteByte Byte.x62];
                [WriteByte Byte.x63; WriteByte Byte.x64]] in
  wire <$> run_schedule [0; 1; 0; 1]%nat (start codes)
  = Some [Byte.x61; Byte.x63; Byte.x62; Byte.x64]
  ∧ Forall (λ c, well_locked false c = false) codes.
Proof. split; [reflexivity|]. repeat constructor. Qed.

(** A goroutine that asks for the lock while another holds it has no
    step. *)
Example lock_blocks_second_sender :
  let codes := [send_code encode0 "ab" true 3; send_code encode0 "cd" true 3] in
  step_at 1 <$> run_schedule [0; 0; 0; 0]%nat (start codes) = Some None.
Proof. vm_compute. reflexivity. Qed.

(** * More facts about the control channel *)

Lemma write_control_failed f err c : write_control f (Some err) c = c.
Proof.
  unfold write_control. transitivity (set_conns c (conns c)); [|apply set_conns_id].
  f_equal.
  apply map_eq; intros name. destruct (decide (SecretNameControl = name)) as [<-|Hne].
  - rewrite lookup_alter_eq. by destruct (conns c !! SecretNameControl).
  - by rewrite lookup_alter_ne.
Qed.

Lemma write_control_secrets f net c :
  Secret <$> conns (write_control f net c) = Secret <$> conns c.
Proof.
  apply map_eq; intros name. rewrite !lookup_fmap, write_control_lookup.
  destruct (decide _) as [<-|]; [|done].
  destruct (conns c !! SecretNameControl); simpl; [|done].
  by rewrite write_Secret.
Qed.

(** X1 — on a session whose control entry is established, [send] returns
    what the network answered; a successful write adds exactly the
    message's frame at the end of the control stream, a failed one leaves
    the session as it was; in both cases every other entry, the state of
    every entry and every secret are unchanged. *)
Theorem send_only_appends (c : migrationFields) (ctl : migrationConn)
    (m : Message) (net : option error) :
  conns c !! SecretNameControl = Some ctl →
  state ctl = Established →
  ∃ c', send c m net = Done (net, c')
    ∧ control_sent c' =
      match net with
      | None => sent ctl ++ [ProtoFrame m]
      | Some _ => sent ctl
      end
    ∧ (∀ name, name ≠ SecretNameControl → conns c' !! name = conns c !! name)
    ∧ conn_states c' = conn_states c
    ∧ Secret <$> conns c' = Secret <$> conns c
    ∧ (is_Some net → c' = c).
Proof.
  intros Hctl Hst. unfold send, WebSocket. rewrite Hctl, Hst.
  eexists. split; [reflexivity|]. split; [by apply control_sent_write_control|].
  split.
  { intros name Hne. rewrite write_control_lookup. by rewrite decide_False. }
  split; [apply write_control_states|]. split; [apply write_control_secrets|].
  intros [err ->]. apply write_control_failed.
Qed.

Lemma send_only_appends_witness :
  ∃ c', send (fields0 Established) "offer" None = Done (None, c')
    ∧ control_sent c' = [] ++ [ProtoFrame "offer"]
    ∧ (∀ name, name ≠ SecretNameControl →
       conns c' !! name = conns (fields0 Established) !! name)
    ∧ conn_states c' = conn_states (fields0 Established)
    ∧ Secret <$> conns c' = Secret <$> conns (fields0 Established)
    ∧ (is_Some (@None error) → c' = fields0 Established).
Proof.
  apply (send_only_appends (fields0 Established) (conn0 "s1" Established));
    reflexivity.
Defined.

Lemma sendControl_error_run c ctl e :
  conns c !! SecretNameControl = Some ctl →
  state ctl = Established →
  ∃ c1 ctl1,
    sendControl c (Some e) None None = Done c1
    ∧ conns c1 !! SecretNameControl = Some ctl1
    ∧ state ctl1 = Closed
    ∧ control_sent c1 = sent ctl ++ [ControlFrame (Some e); CloseFrame].
Proof.
  intros Hctl Hst. unfold sendControl, WebSocket. rewrite Hctl, Hst.
  set (c0 := write_control (ControlFrame (Some e)) None c).
  assert (conns c0 !! SecretNameControl = Some (write (ControlFrame (Some e)) None ctl))
    as Hctl0.
  { subst c0. rewrite write_control_lookup, decide_True by done. by rewrite Hctl. }
  destruct (disconnect_Done c0 None) as (c1 & Hrun & Hall & Hdom); [by eexists|].
  assert (is_Some (conns c1 !! SecretNameControl)) as [ctl1 Hctl1].
  { apply elem_of_dom. rewrite Hdom. apply elem_of_dom. by eexists. }
  exists c1, ctl1. split; [done|]. split; [done|]. split; [by eapply Hall|].
  rewrite (disconnect_control_sent _ _ _ _ Hctl0 Hrun).
  unfold WebSocket. simpl. rewrite Hst. by rewrite <- app_assoc.
Qed.

(** X2 — reporting success keeps the control channel usable and reporting
    a failure does not: on an established control entry with a working
    network, [send] after [sendControl(nil)] succeeds and the stream ends
    with the final status followed by the message; [send] after
    [sendControl(err)], [err] not nil, returns the "Control connection not
    initialized" error and writes nothing. *)
Theorem send_after_sendControl (c : migrationFields) (ctl : migrationConn)
    (m : Message) :
  conns c !! SecretNameControl = Some ctl →
  state ctl = Established →
  (∃ c1 c2,
     sendControl c None None None = Done c1
     ∧ send c1 m None = Done (None, c2)
     ∧ control_sent c2 = sent ctl ++ [ControlFrame None; ProtoFrame m])
  ∧ (∀ e net, ∃ c1 err,
       sendControl c (Some e) None None = Done c1
       ∧ send c1 m net
         = Done (Some (Errorf_w "Control connection not initialized: %w" [] err), c1)
       ∧ control_sent c1 = sent ctl ++ [ControlFrame (Some e); CloseFrame]).
Proof.
  intros Hctl Hst. split.
  - unfold sendControl, WebSocket. rewrite Hctl, Hst.
    set (c1 := write_control (ControlFrame None) None c).
    assert (conns c1 !! SecretNameControl = Some (write (ControlFrame None) None ctl))
      as Hctl1.
    { subst c1. rewrite write_control_lookup, decide_True by done. by rewrite Hctl. }
    exists c1, (write_control (ProtoFrame m) None c1). split; [done|].
    split; [unfold send, WebSocket; by rewrite Hctl1, write_state, Hst|].
    rewrite (control_sent_write_control _ _ _ _ Hctl1). simpl.
    by rewrite <- app_assoc.
  - intros e net.
    destruct (sendControl_error_run c ctl e Hctl Hst)
      as (c1 & ctl1 & Hrun & Hctl1 & Hst1 & Hsent).
    exists c1, (errors_New "connection closed"). split; [done|]. split; [|done].
    unfold send, WebSocket. by rewrite Hctl1, Hst1.
Qed.

Lemma send_after_sendControl_witness :
  (∃ c1 c2,
     sendControl (fields0 Established) None None None = Done c1
     ∧ send c1 "offer" None = Done (None, c2)
     ∧ control_sent c2 = [] ++ [ControlFrame None; ProtoFrame "offer"])
  ∧ (∀ e net, ∃ c1 err,
       sendControl (fields0 Established) (Some e) None None = Done c1
       ∧ send c1 "offer" net
         = Done (Some (Errorf_w "Control connection not initialized: %w" [] err), c1)
       ∧ control_sent c1 = [] ++ [ControlFrame (Some e); CloseFrame]).
Proof.
  apply (send_after_sendControl (fields0 Established) (conn0 "s1" Established));
    reflexivity.
Defined.

(** X3 — once [disconnect] has returned, the control channel is dead:
    whatever the network would answer, [send] and [recv] return the
    "Control connection not initialized" error, [controlChannel] delivers
    a response carrying that error, and neither [send], [sendControl] nor
    a further [disconnect] changes anything in the session, so no frame is
    written any more. *)
Theorem nothing_after_disconnect (c c1 : migrationFields) (net : option error) :
  disconnect c net = Done c1 →
  let closed := Errorf_w "Control connection not initialized: %w" []
                  (errors_New "connection closed") in
  (∀ m n, send c1 m n = Done (Some closed, c1))
  ∧ (∀ incoming, recv c1 incoming = Done (inl closed))
  ∧ (∀ incoming, controlChannel c1 incoming
       = Done {| MigrationControl := EmptyString; Err := Some closed |})
  ∧ (∀ err n1 n2, sendControl c1 err n1 n2 = Done c1)
  ∧ (∀ n, disconnect c1 n = Done c1).
Proof.
  intros Hrun closed.
  assert (is_Some (conns c !! SecretNameControl)) as Hctl.
  { unfold disconnect in Hrun. by destruct (conns c !! SecretNameControl). }
  destruct (disconnect_Done c net Hctl) as (c1' & Hrun' & Hall & Hdom).
  assert (c1' = c1) as -> by congruence.
  assert (is_Some (conns c1 !! SecretNameControl)) as [ctl1 Hctl1].
  { apply elem_of_dom. rewrite Hdom. by apply elem_of_dom. }
  pose proof (Hall _ _ Hctl1) as Hst1.
  assert (∀ n, disconnect c1 n = Done c1) as Hagain.
  { intros n. apply disconnect_closed; [by eexists|done]. }
  repeat split; try done.
  - intros m n. unfold send, WebSocket. by rewrite Hctl1, Hst1.
  - intros incoming. unfold recv, WebSocket. by rewrite Hctl1, Hst1.
  - intros incoming. unfold controlChannel, recv, WebSocket. by rewrite Hctl1, Hst1.
  - intros err n1 n2. unfold sendControl, WebSocket. rewrite Hctl1, Hst1.
    destruct err; [apply Hagain|done].
Qed.

Lemma nothing_after_disconnect_witness :
  ∃ c1, disconnect (fields0 Established) None = Done c1
    ∧ (∀ m n, send c1 m n
         = Done (Some (Errorf_w "Control connection not initialized: %w" []
                         (errors_New "connection closed")), c1))
    ∧ (∀ err n1 n2, sendControl c1 err n1 n2 = Done c1).
Proof.
  eexists. split; [reflexivity|].
  pose proof (nothing_after_disconnect (fields0 Established) _ None eq_refl)
    as (Hsend & _ & _ & Hctl & _).
  split; [exact Hsend|exact Hctl].
Defined.

(** X4 — [disconnect] touches nothing but the states and the control
    stream: every entry keeps its name, its secret and the frames already
    written on it; the close message is added to the control stream exactly
    when the control entry was established and the write succeeded, and no
    other stream gets a frame. *)
Theorem disconnect_keeps_secrets_and_streams (c c1 : migrationFields)
    (ctl : migrationConn) (net : option error) :
  conns c !! SecretNameControl = Some ctl →
  disconnect c net = Done c1 →
  Secret <$> conns c1 = Secret <$> conns c
  ∧ (∀ name conn, name ≠ SecretNameControl → conns c !! name = Some conn →
     conns c1 !! name = Some (Close conn))
  ∧ control_sent c1 =
    (if decide (state ctl = Established ∧ net = None)
     then sent ctl ++ [CloseFrame] else sent ctl).
Proof.
  intros Hctl Hrun. split; [|split].
  - unfold disconnect in Hrun. rewrite Hctl in Hrun. injection Hrun as <-.
    rewrite conns_set_conns. apply map_eq; intros name.
    rewrite lookup_fmap, lookup_fmap, lookup_fmap.
    destruct (WebSocket ctl).
    + by destruct (conns c !! name).
    + rewrite write_control_lookup. destruct (decide _) as [<-|].
      * destruct (conns c !! SecretNameControl); simpl; [|done].
        by rewrite write_Secret.
      * by destruct (conns c !! name).
  - intros name conn Hne Hconn.
    unfold disconnect in Hrun. rewrite Hctl in Hrun. injection Hrun as <-.
    rewrite conns_set_conns, lookup_fmap.
    destruct (WebSocket ctl).
    + by rewrite Hconn.
    + rewrite write_control_lookup, decide_False by done. by rewrite Hconn.
  - rewrite (disconnect_control_sent _ _ _ _ Hctl Hrun). unfold WebSocket.
    destruct (state ctl), net; simpl; try done;
      by (rewrite decide_True by done) || (rewrite decide_False by (intros [? ?]; done)).
Qed.

Lemma disconnect_keeps_secrets_and_streams_witness :
  ∃ c1, disconnect (fields0 Established) None = Done c1
    ∧ Secret <$> conns c1 = Secret <$> conns (fields0 Established)
    ∧ control_sent c1 = [CloseFrame].
Proof.
  eexists. split; [reflexivity|].
  pose proof (disconnect_keeps_secrets_and_streams (fields0 Established) _
                (conn0 "s1" Established) None eq_refl eq_refl) as (Hs & _ & Hc).
  split; [exact Hs|exact Hc].
Defined.

(** * More facts about [Metadata] and [Connect] *)

Lemma range_secrets_other (acc : gmap string string)
    (entries : list (string * migrationConn)) name :
  name ∉ entries.*1 →
  foldl (λ secrets entry, <[entry.1 := Secret entry.2]> secrets) acc entries !! name
  = acc !! name.
Proof.
  revert acc. induction entries as [|[n0 c0] rest IH]; intros acc Hnot; simpl; [done|].
  rewrite fmap_cons, not_elem_of_cons in Hnot. destruct Hnot as [Hne Hrest].
  rewrite IH by done. simpl in Hne. by rewrite lookup_insert_ne.
Qed.

Lemma range_secrets_entry (acc : gmap string string)
    (entries : list (string * migrationConn)) name conn :
  NoDup entries.*1 → (name, conn) ∈ entries →
  foldl (λ secrets entry, <[entry.1 := Secret entry.2]> secrets) acc entries !! name
  = Some (Secret conn).
Proof.
  revert acc. induction entries as [|[n0 c0] rest IH]; intros acc Hnd Hin; simpl.
  { by apply elem_of_nil in Hin. }
  rewrite fmap_cons in Hnd. apply NoDup_cons in Hnd as [Hfresh Hnd].
  apply elem_of_cons in Hin as [[= -> ->]|Hin].
  - rewrite range_secrets_other by done. simpl. apply lookup_insert_eq.
  - by apply IH.
Qed.

Lemma iteration_NoDup m entries : iteration_of m entries → NoDup entries.*1.
Proof.
  unfold iteration_of. intros ->. apply NoDup_fst_map_to_list.
Qed.

Lemma range_secrets_iteration m entries :
  iteration_of m entries → range_secrets entries = Secret <$> m.
Proof.
  intros Hit. apply map_eq; intros name. rewrite lookup_fmap.
  destruct (m !! name) as [conn|] eqn:Hm; simpl.
  - apply range_secrets_entry; [by eapply iteration_NoDup|].
    by apply (iteration_lookup m entries name conn Hit).
  - unfold range_secrets. rewrite range_secrets_other; [done|].
    intros ([n c] & -> & Hin)%list_elem_of_fmap.
    apply (iteration_lookup m entries n c Hit) in Hin. simpl in Hm. congruence.
Qed.

(** X5 — [Metadata], on the source and on the sink, is the map from every
    connection name to that connection's secret, and nothing else,
    whatever the order in which the loop visits the connections; so two
    calls agree, and [send], [sendControl] and [disconnect], which change
    no secret, leave it the same. *)
Theorem Metadata_names_to_secrets (s : migrationSourceWs) (k : migrationSink)
    (entries_s entries_k : list (string * migrationConn)) :
  iteration_of (conns (source_fields s)) entries_s →
  iteration_of (conns (sink_fields k)) entries_k →
  migrationSourceWs_Metadata s entries_s = Secret <$> conns (source_fields s)
  ∧ migrationSink_Metadata k entries_k = Secret <$> conns (sink_fields k)
  ∧ dom (migrationSourceWs_Metadata s entries_s) = dom (conns (source_fields s))
  ∧ dom (migrationSink_Metadata k entries_k) = dom (conns (sink_fields k)).
Proof.
  intros Hs Hk. unfold migrationSourceWs_Metadata, migrationSink_Metadata.
  rewrite (range_secrets_iteration _ _ Hs), (range_secrets_iteration _ _ Hk).
  by rewrite !dom_fmap_L.
Qed.

Lemma Metadata_names_to_secrets_witness :
  migrationSourceWs_Metadata source0 (map_to_list (conns (fields0 Pending)))
  = Secret <$> conns (fields0 Pending)
  ∧ migrationSourceWs_Metadata source0 (map_to_list (conns (fields0 Pending))) !! "fs"
    = Some "s2".
Proof.
  pose proof (Metadata_names_to_secrets source0 sink0
                (map_to_list (conns (fields0 Pending)))
                (map_to_list (conns (fields0 Pending)))) as H.
  destruct H as (H & _); [by unfold iteration_of..|].
  split; [exact H|]. rewrite H. reflexivity.
Defined.

Section ConnectMore.

Variable AcceptIncoming : migrationConn → Request → option error * migrationConn.

Lemma range_accept_distinct m entries secret r name conn :
  iteration_of m entries → distinct_secrets m →
  m !! name = Some conn → Secret conn = secret →
  range_accept AcceptIncoming secret r entries
  = Some (name, AcceptIncoming conn r).
Proof.
  intros Hit Hdist Hm Hsec.
  destruct (range_accept_registered AcceptIncoming m entries secret r Hit)
    as (name' & conn' & Hm' & Hsec' & ->).
  { by exists name, conn. }
  assert (name' = name) as -> by (eapply Hdist; [done..|congruence]).
  congruence.
Qed.

(** X6 — a secret handed out by [Metadata] opens its own connection: if
    no two connections share a secret and the request presents the
    non-empty secret that [Metadata] gives for a name, then [Connect], on
    the source and on the sink and for every order of both loops, hands
    the request to [AcceptIncoming] of the connection of that very name,
    returns nil exactly when that call does, and stores the connection as
    the call left it under that name. *)
Theorem Metadata_secret_opens_its_connection (s : migrationSourceWs)
    (k : migrationSink) (meta_s conn_s meta_k conn_k : list (string * migrationConn))
    (r : Request) (name : string) :
  iteration_of (conns (source_fields s)) meta_s →
  iteration_of (conns (source_fields s)) conn_s →
  iteration_of (conns (sink_fields k)) meta_k →
  iteration_of (conns (sink_fields k)) conn_k →
  FormValue r "secret" ≠ EmptyString →
  (distinct_secrets (conns (source_fields s)) →
   migrationSourceWs_Metadata s meta_s !! name = Some (FormValue r "secret") →
   ∃ conn, conns (source_fields s) !! name = Some conn
     ∧ migrationSourceWs_Connect AcceptIncoming s conn_s r
       = (accept_error
            "Failed accepting incoming migration source %q connection: %w"
            name (AcceptIncoming conn r).1,
          source_set_conns s (<[name := (AcceptIncoming conn r).2]>
                                (conns (source_fields s)))))
  ∧ (distinct_secrets (conns (sink_fields k)) →
     migrationSink_Metadata k meta_k !! name = Some (FormValue r "secret") →
     ∃ conn, conns (sink_fields k) !! name = Some conn
       ∧ migrationSink_Connect AcceptIncoming k conn_k r
         = (accept_error
              "Failed accepting incoming migration sink %q connection: %w"
              name (AcceptIncoming conn r).1,
            sink_set_conns k (<[name := (AcceptIncoming conn r).2]>
                                (conns (sink_fields k))))).
Proof.
  intros Hms Hcs Hmk Hck Hne. split.
  - intros Hdist Hmeta.
    unfold migrationSourceWs_Metadata in Hmeta.
    rewrite (range_secrets_iteration _ _ Hms), lookup_fmap in Hmeta.
    destruct (conns (source_fields s) !! name) as [conn|] eqn:Hconn; [|done].
    injection Hmeta as Hsec. exists conn. split; [done|].
    unfold migrationSourceWs_Connect. rewrite bool_decide_false by done.
    rewrite (range_accept_distinct _ _ _ r name conn Hcs Hdist Hconn Hsec).
    by destruct (AcceptIncoming conn r) as [[err|] conn'].
  - intros Hdist Hmeta.
    unfold migrationSink_Metadata in Hmeta.
    rewrite (range_secrets_iteration _ _ Hmk), lookup_fmap in Hmeta.
    destruct (conns (sink_fields k) !! name) as [conn|] eqn:Hconn; [|done].
    injection Hmeta as Hsec. exists conn. split; [done|].
    unfold migrationSink_Connect. rewrite bool_decide_false by done.
    rewrite (range_accept_distinct _ _ _ r name conn Hck Hdist Hconn Hsec).
    by destruct (AcceptIncoming conn r) as [[err|] conn'].
Qed.

(** X7 — when no two connections share a secret, the result of [Connect]
    does not depend on the order in which the loop visits the map: any
    two iteration orders give the same error and the same session, on the
    source and on the sink. *)
Theorem Connect_order_independent (s : migrationSourceWs) (k : migrationSink)
    (order1 order2 order3 order4 : list (string * migrationConn)) (r : Request) :
  iteration_of (conns (source_fields s)) order1 →
  iteration_of (conns (source_fields s)) order2 →
  iteration_of (conns (sink_fields k)) order3 →
  iteration_of (conns (sink_fields k)) order4 →
  (distinct_secrets (conns (source_fields s)) →
   migrationSourceWs_Connect AcceptIncoming s order1 r
   = migrationSourceWs_Connect AcceptIncoming s order2 r)
  ∧ (distinct_secrets (conns (sink_fields k)) →
     migrationSink_Connect AcceptIncoming k order3 r
     = migrationSink_Connect AcceptIncoming k order4 r).
Proof.
  intros H1 H2 H3 H4.
  assert (∀ m e1 e2 secret,
            iteration_of m e1 → iteration_of m e2 → distinct_secrets m →
            range_accept AcceptIncoming secret r e1
            = range_accept AcceptIncoming secret r e2) as Hsame.
  { intros m e1 e2 secret He1 He2 Hdist.
    destruct (range_accept AcceptIncoming secret r e1) as [[name res]|] eqn:E1.
    - apply range_accept_Some in E1 as (conn & Hin & Hsec & ->).
      apply (iteration_lookup m e1 name conn He1) in Hin.
      symmetry. by apply (range_accept_distinct m).
    - rewrite range_accept_None in E1. symmetry. apply range_accept_None.
      intros name conn Hin. apply (E1 name conn).
      apply (iteration_lookup m e1 name conn He1).
      by apply (iteration_lookup m e2 name conn He2). }
  split; intros Hdist.
  - unfold migrationSourceWs_Connect. by rewrite (Hsame _ order1 order2 _ H1 H2 Hdist).
  - unfold migrationSink_Connect. by rewrite (Hsame _ order3 order4 _ H3 H4 Hdist).
Qed.

(** X8 — [Connect] never adds or removes a connection and changes at most
    one: after the call, on the source and on the sink, the names are
    the same, and a connection that differs from what it was had exactly
    the presented secret.  With no secret, or with a secret that no
    connection has, nothing changes at all. *)
Theorem Connect_changes_one_entry (s : migrationSourceWs) (k : migrationSink)
    (entries_s entries_k : list (string * migrationConn)) (r : Request) :
  iteration_of (conns (source_fields s)) entries_s →
  iteration_of (conns (sink_fields k)) entries_k →
  let after_s := (migrationSourceWs_Connect AcceptIncoming s entries_s r).2 in
  let after_k := (migrationSink_Connect AcceptIncoming k entries_k r).2 in
  dom (conns (source_fields after_s)) = dom (conns (source_fields s))
  ∧ (∀ name, conns (source_fields after_s) !! name ≠ conns (source_fields s) !! name →
     ∃ conn, conns (source_fields s) !! name = Some conn
             ∧ Secret conn = FormValue r "secret"
             ∧ FormValue r "secret" ≠ EmptyString)
  ∧ dom (conns (sink_fields after_k)) = dom (conns (sink_fields k))
  ∧ (∀ name, conns (sink_fields after_k) !! name ≠ conns (sink_fields k) !! name →
     ∃ conn, conns (sink_fields k) !! name = Some conn
             ∧ Secret conn = FormValue r "secret"
             ∧ FormValue r "secret" ≠ EmptyString).
Proof.
  intros Hs Hk after_s after_k.
  assert (∀ m entries,
            iteration_of m entries →
            match range_accept AcceptIncoming (FormValue r "secret") r entries with
            | Some (name, (_, conn')) =>
                ∃ conn, m !! name = Some conn ∧ Secret conn = FormValue r "secret"
            | None => True
            end) as Hhit.
  { intros m entries Hit.
    destruct (range_accept _ _ _ entries) as [[name [e conn']]|] eqn:E; [|done].
    apply range_accept_Some in E as (conn & Hin & Hsec & _).
    exists conn. split; [|done]. by apply (iteration_lookup m entries name conn Hit). }
  assert (∀ (m : gmap string migrationConn) name conn conn',
            m !! name = Some conn → dom (<[name := conn']> m) = dom m) as Hdom.
  { intros m name conn conn' Hm. apply dom_insert_lookup_L. by eexists. }
  subst after_s after_k.
  unfold migrationSourceWs_Connect, migrationSink_Connect.
  case_bool_decide as Hempty; [done|].
  pose proof (Hhit _ _ Hs) as Hhs. pose proof (Hhit _ _ Hk) as Hhk.
  repeat split.
  - destruct (range_accept _ _ _ entries_s) as [[name [[e|] conn']]|]; simpl; try done;
      destruct Hhs as (conn & Hm & _); by eapply Hdom.
  - intros name Hdiff.
    destruct (range_accept _ _ _ entries_s) as [[name' [[e|] conn']]|];
      simpl in Hdiff; try done;
      destruct Hhs as (conn & Hm & Hsec);
      (destruct (decide (name' = name)) as [->|Hne];
       [by exists conn|by rewrite lookup_insert_ne in Hdiff]).
  - destruct (range_accept _ _ _ entries_k) as [[name [[e|] conn']]|]; simpl; try done;
      destruct Hhk as (conn & Hm & _); by eapply Hdom.
  - intros name Hdiff.
    destruct (range_accept _ _ _ entries_k) as [[name' [[e|] conn']]|];
      simpl in Hdiff; try done;
      destruct Hhk as (conn & Hm & Hsec);
      (destruct (decide (name' = name)) as [->|Hne];
       [by exists conn|by rewrite lookup_insert_ne in Hdiff]).
Qed.

End ConnectMore.

Lemma distinct_secrets_fields0 st : distinct_secrets (conns (fields0 st)).
Proof.
  intros n1 n2 c1 c2. unfold fields0; simpl.
  rewrite !lookup_insert. repeat case_decide; subst; try done;
    rewrite ?lookup_empty; intros [= <-] [= <-]; done.
Qed.

Lemma Metadata_secret_opens_its_connection_witness :
  ∃ conn, conns (fields0 Pending) !! "fs" = Some conn
    ∧ migrationSourceWs_Connect AcceptIncoming_model source0
        (map_to_list (conns (fields0 Pending))) (request0 "s2" true)
      = (accept_error
           "Failed accepting incoming migration source %q connection: %w"
           "fs" (AcceptIncoming_model conn (request0 "s2" true)).1,
         source_set_conns source0
           (<["fs" := (AcceptIncoming_model conn (request0 "s2" true)).2]>
              (conns (fields0 Pending)))).
Proof.
  refine (proj1 (Metadata_secret_opens_its_connection AcceptIncoming_model
                   source0 sink0
                   (map_to_list (conns (fields0 Pending)))
                   (map_to_list (conns (fields0 Pending)))
                   (map_to_list (conns (fields0 Pending)))
                   (map_to_list (conns (fields0 Pending)))
                   (request0 "s2" true) "fs" _ _ _ _ _) _ _);
    try (by unfold iteration_of).
  apply distinct_secrets_fields0.
Defined.

Lemma Connect_order_independent_witness :
  migrationSourceWs_Connect AcceptIncoming_model source0
    (map_to_list (conns (fields0 Pending))) (request0 "s2" true)
  = migrationSourceWs_Connect AcceptIncoming_model source0
      (reverse (map_to_list (conns (fields0 Pending)))) (request0 "s2" true).
Proof.
  refine (proj1 (Connect_order_independent AcceptIncoming_model source0 sink0
                   (map_to_list (conns (fields0 Pending)))
                   (reverse (map_to_list (conns (fields0 Pending))))
                   (map_to_list (conns (fields0 Pending)))
                   (map_to_list (conns (fields0 Pending)))
                   (request0 "s2" true) _ _ _ _) _);
    try (by unfold iteration_of).
  - unfold iteration_of. apply reverse_Permutation.
  - apply distinct_secrets_fields0.
Defined.

(** When two connections share a secret, the order of the loop decides
    which of them gets the request. *)
Example Connect_shared_secret_depends_on_order :
  let shared : gmap string migrationConn :=
    <[ "control" := conn0 "s1" Pending ]> (<[ "fs" := conn0 "s1" Pending ]> ∅) in
  let s := source_set_conns source0 shared in
  conn_states (source_fields
     (migrationSourceWs_Connect AcceptIncoming_model s
        (map_to_list shared) (request0 "s1" true)).2) !! "fs" = Some Pending
  ∧ conn_states (source_fields
       (migrationSourceWs_Connect AcceptIncoming_model s
          (reverse (map_to_list shared)) (request0 "s1" true)).2) !! "fs"
    = Some Established.
Proof. split; vm_compute; reflexivity. Qed.

Lemma Connect_changes_one_entry_witness :
  dom (conns (source_fields
         (migrationSourceWs_Connect AcceptIncoming_model source0
            (map_to_list (conns (fields0 Pending))) (request0 "s2" true)).2))
  = dom (conns (fields0 Pending)).
Proof.
  refine (proj1 (Connect_changes_one_entry AcceptIncoming_model source0 sink0
                   (map_to_list (conns (fields0 Pending)))
                   (map_to_list (conns (fields0 Pending)))
                   (request0 "s2" true) _ _));
    by unfold iteration_of.
Defined.

(** * More facts about the control lock *)

Lemma sections_from_others cur k :
  sections_from cur (replicate k Other) = [].
Proof. induction k as [|k IH]; simpl; [done|exact IH]. Qed.

Lemma disconnect_code_sections encode ws n k :
  sections (disconnect_code encode ws n k) = [frame_bytes encode CloseFrame ws n].
Proof.
  unfold sections, disconnect_code, frame_bytes. destruct ws; simpl.
  - rewrite sections_from_writes. simpl. by rewrite sections_from_others.
  - by rewrite sections_from_others.
Qed.

Lemma code_of_sections encode call :
  sections (code_of encode call) = frames_of encode call.
Proof.
  destruct call as [m ws n|err ws n ws' n' k|ws n k]; simpl.
  - by rewrite send_code_sections.
  - unfold sections, sendControl_code, frame_bytes.
    assert (sections_from []
              match err with
              | Some _ => disconnect_code encode ws' n' k
              | None => []
              end
            = match err with
              | Some _ => [frame_bytes encode CloseFrame ws' n']
              | None => []
              end) as Htail.
    { destruct err; [apply disconnect_code_sections|done]. }
    destruct ws; simpl.
    + rewrite sections_from_writes. simpl. by rewrite Htail.
    + by rewrite Htail.
  - apply disconnect_code_sections.
Qed.

Lemma code_of_well_locked encode call :
  well_locked false (code_of encode call) = true.
Proof.
  destruct call; simpl;
    [apply send_code_well_locked|apply sendControl_code_well_locked
    |apply disconnect_code_well_locked].
Qed.

Lemma frames_of_calls encode (calls : list control_call) :
  concat (sections <$> (code_of encode <$> calls))
  = concat (frames_of encode <$> calls).
Proof.
  induction calls as [|call calls IH]; [done|].
  rewrite !fmap_cons, !concat_cons, code_of_sections, IH. reflexivity.
Qed.

(** X11 — whatever mix of [send], [sendControl] and [disconnect] the
    goroutines of a session run, and however they are scheduled, the
    control stream carries whole frames only: the wire is byte sequences
    that each are the complete output of one call's critical section (a
    message, a final status or a close message, cut short only where its
    own write failed), one after the other, followed by what the
    goroutine holding the lock has written so far; [sendControl] with an
    error contributes its status and its close message as two such
    sequences, so another call's frame may come between them but never
    inside one.  When all have returned the wire is all these sequences
    in some order. *)
Theorem control_calls_write_whole_frames (encode : Frame → list byte)
    (calls : list control_call) (schedule : list nat) (st : system) :
  run_schedule schedule (start (code_of encode <$> calls)) = Some st →
  ∃ cur,
    wire st = concat (completed st) ++ cur
    ∧ (if locked st
       then ∃ more,
              completed st ++ [cur ++ more] ⊆+ concat (frames_of encode <$> calls)
       else cur = [] ∧ completed st ⊆+ concat (frames_of encode <$> calls))
    ∧ (all_returned st →
       cur = [] ∧ completed st ≡ₚ concat (frames_of encode <$> calls)).
Proof.
  intros Hrun.
  assert (Forall (λ c, well_locked false c = true) (code_of encode <$> calls))
    as Hcodes.
  { apply Forall_fmap, Forall_forall. intros call _. apply code_of_well_locked. }
  pose proof (invariant_run _ schedule _ st (invariant_start _ Hcodes) Hrun) as Hinv.
  destruct (invariant_wire _ _ Hinv) as (cur & Hwire & Hmid & Hend).
  rewrite frames_of_calls in Hmid, Hend. by exists cur.
Qed.

Lemma control_calls_write_whole_frames_witness :
  ∃ st,
    run_schedule [0; 0; 0; 0; 0; 1; 1; 1; 1; 1; 1; 1; 0; 0; 0; 0; 0; 0; 0]%nat
      (start (code_of encode0
              <$> [call_sendControl (Some (errors_New "failed")) true 1 true 1 2;
                   call_send "ab" true 3]))
    = Some st
    ∧ wire st = [Byte.x03; Byte.x01; Byte.x61; Byte.x62; Byte.x04]
    ∧ ∃ cur,
        wire st = concat (completed st) ++ cur
        ∧ (all_returned st →
           cur = []
           ∧ completed st
             ≡ₚ concat (frames_of encode0
                        <$> [call_sendControl (Some (errors_New "failed"))
                               true 1 true 1 2;
                             call_send "ab" true 3])).
Proof.
  eexists. split; [vm_compute; reflexivity|]. split; [reflexivity|].
  destruct (control_calls_write_whole_frames encode0
              [call_sendControl (Some (errors_New "failed")) true 1 true 1 2;
               call_send "ab" true 3]
              [0; 0; 0; 0; 0; 1; 1; 1; 1; 1; 1; 1; 0; 0; 0; 0; 0; 0; 0]%nat _
              ltac:(vm_compute; reflexivity)) as (cur & Hwire & _ & Hend).
  exists cur. split; [exact Hwire|exact Hend].
Defined.

(** * More facts about [Run]: what is done to the instance *)

Lemma Forall_call_false (P : ∀ X : Type, call X → bool) (f : event → bool) l :
  (∀ e, on_call P e = true → f e = false) →
  Forall (λ e, on_call P e = true) l → Forall (λ e, f e = false) l.
Proof. intros Himp H. eapply Forall_impl; [exact H|]. exact Himp. Qed.

Lemma setup_no_start e : on_call setup_call e = true → start_request e = false.
Proof. by destruct e as [X []]. Qed.

Lemma publish_no_start e : on_call publish_call e = true → start_request e = false.
Proof. by destruct e as [X []]. Qed.

Lemma setup_no_change e :
  on_call setup_call e = true → on_call instance_change e = false.
Proof. by destruct e as [X []]. Qed.

Lemma publish_no_change e :
  on_call publish_call e = true → on_call instance_change e = false.
Proof. by destruct e as [X []]. Qed.

Lemma setup_no_image e :
  on_call setup_call e = true → on_call image_call e = false.
Proof. by destruct e as [X []]. Qed.

Lemma first_fetch_app_none l1 l2 :
  Forall (λ e, fetched e = None) l1 → first_fetch (l1 ++ l2) = first_fetch l2.
Proof. induction 1 as [|e l1 He _ IH]; simpl; [done|]. by rewrite He. Qed.

Lemma Forall_setup_not_fetched l :
  Forall (λ e, on_call setup_call e = true) l → Forall (λ e, fetched e = None) l.
Proof. intros H. eapply Forall_impl; [exact H|]. apply setup_not_fetched. Qed.

Lemma Forall_publish_not_fetched l :
  Forall (λ e, on_call publish_call e = true) l → Forall (λ e, fetched e = None) l.
Proof. intros H. eapply Forall_impl; [exact H|]. apply publish_not_fetched. Qed.

Lemma first_fetch_none l :
  Forall (λ e, fetched e = None) l → first_fetch l = None.
Proof. induction 1 as [|e l He _ IH]; simpl; [done|]. by rewrite He. Qed.

Lemma restart_events_start s cName rs :
  restart_events s cName rs →
  Exists (λ e, start_request e = true) rs
  ∧ Forall (λ e, on_call image_call e = false) rs
  ∧ Forall (λ e, restored e = false) rs.
Proof.
  intros [err|op answer]; (split; [by apply Exists_cons_hd|]);
    split; by repeat constructor.
Qed.

(** X12 — [Run] starts the instance only if it has stopped it: a request
    to start the instance appears among the calls of a run only when,
    earlier in that run, a stop request was accepted and the wait for it
    succeeded. *)
Theorem Run_starts_only_what_it_stopped (x : externals) (c : cmdPublish)
    (args : list string) (E : env) (r : result) (tr : list event) :
  run (Run x c args) E [] = (r, tr) →
  Exists (λ e, start_request e = true) tr →
  stopped tr.
Proof.
  intros Hrun Hex.
  assert (∀ l, Forall (λ e, on_call setup_call e = true) l →
               ¬ Exists (λ e, start_request e = true) l) as Hsetup_no.
  { intros l Hl H. apply Exists_exists in H as (e & Hin & He).
    rewrite Forall_forall in Hl. by rewrite (setup_no_start e (Hl e Hin)) in He. }
  assert (∀ l, Forall (λ e, on_call publish_call e = true) l →
               ¬ Exists (λ e, start_request e = true) l) as Hpub_no.
  { intros l Hl H. apply Exists_exists in H as (e & Hin & He).
    rewrite Forall_forall in Hl. by rewrite (publish_no_start e (Hl e Hin)) in He. }
  destruct (Run_run x c args E)
    as (r' & setup & Hsetup & [Hr|(s & cName & ext & Hr & Hpath)]);
    rewrite Hr in Hrun; injection Hrun as -> <-.
  { by apply Hsetup_no in Hex. }
  apply Exists_app in Hex as [Hex|Hex]; [by apply Hsetup_no in Hex|].
  destruct Hpath as [r ext Hsnap Hext|err|ct etag r ext Hnot Hext|ct etag Hrunning Hf
                    |ct etag err _ Hf _|ct etag op err _ Hf _
                    |ct etag clear r ext Hrunning Hf Hclear Hpath].
  - by apply Hpub_no in Hex.
  - by repeat (apply Exists_cons in Hex as [Hex|Hex]; [done|]); apply Exists_nil in Hex.
  - apply Exists_cons in Hex as [Hex|Hex]; [done|]. by apply Hpub_no in Hex.
  - by repeat (apply Exists_cons in Hex as [Hex|Hex]; [done|]); apply Exists_nil in Hex.
  - by repeat (apply Exists_cons in Hex as [Hex|Hex]; [done|]); apply Exists_nil in Hex.
  - by repeat (apply Exists_cons in Hex as [Hex|Hex]; [done|]); apply Exists_nil in Hex.
  - destruct Hpath as [err|op err|op r front rs Hrs Hfront].
    + exfalso. destruct Hclear;
        by repeat (apply Exists_cons in Hex as [Hex|Hex]; [done|]);
           apply Exists_nil in Hex.
    + exfalso. destruct Hclear;
        by repeat (apply Exists_cons in Hex as [Hex|Hex]; [done|]);
           apply Exists_nil in Hex.
    + exists (setup ++ Event (GetInstance s cName) (inr (ct, etag)) :: clear),
        (Event (UpdateInstanceState s cName req_stop EmptyString) (inr op)),
        (Event (Wait op) None), (front ++ rs), op.
      split; [|done]. rewrite <- app_assoc. reflexivity.
Qed.

Lemma Run_starts_only_what_it_stopped_witness :
  stopped (run (Run externals0 (cmd0 true) ["c1"]) (world0 100) []).2.
Proof.
  apply (Run_starts_only_what_it_stopped externals0 (cmd0 true) ["c1"] (world0 100)
           (run (Run externals0 (cmd0 true) ["c1"]) (world0 100) []).1).
  - symmetry. apply surjective_pairing.
  - vm_compute. do 21 apply Exists_cons_tl. apply Exists_cons_hd. reflexivity.
Defined.

(** Refute [Exists P l] on a list given by its elements. *)
Ltac no_such H :=
  repeat (apply Exists_cons in H as [H|H]; [done|]);
  apply Exists_nil in H; done.

(** X13 — an instance that is not running is published as it is: if the
    instance [Run] reads is stopped (or has status code 0), [Run] never
    updates it, never stops it and never starts it. *)
Theorem Run_leaves_stopped_instance_alone (x : externals) (c : cmdPublish)
    (args : list string) (E : env) (r : result) (tr : list event)
    (ct : Instance) :
  run (Run x c args) E [] = (r, tr) →
  first_fetch tr = Some ct →
  wasRunning x ct = false →
  Forall (λ e, on_call instance_change e = false) tr.
Proof.
  intros Hrun Hfetch Hnot.
  destruct (Run_run x c args E)
    as (r' & setup & Hsetup & [Hr|(s & cName & ext & Hr & Hpath)]);
    rewrite Hr in Hrun; injection Hrun as -> <-.
  { by rewrite first_fetch_none in Hfetch by (by apply Forall_setup_not_fetched). }
  rewrite first_fetch_app_none in Hfetch by (by apply Forall_setup_not_fetched).
  destruct Hpath as [r ext Hsnap Hext|err|ct' etag r ext Hnot' Hext|ct' etag Hrunning Hf
                    |ct' etag err Hrunning Hf _|ct' etag op err Hrunning Hf _
                    |ct' etag clear r ext Hrunning Hf Hclear Hpath];
    simpl in Hfetch; try congruence.
  - by rewrite first_fetch_none in Hfetch by (by apply Forall_publish_not_fetched).
  - apply Forall_app. split.
    + eapply Forall_call_false; [apply setup_no_change|done].
    + constructor; [done|]. eapply Forall_call_false; [apply publish_no_change|done].
Qed.

Lemma Run_leaves_stopped_instance_alone_witness :
  let E : env :=
    λ X n c,
      match c in call X return X with
      | GetInstance _ _ =>
          inr ({| StatusCode := 102; Ephemeral := false; Profiles := [] |}, "etag")
      | c => world0 100 _ n c
      end in
  Forall (λ e, on_call instance_change e = false)
    (run (Run externals0 (cmd0 true) ["c1"]) E []).2.
Proof.
  intros E.
  apply (Run_leaves_stopped_instance_alone externals0 (cmd0 true) ["c1"] E
           (run (Run externals0 (cmd0 true) ["c1"]) E []).1 _
           {| StatusCode := 102; Ephemeral := false; Profiles := [] |}).
  - symmetry. apply surjective_pairing.
  - vm_compute. reflexivity.
  - reflexivity.
Defined.

(** X14 — when stopping fails, nothing is put back: if [Run] asked for
    the stop and the instance was not stopped (the request was refused or
    the wait for it failed), [Run] returns an error, creates, copies or
    deletes no image and changes no alias, makes no request to start the
    instance, and never sets the ephemeral flag again; for an ephemeral
    instance the flag had been cleared before the stop was asked for, so
    it is left cleared. *)
Theorem Run_failed_stop_restores_nothing (x : externals) (c : cmdPublish)
    (args : list string) (E : env) (r : result) (tr : list event) :
  run (Run x c args) E [] = (r, tr) →
  Exists (λ e, stop_request e = true) tr →
  ¬ stopped tr →
  (∃ err, r = Done (Some err))
  ∧ Forall (λ e, on_call image_call e = false) tr
  ∧ Forall (λ e, start_request e = false) tr
  ∧ Forall (λ e, restored e = false) tr
  ∧ (∀ ct, first_fetch tr = Some ct → Ephemeral ct = true →
     Exists (λ e, cleared e = true) tr).
Proof.
  intros Hrun Hex Hnot.
  assert (∀ e, on_call setup_call e = true → stop_request e = false) as Hss.
  { by intros [X []]. }
  assert (∀ e, on_call publish_call e = true → stop_request e = false) as Hps.
  { by intros [X []]. }
  assert (∀ e, on_call setup_call e = true → restored e = false) as Hsr.
  { by intros [X []]. }
  assert (∀ (f : event → bool) l, Forall (λ e, f e = false) l →
               ¬ Exists (λ e, f e = true) l) as Hno.
  { intros f l Hl H. apply Exists_exists in H as (e & Hin & He).
    rewrite Forall_forall in Hl. by rewrite (Hl e Hin) in He. }
  destruct (Run_run x c args E)
    as (r' & setup & Hsetup & [Hr|(s & cName & ext & Hr & Hpath)]);
    rewrite Hr in Hrun; injection Hrun as -> <-.
  { exfalso. eapply Hno; [|exact Hex]. eapply Forall_call_false; [exact Hss|done]. }
  apply Exists_app in Hex as [Hex|Hex].
  { exfalso. eapply Hno; [|exact Hex]. eapply Forall_call_false; [exact Hss|done]. }
  assert (Forall (λ e, on_call image_call e = false) setup) as Hsi.
  { eapply Forall_call_false; [apply setup_no_image|done]. }
  assert (Forall (λ e, start_request e = false) setup) as Hst.
  { eapply Forall_call_false; [apply setup_no_start|done]. }
  assert (Forall (λ e, restored e = false) setup) as Hre.
  { eapply Forall_call_false; [exact Hsr|done]. }
  destruct Hpath as [r ext Hsnap Hext|err|ct etag r ext Hnot' Hext|ct etag Hrunning Hf
                    |ct etag err _ Hf _|ct etag op err _ Hf _
                    |ct etag clear r ext Hrunning Hf Hclear Hpath].
  - exfalso. eapply Hno; [|exact Hex]. eapply Forall_call_false; [exact Hps|done].
  - exfalso. no_such Hex.
  - exfalso. apply Exists_cons in Hex as [Hex|Hex]; [done|].
    eapply Hno; [|exact Hex]. eapply Forall_call_false; [exact Hps|done].
  - exfalso. no_such Hex.
  - exfalso. no_such Hex.
  - exfalso. no_such Hex.
  - destruct Hpath as [err|op err|op r front rs Hrs Hfront].
    + split; [by eexists|].
      rewrite !Forall_app.
      repeat split; try done;
        try (destruct Hclear; by repeat constructor).
      intros ct' Hfetch Heph.
      rewrite first_fetch_app_none in Hfetch by (by apply Forall_setup_not_fetched).
      simpl in Hfetch. injection Hfetch as <-.
      destruct Hclear as [Hno'|op1 _]; [congruence|].
      apply Exists_app. right. apply Exists_cons_tl, Exists_cons_hd. reflexivity.
    + split; [by eexists|].
      rewrite !Forall_app.
      repeat split; try done;
        try (destruct Hclear; by repeat constructor).
      intros ct' Hfetch Heph.
      rewrite first_fetch_app_none in Hfetch by (by apply Forall_setup_not_fetched).
      simpl in Hfetch. injection Hfetch as <-.
      destruct Hclear as [Hno'|op1 _]; [congruence|].
      apply Exists_app. right. apply Exists_cons_tl, Exists_cons_hd. reflexivity.
    + exfalso. apply Hnot.
      exists (setup ++ Event (GetInstance s cName) (inr (ct, etag)) :: clear),
        (Event (UpdateInstanceState s cName req_stop EmptyString) (inr op)),
        (Event (Wait op) None), (front ++ rs), op.
      split; [|done]. rewrite <- app_assoc. reflexivity.
Qed.

Lemma Run_failed_stop_restores_nothing_witness :
  let tr := (run (Run externals0 (cmd0 true) ["c1"]) (world_wait_fails 8) []).2 in
  (∃ err, (run (Run externals0 (cmd0 true) ["c1"]) (world_wait_fails 8) []).1
          = Done (Some err))
  ∧ Forall (λ e, on_call image_call e = false) tr
  ∧ Forall (λ e, start_request e = false) tr
  ∧ Forall (λ e, restored e = false) tr
  ∧ (∀ ct, first_fetch tr = Some ct → Ephemeral ct = true →
     Exists (λ e, cleared e = true) tr).
Proof.
  apply (Run_failed_stop_restores_nothing externals0 (cmd0 true) ["c1"]
           (world_wait_fails 8)).
  - symmetry. apply surjective_pairing.
  - vm_compute. do 7 apply Exists_cons_tl. apply Exists_cons_hd. reflexivity.
  - intros H%stopped_stoppedb. vm_compute in H. discriminate H.
Defined.

Lemma calls_only_impl {A : Type} (P P' : ∀ X : Type, call X → bool) (p : prog A) :
  (∀ X (c : call X), P X c = true → P' X c = true) →
  calls_only P p → calls_only P' p.
Proof.
  intros Himp Hp. induction Hp as [p []|a|X c k Hc Hk IH].
  - apply reaches_Ret.
  - apply reaches_Do; [by apply Himp|exact IH].
Qed.

Lemma Run_instance_names x c s cName (rest : prog result) :
  calls_only (not_snapshot_call x) rest →
  calls_only (not_snapshot_call x) (Run_instance x c s cName rest).
Proof.
  intros Hrest. unfold Run_instance.
  destruct (IsSnapshot x cName) eqn:Hsnap; cbn [negb]; [exact Hrest|].
  unfold clear_ephemeral, stop_instance, restore_ephemeral, restart.
  repeat first
    [ exact Hrest
    | apply reaches_Ret
    | apply reaches_Do; [simpl; rewrite ?Hsnap; reflexivity|intros ?]
    | apply calls_only_defer
    | match goal with
      | |- reaches _ _ (match ?t with _ => _ end) => destruct t
      | |- calls_only _ (match ?t with _ => _ end) => destruct t
      end ].
Qed.

Lemma Run_names x c args : calls_only (not_snapshot_call x) (Run x c args).
Proof.
  unfold Run, Run_resolved.
  repeat first
    [ apply Run_instance_names;
      apply (calls_only_impl publish_call); [by intros X []|apply Run_publish_calls]
    | apply reaches_Ret
    | apply reaches_Do; [reflexivity|intros ?]
    | match goal with
      | |- reaches _ _ (match ?t with _ => _ end) => destruct t
      | |- calls_only _ (match ?t with _ => _ end) => destruct t
      end ].
Qed.

(** X15 — [Run] touches no instance under a snapshot name: in every world
    and for all arguments, every read, update, stop and start it asks for
    names something that is not a snapshot; so when a snapshot is
    published the instance is neither read nor stopped nor started. *)
Theorem Run_never_touches_a_snapshot_name (x : externals) (c : cmdPublish)
    (args : list string) (E : env) :
  Forall (λ e, on_call (not_snapshot_call x) e = true)
    (run (Run x c args) E []).2
  ∧ ((∀ name, IsSnapshot x name = true) →
     Forall (λ e, on_call instance_call e = false) (run (Run x c args) E []).2).
Proof.
  destruct (calls_only_run _ _ (Run_names x c args) E []) as (ext & Hext & ->).
  simpl. split; [done|]. intros Hsnap.
  eapply Forall_impl; [exact Hext|].
  intros [X [] a]; simpl; try done; by rewrite Hsnap.
Qed.

Lemma run_extends {A : Type} (p : prog A) E tr :
  ∃ ext, (run p E tr).2 = tr ++ ext.
Proof.
  revert tr. induction p as [a|X c k IH]; intros tr; simpl.
  - exists []. by rewrite app_nil_r.
  - destruct (IH (E X (length tr) c) (tr ++ [Event c (E X (length tr) c)]))
      as [ext ->].
    eexists. by rewrite <- app_assoc.
Qed.

Lemma Run_resolved_names x c args fp cR cN iR iN E tr0 r tr :
  run (Run_resolved x c args fp cR cN iR iN) E tr0 = (r, tr) →
  cN = EmptyString ∨ iN ≠ EmptyString →
  r = Done (Some (errors_New
                    (if bool_decide (cN = EmptyString)
                     then "Instance name is mandatory"
                     else msg_no_image_name)))
  ∧ tr = tr0.
Proof.
  unfold Run_resolved. case_bool_decide as HcN; [by intros [= <- <-]|].
  case_bool_decide as HiN; [by intros [= <- <-]|].
  intros _ [?|?]; done.
Qed.

(** X16 — the names are checked before any server is contacted: when the
    instance name parsed from the first argument is empty, [Run] returns
    "Instance name is mandatory"; when it is not but the second remote
    comes with a name, [Run] returns the "no image name" error; in both
    cases the only calls made are the check of the arguments and the two
    parses. *)
Theorem Run_checks_names_first (x : externals) (c : cmdPublish)
    (args : list string) (E : env) (r : result) (tr : list event)
    (e1 e2 : event) (cRemote cName iRemote iName : string) :
  run (Run x c args) E [] = (r, tr) →
  tr !! 1%nat = Some e1 → parsed e1 = Some (cRemote, cName) →
  tr !! 2%nat = Some e2 → parsed e2 = Some (iRemote, iName) →
  cName = EmptyString ∨ iName ≠ EmptyString →
  r = Done (Some (errors_New
                    (if bool_decide (cName = EmptyString)
                     then "Instance name is mandatory"
                     else msg_no_image_name)))
  ∧ length tr = 3%nat
  ∧ Forall (λ e, on_call local_call e = true) tr.
Proof.
  unfold Run. cbn [run].
  destruct (E _ _ (checkArgs args 1 (-1))) as [[|] err0]; cbn [run].
  { intros [= <- <-]. done. }
  destruct args as [|arg0 rest]; cbn [run].
  { intros [= <- <-]. done. }
  destruct (E _ _ (ParseRemote arg0)) as [err|[cR cN]]; cbn [run].
  { intros [= <- <-]. simpl. intros [= <-]. done. }
  assert (∀ (fp : nat) (raw : string) (r : result) (tr : list event),
            run (let? (iRemote, iName) := ParseRemote raw in
                 Run_resolved x c (arg0 :: rest) fp cR cN iRemote iName)%prog
              E ([Event (checkArgs (arg0 :: rest) 1 (-1)) (false, err0)]
                 ++ [Event (ParseRemote arg0) (inr (cR, cN))]) = (r, tr) →
            tr !! 1%nat = Some e1 → parsed e1 = Some (cRemote, cName) →
            tr !! 2%nat = Some e2 → parsed e2 = Some (iRemote, iName) →
            cName = EmptyString ∨ iName ≠ EmptyString →
            r = Done (Some (errors_New
                              (if bool_decide (cName = EmptyString)
                               then "Instance name is mandatory"
                               else msg_no_image_name)))
            ∧ length tr = 3%nat
            ∧ Forall (λ e, on_call local_call e = true) tr) as Hboth.
  { clear r tr. intros fp raw r tr. cbn [run].
    destruct (E _ _ (ParseRemote raw)) as [err|[iR iN]]; cbn [run].
    { intros [= <- <-]. simpl. intros [= <-] [= <- <-] [= <-]. done. }
    intros Hrun.
    match type of Hrun with
    | run ?p E ?t = _ => destruct (run_extends p E t) as [ext Hext]
    end.
    unfold result in *. rewrite Hrun in Hext. simpl in Hext. subst tr. simpl.
    intros [= <-] [= <- <-] [= <-] [= <- <-] Hnames.
    destruct (Run_resolved_names _ _ _ _ _ _ _ _ _ _ _ _ Hrun Hnames) as [-> Heq].
    apply (f_equal length) in Heq. simpl in Heq.
    destruct ext as [|? ?]; [|simpl in Heq; lia].
    split; [done|]. split; [done|]. by repeat constructor. }
  destruct (_ && _); apply Hboth.
Qed.

Lemma Run_checks_names_first_witness :
  (run (Run externals0 (cmd0 true) ["c1"; "images"; "os=linux"]) (world0 100) []).1
  = Done (Some (errors_New msg_no_image_name))
  ∧ length (run (Run externals0 (cmd0 true) ["c1"; "images"; "os=linux"])
              (world0 100) []).2 = 3%nat
  ∧ Forall (λ e, on_call local_call e = true)
      (run (Run externals0 (cmd0 true) ["c1"; "images"; "os=linux"])
         (world0 100) []).2.
Proof.
  apply (Run_checks_names_first externals0 (cmd0 true)
           ["c1"; "images"; "os=linux"] (world0 100) _ _
           (Event (ParseRemote "c1") (inr ("local", "c1")))
           (Event (ParseRemote "images") (inr ("local", "images")))
           "local" "c1" "local" "images").
  - symmetry. apply surjective_pairing.
  - vm_compute. reflexivity.
  - reflexivity.
  - vm_compute. reflexivity.
  - reflexivity.
  - right. discriminate.
Defined.

(** * More facts about [Run]: the publication proper *)

(** ** Rules for [always] *)

Lemma always_Ret {A : Type} (a : A) (Q : A → list event → Prop) :
  Q a [] → always (Ret a) Q.
Proof.
  intros HQ E tr. exists []. simpl. by rewrite app_nil_r.
Qed.

Lemma always_Do {A X : Type} (c : call X) (k : X → prog A)
    (Q : A → list event → Prop) :
  (∀ x, always (k x) (λ a ext, Q a (Event c x :: ext))) → always (Do c k) Q.
Proof.
  intros H E tr. simpl run.
  destruct (H (E X (length tr) c) E (tr ++ [Event c (E X (length tr) c)]))
    as (ext & Hrun & HQ).
  exists (Event c (E X (length tr) c) :: ext). split; [|exact HQ].
  rewrite <- app_assoc in Hrun. exact Hrun.
Qed.

Lemma always_impl {A : Type} (p : prog A) (Q Q' : A → list event → Prop) :
  always p Q → (∀ a ext, Q a ext → Q' a ext) → always p Q'.
Proof.
  intros H HQ E tr. destruct (H E tr) as (ext & Hrun & Hext).
  exists ext. split; [done|]. by apply HQ.
Qed.

Lemma always_bind {A B : Type} (p : prog A) (f : A → prog B)
    (Q : B → list event → Prop) :
  always p (λ a e1, always (f a) (λ b e2, Q b (e1 ++ e2))) →
  always (bind p f) Q.
Proof.
  intros H E tr. rewrite run_bind.
  destruct (H E tr) as (e1 & Hr1 & H1).
  assert ((run p E tr).2 = tr ++ e1) as Hsnd by (by rewrite Hr1).
  rewrite Hsnd. destruct (H1 E (tr ++ e1)) as (e2 & Hr2 & H2).
  exists (e1 ++ e2). rewrite app_assoc. by split.
Qed.

Lemma always_defer {A : Type} (d : prog unit) (rest : prog A)
    (Q : A → list event → Prop) :
  always rest (λ a e1, always d (λ _ e2, Q a (e1 ++ e2))) →
  always (defer d rest) Q.
Proof.
  intros H. unfold defer. apply always_bind.
  eapply always_impl; [exact H|]. intros a e1 Hd. simpl in Hd.
  apply always_bind. eapply always_impl; [exact Hd|].
  intros [] e2 HQ. apply always_Ret. by rewrite app_nil_r.
Qed.

(** What [always] says of a run from the start. *)
Lemma always_run {A : Type} (p : prog A) (Q : A → list event → Prop) E r tr :
  always p Q → run p E [] = (r, tr) → Q r tr.
Proof.
  intros H Hrun. destruct (H E []) as (ext & Hr & HQ).
  rewrite Hrun in Hr, HQ. simpl in Hr, HQ. by injection Hr as ->.
Qed.

Lemma calls_only_always {A : Type} P (p : prog A) :
  calls_only P p → always p (λ _ ext, Forall (is_call P) ext).
Proof.
  intros Hp E tr. destruct (calls_only_run P p Hp E tr) as (ext & Hext & Hrun).
  exists ext. split; [|exact Hext].
  destruct (run p E tr) as [a tr'] eqn:Heq. simpl in *. by subst tr'.
Qed.

(** ** Frames *)

Lemma framed_cons {A : Type} P (Early : A → Prop) Q r e ext :
  is_call P e → framed P Early Q r ext → framed P Early Q r (e :: ext).
Proof.
  intros He [[Hr Hext]|(pre & mid & post & -> & Hpre & Hpost & HQ)].
  - left. split; [done|]. by constructor.
  - right. exists (e :: pre), mid, post. split; [done|].
    split; [by constructor|]. by split.
Qed.

Lemma framed_app {A : Type} P (Early : A → Prop) Q r ext post :
  Forall (is_call P) post → framed P Early Q r ext →
  framed P Early Q r (ext ++ post).
Proof.
  intros Hp [[Hr Hext]|(pre & mid & post0 & -> & Hpre & Hpost & HQ)].
  - left. split; [done|]. by apply Forall_app.
  - right. exists pre, mid, (post0 ++ post). split; [by rewrite <- !app_assoc|].
    split; [done|]. split; [by apply Forall_app|done].
Qed.

(** A program that frames programs satisfying [Q] produces framed
    traces. *)
Lemma frames_always {A : Type} P (Early : A → Prop)
    (Q : A → list event → Prop) (p : prog A) :
  frames P Early (λ q, always q Q) p → always p (framed P Early Q).
Proof.
  induction 1 as [q Hq|a Ha|X c k Hc Hk IH|d p Hd Hp IH].
  - eapply always_impl; [exact Hq|]. intros r mid HQ.
    right. exists [], mid, []. rewrite app_nil_r. by repeat split.
  - apply always_Ret. left. by split.
  - apply always_Do. intros x. eapply always_impl; [exact (IH x)|].
    intros r ext Hf. by apply framed_cons.
  - apply always_defer. eapply always_impl; [exact IH|].
    intros r e1 Hf. simpl.
    eapply always_impl; [exact (calls_only_always P d Hd)|].
    intros u e2 He2. by apply framed_app.
Qed.

Lemma restart_before_publish s cName req :
  calls_only before_publish (restart s cName req).
Proof.
  unfold restart. repeat calls_step.
Qed.

(** From the two parsed names on, [Run] frames the publication. *)
Lemma Run_resolved_frames x c args fp cRemote cName iRemote iName
    (Q : result → list event → Prop) :
  (∀ d s, always (Run_publish x c args fp cName cRemote iRemote d s) Q) →
  frames before_publish failed (λ q, always q Q)
    (Run_resolved x c args fp cRemote cName iRemote iName).
Proof.
  intros Hpub.
  unfold Run_resolved, Run_instance, clear_ephemeral, stop_instance,
    restore_ephemeral.
  repeat first
    [ apply frames_goal; apply Hpub
    | apply frames_Ret; right; eexists; reflexivity
    | apply frames_Do; [reflexivity|intros ?]
    | apply frames_defer; [apply restart_before_publish|]
    | match goal with
      | |- frames _ _ _ (match ?t with _ => _ end) => destruct t
      end ].
Qed.

(** Every run of [Run] has one of the three shapes. *)
Lemma Run_always x c args
    (Q : string → string → string → result → list event → Prop) :
  (∀ cName cRemote iRemote d s,
     always (Run_publish x c args (firstprop args) cName cRemote iRemote d s)
       (Q cName cRemote iRemote)) →
  always (Run x c args) (Run_shape args Q).
Proof.
  intros Hpub. unfold Run.
  apply always_Do. intros [[|] err].
  { apply always_Ret. by eapply shape_exit. }
  destruct args as [|arg0 rest].
  { apply always_Ret. apply shape_early; [by left|by repeat constructor]. }
  apply always_Do. intros [err1|[cRemote cName]].
  { apply always_Ret. apply shape_early; [right; by eexists|by repeat constructor]. }
  assert (∀ raw iRemote iName,
    always (Run_resolved x c (arg0 :: rest) (firstprop (arg0 :: rest))
              cRemote cName iRemote iName)
      (λ a ext, Run_shape (arg0 :: rest) Q a
         (Event (checkArgs (arg0 :: rest) 1 (-1)) (false, err)
          :: Event (ParseRemote arg0) (inr (cRemote, cName))
          :: Event (ParseRemote raw) (inr (iRemote, iName)) :: ext))) as Hres.
  { intros raw iRemote iName.
    eapply always_impl;
      [apply frames_always, Run_resolved_frames, Hpub|].
    intros r ext [[Hr Hext]|(pre & mid & post & -> & Hpre & Hpost & HQ)].
    - apply shape_early; [done|]. by repeat constructor.
    - eapply (shape_publish _ _ _ _ _ _ _ _ _ _
                (Event (checkArgs (arg0 :: rest) 1 (-1)) (false, err)
                 :: Event (ParseRemote arg0) (inr (cRemote, cName))
                 :: Event (ParseRemote raw) (inr (iRemote, iName)) :: pre)
                mid post); try reflexivity; try done.
      by repeat constructor. }
  unfold firstprop in Hres.
  destruct (_ && _).
  - apply always_Do. intros [err2|[iRemote iName]].
    + apply always_Ret. apply shape_early; [right; by eexists|by repeat constructor].
    + apply Hres.
  - apply always_Do. intros [err2|[iRemote iName]].
    + apply always_Ret. apply shape_early; [right; by eexists|by repeat constructor].
    + apply Hres.
Qed.

(** The names of a run, read off its trace, are those of its shape. *)
Lemma lookup_frame_pre {A : Type} (pre rest : list A) i x y :
  pre !! i = Some x → (pre ++ rest) !! i = Some y → x = y.
Proof.
  intros Hx Hy. rewrite (lookup_app_l_Some _ _ _ _ Hx) in Hy. congruence.
Qed.

(** Calls made before or after the publication are not of the
    publication. *)
Lemma before_publish_not (P : ∀ X : Type, call X → bool) l :
  (∀ X (c : call X), before_publish X c = true → P X c = false) →
  Forall (is_call before_publish) l → Forall (λ e, on_call P e = false) l.
Proof.
  intros HP Hl. eapply Forall_impl; [exact Hl|].
  intros [X c a] He. apply HP. exact He.
Qed.

(** ** The loop over the key=value arguments *)

(** One turn of the loop. *)
Lemma parse_properties_cons a rest acc :
  parse_properties (a :: rest) acc
  = match strings_Cut a "=" with
    | Some (key, value) => parse_properties rest (<[key := value]> acc)
    | None => inl (Errorf "Bad key=value pair: %s" [a])
    end.
Proof.
  simpl. unfold strings_SplitN2. by destruct (strings_Cut a "=") as [[key value]|].
Qed.

Lemma Contains_Cut a :
  strings_Contains a "=" = true ↔ ∃ key value, strings_Cut a "=" = Some (key, value).
Proof.
  unfold strings_Contains. destruct (strings_Cut a "=") as [[key value]|].
  - split; [by eexists _, _|done].
  - split; [done|]. by intros (? & ? & ?).
Qed.

Lemma parse_properties_app pre post acc :
  Forall (λ a, strings_Contains a "=" = true) pre →
  ∃ acc', parse_properties (pre ++ post) acc = parse_properties post acc'
          ∧ dom acc ⊆ dom acc'.
Proof.
  revert acc. induction pre as [|a pre IH]; intros acc Hpre.
  - by exists acc.
  - inversion Hpre as [|? ? Ha Hpre']; subst.
    apply Contains_Cut in Ha as (key & value & Ha).
    destruct (IH (<[key := value]> acc) Hpre') as (acc' & Heq & Hdom).
    exists acc'. split.
    + rewrite <- app_comm_cons, parse_properties_cons, Ha. exact Heq.
    + etransitivity; [|exact Hdom]. rewrite dom_insert_L. apply union_subseteq_r.
Qed.

Lemma parse_properties_inr_iff entries acc :
  (∃ m, parse_properties entries acc = inr m)
  ↔ Forall (λ a, strings_Contains a "=" = true) entries.
Proof.
  revert acc. induction entries as [|a rest IH]; intros acc.
  - split; [by constructor|]. intros _. by exists acc.
  - rewrite parse_properties_cons. split.
    + intros [m Hm]. destruct (strings_Cut a "=") as [[key value]|] eqn:Ha;
        [|discriminate Hm].
      constructor; [apply Contains_Cut; by eexists _, _|].
      apply (IH (<[key := value]> acc)). by exists m.
    + intros Hall. inversion Hall as [|? ? Ha Hrest]; subst.
      apply Contains_Cut in Ha as (key & value & ->).
      by apply IH.
Qed.

(** X17 — the loop over the key=value arguments accepts them exactly when
    every one of them contains an equals sign; otherwise it stops at the
    first one that does not, with the error "Bad key=value pair" naming
    that argument, whatever follows it. *)
Theorem parse_properties_stops_at_first_bad (entries : list string)
    (acc : gmap string string) :
  ((∃ m, parse_properties entries acc = inr m)
   ↔ Forall (λ a, strings_Contains a "=" = true) entries)
  ∧ (∀ pre bad post,
       entries = pre ++ bad :: post →
       Forall (λ a, strings_Contains a "=" = true) pre →
       strings_Contains bad "=" = false →
       parse_properties entries acc
       = inl (Errorf "Bad key=value pair: %s" [bad])).
Proof.
  split; [apply parse_properties_inr_iff|].
  intros pre bad post -> Hpre Hbad.
  destruct (parse_properties_app pre (bad :: post) acc Hpre) as (acc' & -> & _).
  rewrite parse_properties_cons. unfold strings_Contains in Hbad.
  by destruct (strings_Cut bad "=") as [[key value]|].
Qed.

Lemma parse_properties_stops_at_first_bad_witness :
  ((∃ m, parse_properties ["os=linux"; "broken"; "arch=x86"] ∅ = inr m)
   ↔ Forall (λ a, strings_Contains a "=" = true) ["os=linux"; "broken"; "arch=x86"])
  ∧ parse_properties ["os=linux"; "broken"; "arch=x86"] ∅
    = inl (Errorf "Bad key=value pair: %s" ["broken"]).
Proof.
  destruct (parse_properties_stops_at_first_bad
              ["os=linux"; "broken"; "arch=x86"] ∅) as [Hiff Hbad].
  split; [exact Hiff|].
  apply (Hbad ["os=linux"] "broken" ["arch=x86"]).
  - reflexivity.
  - repeat constructor.
  - reflexivity.
Defined.

Lemma parse_properties_keeps entries acc m k v :
  parse_properties entries acc = inr m →
  acc !! k = Some v →
  Forall (λ b, ∀ v', strings_Cut b "=" ≠ Some (k, v')) entries →
  m !! k = Some v.
Proof.
  revert acc. induction entries as [|a rest IH]; intros acc Hm Hk Hno.
  - simpl in Hm. by injection Hm as <-.
  - inversion Hno as [|? ? Ha Hrest]; subst.
    rewrite parse_properties_cons in Hm.
    destruct (strings_Cut a "=") as [[key value]|] eqn:Hcut; [|discriminate Hm].
    apply (IH _ Hm); [|done].
    rewrite lookup_insert_ne; [done|]. intros ->. by apply (Ha value).
Qed.

(** X18 — when a key is given more than once, the last value wins: the
    property map holds, under the key of an argument, that argument's
    value, provided no later argument has the same key.  The value is all
    that follows the first equals sign. *)
Theorem parse_properties_last_wins (pre post : list string) (a k v : string)
    (acc m : gmap string string) :
  parse_properties (pre ++ a :: post) acc = inr m →
  strings_Cut a "=" = Some (k, v) →
  Forall (λ b, ∀ v', strings_Cut b "=" ≠ Some (k, v')) post →
  m !! k = Some v.
Proof.
  intros Hm Ha Hpost.
  assert (Forall (λ a, strings_Contains a "=" = true) (pre ++ a :: post)) as Hall.
  { apply (parse_properties_inr_iff (pre ++ a :: post) acc). by exists m. }
  apply Forall_app in Hall as [Hpre _].
  destruct (parse_properties_app pre (a :: post) acc Hpre) as (acc' & Heq & _).
  rewrite Heq, parse_properties_cons, Ha in Hm.
  apply (parse_properties_keeps post (<[k := v]> acc') m k v Hm); [|done].
  apply lookup_insert_eq.
Qed.

Lemma parse_properties_last_wins_witness :
  ∃ m, parse_properties ["os=linux"; "os=bsd=2"; "arch=x86"] ∅ = inr m
       ∧ m !! "os" = Some "bsd=2".
Proof.
  eexists. split; [reflexivity|].
  apply (parse_properties_last_wins ["os=linux"] ["arch=x86"] "os=bsd=2"
           "os" "bsd=2" ∅ _); [reflexivity|reflexivity|].
  repeat constructor. intros v'. vm_compute. discriminate.
Defined.

(** ** Running the publication *)

(** One step of the publication: a return, a call, a deferred call, or a
    test. *)
Ltac publish_step :=
  cbn beta;
  first
    [ apply always_Ret
    | apply always_Do; intros ?
    | apply always_defer
    | match goal with
      | |- always (bind (if ?b then _ else _) _) _ => destruct b eqn:?
      | |- always (bind _ _) _ => progress cbn [bind]
      | |- always (match ?t with _ => _ end) _ => destruct t eqn:?
      end ].

Ltac publish_run :=
  unfold Run_publish, Run_aliases; repeat publish_step; cbn beta.

(** What the tests of a path say. *)
Ltac tests :=
  repeat match goal with
    | H : bool_decide _ = true |- _ => apply bool_decide_eq_true in H
    | H : bool_decide _ = false |- _ => apply bool_decide_eq_false in H
    | H : negb _ = true |- _ => apply negb_true_iff in H
    | H : negb _ = false |- _ => apply negb_false_iff in H
    | H : _ && _ = true |- _ => apply andb_true_iff in H as [? ?]
    end.

Lemma Exists_false_not_Forall (f : string → bool) l :
  Exists (λ a, f a = false) l → ¬ Forall (λ a, f a = true) l.
Proof.
  induction 1 as [a l Ha|a l _ IH]; intros Hall;
    inversion Hall as [|? ? Ha' Hl]; subst; [congruence|by apply IH].
Qed.

(** X19 — a malformed key=value argument stops the publication before it
    starts: [Run] makes no call but those on the arguments, the remotes,
    the servers and the instance, and does not return nil unless the check
    of the arguments asked to leave.  The arguments are looked at only
    after the block on the instance. *)
Theorem Run_bad_pair_publishes_nothing (x : externals) (c : cmdPublish)
    (args : list string) (E : env) (r : result) (tr : list event) :
  run (Run x c args) E [] = (r, tr) →
  Exists (λ a, strings_Contains a "=" = false) (drop (firstprop args) args) →
  Forall (is_call before_publish) tr
  ∧ (r = Done None → length tr = 1%nat).
Proof.
  intros Hrun Hbad.
  assert (∀ cName cRemote iRemote d s,
            always (Run_publish x c args (firstprop args) cName cRemote iRemote d s)
              (λ r ext, ext = [] ∧ failed r)) as Hpub.
  { intros. unfold Run_publish.
    destruct (parse_properties _ ∅) as [err|m] eqn:Hparse.
    - apply always_Ret. split; [done|]. right. by eexists.
    - exfalso. apply (Exists_false_not_Forall _ _ Hbad).
      apply (parse_properties_inr_iff _ ∅). by exists m. }
  destruct (always_run _ _ _ _ _ (Run_always x c args (λ _ _ _ r ext, ext = [] ∧ failed r) Hpub) Hrun)
    as [err -> ->|Hr Htr|e1 e2 cRemote cName iRemote iName pre mid post -> _ _ _ _ Hpre Hpost [-> Hr]].
  - split; [by repeat constructor|done].
  - split; [done|]. intros ->. by destruct Hr as [|[? ?]].
  - split; [by apply Forall_app|]. intros ->. by destruct Hr as [|[? ?]].
Qed.

Lemma Run_bad_pair_publishes_nothing_witness :
  Forall (is_call before_publish)
    (run (Run externals0 (cmd0 true) ["c1"; "os=linux"; "broken"]) (world0 100) []).2
  ∧ ((run (Run externals0 (cmd0 true) ["c1"; "os=linux"; "broken"]) (world0 100) []).1
     = Done None →
     length (run (Run externals0 (cmd0 true) ["c1"; "os=linux"; "broken"])
               (world0 100) []).2 = 1%nat).
Proof.
  apply (Run_bad_pair_publishes_nothing externals0 (cmd0 true)
           ["c1"; "os=linux"; "broken"] (world0 100)).
  - symmetry. apply surjective_pairing.
  - apply Exists_cons_tl, Exists_cons_hd. reflexivity.
Defined.

(** In that run the instance is stopped and started again all the
    same. *)
Example Run_bad_pair_still_stops :
  Exists (λ e, stop_request e = true)
    (run (Run externals0 (cmd0 true) ["c1"; "os=linux"; "broken"]) (world0 100) []).2
  ∧ Exists (λ e, start_request e = true)
    (run (Run externals0 (cmd0 true) ["c1"; "os=linux"; "broken"]) (world0 100) []).2
  ∧ (run (Run externals0 (cmd0 true) ["c1"; "os=linux"; "broken"]) (world0 100) []).1
    = Done (Some (Errorf "Bad key=value pair: %s" ["broken"])).
Proof.
  split; [|split].
  - vm_compute. do 7 apply Exists_cons_tl. apply Exists_cons_hd. reflexivity.
  - vm_compute. do 12 apply Exists_cons_tl. apply Exists_cons_hd. reflexivity.
  - vm_compute. reflexivity.
Qed.

(** The answers of type [unit]. *)
Ltac units :=
  repeat match goal with u : () |- _ => destruct u end.

(** Find a sequence of events, in order, in a given trace. *)
Ltac find_events :=
  repeat first
    [ apply sublist_nil_l
    | apply sublist_skip
    | apply sublist_cons ].

(** X20 — [Run] returns nil only when the image has been published: unless
    the check of the arguments asked to leave (one call, then), the trace
    holds, in this order, an accepted [CreateImage], the handler added and
    the wait for that operation answered without error, the read of the
    operation with a string under "fingerprint", [ensureImageAliases] for
    the aliases of the command line and that fingerprint answered without
    error, and the line that reports the fingerprint. *)
Theorem Run_nil_means_published (x : externals) (c : cmdPublish)
    (args : list string) (E : env) (tr : list event) :
  run (Run x c args) E [] = (Done None, tr) →
  length tr = 1%nat
  ∨ ∃ s d req op meta fingerprint,
      meta !! "fingerprint" = Some (any_string fingerprint)
      ∧ [ Event (CreateImage s req) (inr op);
          Event (AddHandler op) None;
          Event (CancelableWait op) None;
          Event (Get op) meta;
          Event (ensureImageAliases d (flagAliases c) fingerprint) None;
          Event (Printf (String.append "Instance published with fingerprint: %s"
                           newline) [fingerprint]) tt ]
        `sublist_of` tr.
Proof.
  intros Hrun.
  pose (Q := λ (_ _ _ : string) (r : result) (ext : list event),
    r = Done None →
    ∃ s d req op meta fingerprint,
      meta !! "fingerprint" = Some (any_string fingerprint)
      ∧ [ Event (CreateImage s req) (inr op);
          Event (AddHandler op) None;
          Event (CancelableWait op) None;
          Event (Get op) meta;
          Event (ensureImageAliases d (flagAliases c) fingerprint) None;
          Event (Printf (String.append "Instance published with fingerprint: %s"
                           newline) [fingerprint]) tt ]
        `sublist_of` ext).
  assert (∀ cName cRemote iRemote d s,
            always (Run_publish x c args (firstprop args) cName cRemote iRemote d s)
              (Q cName cRemote iRemote)) as Hpub.
  { intros. unfold Q. publish_run.
    all: try (intros [=]; fail).
    all: units; intros _; eexists _, _, _, _, _, _.
    all: split; [|cbn [app]; find_events]; eassumption. }
  destruct (always_run _ _ _ _ _ (Run_always x c args Q Hpub) Hrun)
    as [err -> _|Hr _|e1 e2 cRemote cName iRemote iName pre mid post -> _ _ _ _ _ _ HQ].
  - by left.
  - by destruct Hr as [|[? ?]].
  - right. destruct (HQ eq_refl) as (s & d & req & op & meta & fp & Hfp & Hsub).
    exists s, d, req, op, meta, fp. split; [done|].
    by apply sublist_inserts_l, sublist_inserts_r.
Qed.

Lemma Run_nil_means_published_witness :
  length (run (Run externals0 (cmd0 true) ["c1"]) (world0 100) []).2 = 1%nat
  ∨ ∃ s d req op meta fingerprint,
      meta !! "fingerprint" = Some (any_string fingerprint)
      ∧ [ Event (CreateImage s req) (inr op);
          Event (AddHandler op) None;
          Event (CancelableWait op) None;
          Event (Get op) meta;
          Event (ensureImageAliases d (flagAliases (cmd0 true)) fingerprint) None;
          Event (Printf (String.append "Instance published with fingerprint: %s"
                           newline) [fingerprint]) tt ]
        `sublist_of` (run (Run externals0 (cmd0 true) ["c1"]) (world0 100) []).2.
Proof.
  apply (Run_nil_means_published externals0 (cmd0 true) ["c1"] (world0 100)).
  reflexivity.
Defined.

(** ** The copy to the target and the image left on the source *)

Lemma before_publish_get_image e :
  is_call before_publish e → get_image e = None.
Proof. destruct e as [X c a]. by destruct c. Qed.

Lemma cleaned_up_before l :
  Forall (is_call before_publish) l → cleaned_up l.
Proof.
  induction 1 as [|e l He _ IH]; simpl; [done|]. split; [|done].
  intros s fp Hget. by rewrite (before_publish_get_image e He) in Hget.
Qed.

Lemma cleaned_up_app l l' : cleaned_up l → cleaned_up l' → cleaned_up (l ++ l').
Proof.
  intros Hl Hl'. induction l as [|e l IH]; simpl; [done|].
  destruct Hl as [He Hl]. split; [|by apply IH].
  intros s fp Hget. apply Exists_app. left. by apply He.
Qed.

Lemma cleaned_up_split l1 e l2 s fp :
  cleaned_up (l1 ++ e :: l2) → get_image e = Some (s, fp) →
  Exists (λ e', deleted_image e' = Some (s, fp)) l2.
Proof.
  induction l1 as [|e' l1 IH]; simpl; intros [He Hl] Hget; [by apply He|].
  by apply IH.
Qed.

(** Find the event that deletes the image. *)
Ltac find_delete :=
  repeat first [ apply Exists_cons_hd; reflexivity | apply Exists_cons_tl ].

(** X21 — the image made on the source for a remote publication does not
    stay there: whenever [Run] has asked the source server for the image
    to copy, it asks the same server to delete that image before it
    returns, whether the copy, the wait for it or the aliases succeeded
    or not. *)
Theorem Run_deletes_copied_image (x : externals) (c : cmdPublish)
    (args : list string) (E : env) (r : result) (tr l1 l2 : list event)
    (e : event) (s : InstanceServer) (fingerprint : string) :
  run (Run x c args) E [] = (r, tr) →
  tr = l1 ++ e :: l2 →
  get_image e = Some (s, fingerprint) →
  Exists (λ e', deleted_image e' = Some (s, fingerprint)) l2.
Proof.
  intros Hrun -> Hget.
  assert (∀ cName cRemote iRemote d s,
            always (Run_publish x c args (firstprop args) cName cRemote iRemote d s)
              (λ _ ext, cleaned_up ext)) as Hpub.
  { intros. publish_run.
    all: cbn [app cleaned_up]; repeat split.
    all: intros ? ? Heq; simpl in Heq; try discriminate Heq.
    all: injection Heq as <- <-; find_delete. }
  apply (cleaned_up_split l1 e l2); [|done].
  destruct (always_run _ _ _ _ _ (Run_always x c args (λ _ _ _ _ ext, cleaned_up ext) Hpub) Hrun)
    as [err Htr _|_ Htr|e1 e2 cRemote cName iRemote iName pre mid post -> _ _ _ _ Hpre Hpost HQ].
  - rewrite Htr. by repeat split.
  - by apply cleaned_up_before.
  - apply cleaned_up_app; [by apply cleaned_up_before|].
    apply cleaned_up_app; [done|by apply cleaned_up_before].
Qed.

Lemma Run_deletes_copied_image_witness :
  Exists (λ e', deleted_image e' = Some ("local", "0a1b2c"))
    (drop 21 (run (Run externals0 (cmd1 ["web"] true false) ["c1"])
                (world_remote false) []).2).
Proof.
  apply (Run_deletes_copied_image externals0 (cmd1 ["web"] true false) ["c1"]
           (world_remote false)
           (run (Run externals0 (cmd1 ["web"] true false) ["c1"])
              (world_remote false) []).1
           (run (Run externals0 (cmd1 ["web"] true false) ["c1"])
              (world_remote false) []).2
           (take 20 (run (Run externals0 (cmd1 ["web"] true false) ["c1"])
                       (world_remote false) []).2)
           _ (Event (GetImage "local" "0a1b2c") (inr "image"))).
  - symmetry. apply surjective_pairing.
  - vm_compute. reflexivity.
  - reflexivity.
Defined.

(** Calls made before or after the publication create and copy
    nothing. *)
Lemma before_publish_create e req :
  is_call before_publish e → create_request e = Some req → False.
Proof. destruct e as [X c a]. by destruct c. Qed.

Lemma before_publish_copy_public e public :
  is_call before_publish e → copy_public e = Some public → False.
Proof. destruct e as [X c a]. by destruct c. Qed.

Lemma before_publish_copy l :
  Forall (is_call before_publish) l →
  Forall (λ e, on_call copy_call e = false) l.
Proof. apply before_publish_not. intros X c. by destruct c. Qed.

(** X22 — an image is made public on the target only.  When the instance
    and the image are on the same remote, [Run] makes no call of the copy
    ([GetImage], [CopyImage], [DeleteImage]) and the image is created with
    the public flag of the command line; when they are not, the image is
    created private on the source and the flag goes with the copy. *)
Theorem Run_public_on_target_only (x : externals) (c : cmdPublish)
    (args : list string) (E : env) (r : result) (tr : list event)
    (e1 e2 : event) (cRemote cName iRemote iName : string) :
  run (Run x c args) E [] = (r, tr) →
  tr !! 1%nat = Some e1 → parsed e1 = Some (cRemote, cName) →
  tr !! 2%nat = Some e2 → parsed e2 = Some (iRemote, iName) →
  (cRemote = iRemote → Forall (λ e, on_call copy_call e = false) tr)
  ∧ Forall (λ e,
      (∀ req, create_request e = Some req →
         Public req = if bool_decide (cRemote = iRemote)
                      then flagMakePublic c else false)
      ∧ (∀ public, copy_public e = Some public → public = flagMakePublic c)) tr.
Proof.
  intros Hrun H1 Hp1 H2 Hp2.
  pose (Q := λ (_ cRemote iRemote : string) (_ : result) (ext : list event),
    (cRemote = iRemote → Forall (λ e, on_call copy_call e = false) ext)
    ∧ Forall (λ e,
        (∀ req, create_request e = Some req →
           Public req = if bool_decide (cRemote = iRemote)
                        then flagMakePublic c else false)
        ∧ (∀ public, copy_public e = Some public → public = flagMakePublic c))
        ext).
  assert (∀ cName cRemote iRemote d s,
            always (Run_publish x c args (firstprop args) cName cRemote iRemote d s)
              (Q cName cRemote iRemote)) as Hpub.
  { intros. unfold Q. publish_run.
    all: cbn [app]; split.
    all: try (intros ?; tests; try done; by repeat constructor).
    all: repeat (apply Forall_cons_2;
                 [split; intros ? [= <-]; reflexivity|]); apply Forall_nil_2. }
  assert (∀ l, Forall (is_call before_publish) l →
    Forall (λ e,
      (∀ req, create_request e = Some req →
         Public req = if bool_decide (cRemote = iRemote)
                      then flagMakePublic c else false)
      ∧ (∀ public, copy_public e = Some public → public = flagMakePublic c)) l)
    as Hbefore.
  { intros l Hl. eapply Forall_impl; [exact Hl|]. intros e He. split.
    - intros req Hreq. by destruct (before_publish_create e req).
    - intros public Hpublic. by destruct (before_publish_copy_public e public). }
  destruct (always_run _ _ _ _ _ (Run_always x c args Q Hpub) Hrun)
    as [err Htr _|_ Htr|e1' e2' cR cN iR iN pre mid post Htr H1' Hp1' H2' Hp2' Hpre Hpost [Hc HQ]].
  - by rewrite Htr in H1.
  - split; [intros _; by apply before_publish_copy|by apply Hbefore].
  - subst tr.
    rewrite (lookup_frame_pre _ _ _ _ _ H1' H1) in Hp1'.
    rewrite (lookup_frame_pre _ _ _ _ _ H2' H2) in Hp2'.
    assert (cR = cRemote) as -> by congruence.
    assert (iR = iRemote) as -> by congruence.
    split.
    + intros Heq. apply Forall_app. split; [by apply before_publish_copy|].
      apply Forall_app. split; [by apply Hc|by apply before_publish_copy].
    + apply Forall_app. split; [by apply Hbefore|].
      apply Forall_app. split; [done|by apply Hbefore].
Qed.

Lemma Run_public_on_target_only_witness :
  ("local" = "images" →
   Forall (λ e, on_call copy_call e = false)
     (run (Run externals0 (cmd1 ["web"] true false) ["c1"])
        (world_remote false) []).2)
  ∧ Forall (λ e,
      (∀ req, create_request e = Some req →
         Public req = if bool_decide ("local" = "images")
                      then flagMakePublic (cmd1 ["web"] true false) else false)
      ∧ (∀ public, copy_public e = Some public →
           public = flagMakePublic (cmd1 ["web"] true false)))
      (run (Run externals0 (cmd1 ["web"] true false) ["c1"])
         (world_remote false) []).2.
Proof.
  apply (Run_public_on_target_only externals0 (cmd1 ["web"] true false) ["c1"]
           (world_remote false)
           (run (Run externals0 (cmd1 ["web"] true false) ["c1"])
              (world_remote false) []).1 _
           (Event (ParseRemote "c1") (inr ("local", "c1")))
           (Event (ParseRemote EmptyString) (inr ("images", EmptyString)))
           "local" "c1" "images" EmptyString).
  - symmetry. apply surjective_pairing.
  - vm_compute. reflexivity.
  - reflexivity.
  - vm_compute. reflexivity.
  - reflexivity.
Defined.

(** ** Aliases in use and the image request *)

Lemma before_publish_aliases e :
  is_call before_publish e → common_aliases e = None.
Proof. destruct e as [X c a]. by destruct c. Qed.

Lemma before_publish_image l :
  Forall (is_call before_publish) l →
  Forall (λ e, on_call image_call e = false) l.
Proof. apply before_publish_not. intros X c. by destruct c. Qed.

Lemma before_publish_deletes l :
  Forall (is_call before_publish) l →
  Forall (λ e, on_call deletes_by_alias e = false) l.
Proof. apply before_publish_not. intros X c. by destruct c. Qed.

(** X23 — without the reuse flag nothing is taken from an alias in use:
    [Run] never calls [deleteImagesByAliases], and when [GetCommonAliases]
    reports that some of the aliases exist on the target, [Run] returns
    "Aliases already exists" with their names and has created, copied and
    deleted no image and set no alias. *)
Theorem Run_without_reuse_keeps_aliases (x : externals) (c : cmdPublish)
    (args : list string) (E : env) (r : result) (tr : list event) :
  run (Run x c args) E [] = (r, tr) →
  flagReuse c = false →
  Forall (λ e, on_call deletes_by_alias e = false) tr
  ∧ ∀ e existing,
      e ∈ tr → common_aliases e = Some existing → existing ≠ [] →
      r = Done (Some (Errorf "Aliases already exists: %s"
                        [strings_Join existing ", "]))
      ∧ Forall (λ e', on_call image_call e' = false) tr.
Proof.
  intros Hrun Hreuse.
  pose (Q := λ (_ _ _ : string) (r : result) (ext : list event),
    Forall (λ e, on_call deletes_by_alias e = false) ext
    ∧ Forall (λ e, ∀ existing,
        common_aliases e = Some existing → existing ≠ [] →
        r = Done (Some (Errorf "Aliases already exists: %s"
                          [strings_Join existing ", "]))
        ∧ Forall (λ e', on_call image_call e' = false) ext) ext).
  assert (∀ cName cRemote iRemote d s,
            always (Run_publish x c args (firstprop args) cName cRemote iRemote d s)
              (Q cName cRemote iRemote)) as Hpub.
  { intros. unfold Q, Run_publish, Run_aliases. rewrite Hreuse. cbn [negb andb].
    repeat publish_step; cbn beta.
    all: cbn [app]; split; [by repeat constructor|].
    all: repeat (apply Forall_cons_2;
                 [intros existing Hc Hne; simpl in Hc; try discriminate Hc|]);
           try apply Forall_nil_2.
    all: injection Hc as <-.
    all: first
           [ split; [reflexivity|by repeat constructor]
           | exfalso; tests;
             match goal with
             | H : ?l ≠ [] |- _ => destruct l; [done|simpl in *; lia]
             end ]. }
  destruct (always_run _ _ _ _ _ (Run_always x c args Q Hpub) Hrun)
    as [err Htr _|_ Htr|e1 e2 cR cN iR iN pre mid post Htr _ _ _ _ Hpre Hpost [Hd HQ]].
  - subst tr. split; [by repeat constructor|].
    intros e existing He Hc. apply list_elem_of_singleton in He as ->. done.
  - split; [by apply before_publish_deletes|].
    intros e existing He Hc.
    rewrite Forall_forall in Htr. by rewrite (before_publish_aliases e (Htr e He)) in Hc.
  - subst tr. split.
    + apply Forall_app. split; [by apply before_publish_deletes|].
      apply Forall_app. split; [done|by apply before_publish_deletes].
    + intros e existing He Hc Hne.
      assert (e ∈ mid) as Hmid.
      { apply elem_of_app in He as [He|He].
        - rewrite Forall_forall in Hpre.
          by rewrite (before_publish_aliases e (Hpre e He)) in Hc.
        - apply elem_of_app in He as [He|He]; [done|].
          rewrite Forall_forall in Hpost.
          by rewrite (before_publish_aliases e (Hpost e He)) in Hc. }
      rewrite Forall_forall in HQ.
      destruct (HQ e Hmid existing Hc Hne) as [-> Hno]. split; [done|].
      apply Forall_app. split; [by apply before_publish_image|].
      apply Forall_app. split; [done|by apply before_publish_image].
Qed.

Lemma Run_without_reuse_keeps_aliases_witness :
  Forall (λ e, on_call deletes_by_alias e = false)
    (run (Run externals0 (cmd1 ["web"] true false) ["c1"]) (world_remote true) []).2
  ∧ ∀ e existing,
      e ∈ (run (Run externals0 (cmd1 ["web"] true false) ["c1"])
             (world_remote true) []).2 →
      common_aliases e = Some existing → existing ≠ [] →
      (run (Run externals0 (cmd1 ["web"] true false) ["c1"]) (world_remote true) []).1
      = Done (Some (Errorf "Aliases already exists: %s"
                      [strings_Join existing ", "]))
      ∧ Forall (λ e', on_call image_call e' = false)
          (run (Run externals0 (cmd1 ["web"] true false) ["c1"])
             (world_remote true) []).2.
Proof.
  apply (Run_without_reuse_keeps_aliases externals0 (cmd1 ["web"] true false)
           ["c1"] (world_remote true)).
  - symmetry. apply surjective_pairing.
  - reflexivity.
Defined.

(** In that world the alias "web" is in use and the run ends with the
    error. *)
Example Run_alias_in_use :
  Exists (λ e, common_aliases e = Some ["web"])
    (run (Run externals0 (cmd1 ["web"] true false) ["c1"]) (world_remote true) []).2
  ∧ (run (Run externals0 (cmd1 ["web"] true false) ["c1"]) (world_remote true) []).1
    = Done (Some (Errorf "Aliases already exists: %s" ["web"])).
Proof.
  split; [|vm_compute; reflexivity].
  vm_compute. do 14 apply Exists_cons_tl. apply Exists_cons_hd. reflexivity.
Qed.

(** The property map is empty only when there was nothing to put in. *)
Lemma parse_properties_dom entries acc m :
  parse_properties entries acc = inr m → dom acc ⊆ dom m.
Proof.
  intros Hm.
  assert (Forall (λ a, strings_Contains a "=" = true) entries) as Hall.
  { apply (parse_properties_inr_iff entries acc). by exists m. }
  destruct (parse_properties_app entries [] acc Hall) as (acc' & Heq & Hdom).
  rewrite app_nil_r, Hm in Heq. simpl in Heq. by injection Heq as ->.
Qed.

Lemma parse_properties_size entries m :
  parse_properties entries ∅ = inr m → size m = 0%nat ↔ entries = [].
Proof.
  intros Hm. split.
  - intros Hsize. apply map_size_empty_iff in Hsize as ->.
    destruct entries as [|a rest]; [done|].
    rewrite parse_properties_cons in Hm.
    destruct (strings_Cut a "=") as [[key value]|]; [|discriminate Hm].
    apply parse_properties_dom in Hm.
    rewrite dom_insert_L, dom_empty_L in Hm. set_solver.
  - intros ->. simpl in Hm. injection Hm as <-. apply map_size_empty.
Qed.

Lemma drop_nil_length {A : Type} (l : list A) n :
  drop n l = [] ↔ (length l ≤ n)%nat.
Proof.
  split; [|apply drop_ge].
  intros Hd. apply (f_equal length) in Hd. rewrite length_drop in Hd.
  simpl in Hd. lia.
Qed.

(** The request [Run] builds. *)
Lemma request_for_built x c args cName source_type g public expiresAt :
  parse_properties (drop (firstprop args) args) ∅ = inr g →
  (IsSnapshot x cName = true ∧ source_type = "snapshot")
  ∨ (IsSnapshot x cName = false
     ∧ ∃ has : bool, source_type = if has then "instance" else "container") →
  (if bool_decide (flagExpiresAt c ≠ EmptyString)
   then match time_Parse x (flagExpiresAt c) with
        | inl err => inl (Errorf_w "Invalid expiration date: %w" [] err)
        | inr expiresAt => inr expiresAt
        end
   else inr 0) = inr expiresAt →
  request_for x c args cName
    {| Source := {| source_Type := source_type; source_Name := cName |};
       CompressionAlgorithm := flagCompressionAlgorithm c;
       Properties := if bool_decide (size g = 0%nat) then None else Some g;
       Public := public;
       ExpiresAt := expiresAt;
       Format := flagFormat c |}.
Proof.
  intros Hg Htype Hexp. unfold request_for. simpl.
  split; [done|]. split; [|split]; [| |split; [|split; [|split; [done|split; [done|]]]]].
  - destruct Htype as [[Hs ->]|[Hs [[|] ->]]]; rewrite Hs;
      split; intros Heq; first [done|discriminate Heq].
  - destruct Htype as [[_ ->]|[_ [[|] ->]]]; set_solver.
  - rewrite Hg. f_equal.
    destruct (bool_decide (size g = 0%nat)) eqn:Hsize; simpl; [|done].
    apply bool_decide_eq_true in Hsize. by apply map_size_empty_iff in Hsize.
  - rewrite <- drop_nil_length, <- (parse_properties_size _ g Hg).
    destruct (bool_decide (size g = 0%nat)) eqn:Hsize.
    + apply bool_decide_eq_true in Hsize. by split.
    + apply bool_decide_eq_false in Hsize. by split.
  - destruct (bool_decide (flagExpiresAt c = EmptyString)) eqn:Hflag.
    + apply bool_decide_eq_true in Hflag.
      rewrite bool_decide_false in Hexp by (by intros []). by injection Hexp as <-.
    + apply bool_decide_eq_false in Hflag.
      rewrite bool_decide_true in Hexp by done.
      by destruct (time_Parse x (flagExpiresAt c)); [|injection Hexp as <-].
Qed.

(** X24 — what [Run] asks the server to create.  Every [CreateImage] of a
    run carries the instance name parsed from the first argument; the
    source type "snapshot" exactly when that name is a snapshot name, and
    "instance" or "container" otherwise; the properties parsed from the
    key=value arguments, and no property map at all exactly when there is
    no such argument; the compression algorithm and the format of the
    command line; and the parsed expiry date, or the zero time when the
    flag is empty. *)
Theorem Run_image_request (x : externals) (c : cmdPublish)
    (args : list string) (E : env) (r : result) (tr : list event)
    (e1 e : event) (cRemote cName : string) (req : ImagesPost) :
  run (Run x c args) E [] = (r, tr) →
  tr !! 1%nat = Some e1 → parsed e1 = Some (cRemote, cName) →
  e ∈ tr → create_request e = Some req →
  request_for x c args cName req.
Proof.
  intros Hrun H1 Hp1 He Hreq.
  pose (Q := λ (cName _ _ : string) (_ : result) (ext : list event),
    Forall (λ e, ∀ req, create_request e = Some req →
                        request_for x c args cName req) ext).
  assert (∀ cName cRemote iRemote d s,
            always (Run_publish x c args (firstprop args) cName cRemote iRemote d s)
              (Q cName cRemote iRemote)) as Hpub.
  { intros. unfold Q. publish_run.
    all: cbn [app].
    all: repeat (apply Forall_cons_2; [intros ? [= <-]|]); try apply Forall_nil_2.
    all: eapply request_for_built; [eassumption| |eassumption].
    all: first [ left; by split | right; split; [done|by eexists] ]. }
  destruct (always_run _ _ _ _ _ (Run_always x c args Q Hpub) Hrun)
    as [err Htr _|_ Htr|e1' e2' cR cN iR iN pre mid post Htr H1' Hp1' _ _ Hpre Hpost HQ].
  - by rewrite Htr in H1.
  - rewrite Forall_forall in Htr.
    by destruct (before_publish_create e req (Htr e He)).
  - subst tr. rewrite (lookup_frame_pre _ _ _ _ _ H1' H1) in Hp1'.
    assert (cN = cName) as -> by congruence.
    apply elem_of_app in He as [He|He].
    { rewrite Forall_forall in Hpre.
      by destruct (before_publish_create e req (Hpre e He)). }
    apply elem_of_app in He as [He|He].
    + unfold Q in HQ. rewrite Forall_forall in HQ. by apply (HQ e He).
    + rewrite Forall_forall in Hpost.
      by destruct (before_publish_create e req (Hpost e He)).
Qed.

Lemma Run_image_request_witness :
  request_for externals0 (cmd1 ["web"] true false) ["c1"; "os=linux"] "c1"
    {| Source := {| source_Type := "instance"; source_Name := "c1" |};
       CompressionAlgorithm := EmptyString;
       Properties := Some {[ "os" := "linux" ]};
       Public := false;
       ExpiresAt := 0;
       Format := "unified" |}.
Proof.
  apply (Run_image_request externals0 (cmd1 ["web"] true false)
           ["c1"; "os=linux"] (world_remote false)
           (run (Run externals0 (cmd1 ["web"] true false) ["c1"; "os=linux"])
              (world_remote false) []).1
           (run (Run externals0 (cmd1 ["web"] true false) ["c1"; "os=linux"])
              (world_remote false) []).2
           (Event (ParseRemote "c1") (inr ("local", "c1")))
           (Event (CreateImage "local"
                     {| Source := {| source_Type := "instance"; source_Name := "c1" |};
                        CompressionAlgorithm := EmptyString;
                        Properties := Some {[ "os" := "linux" ]};
                        Public := false;
                        ExpiresAt := 0;
                        Format := "unified" |}) (inr 15%nat))
           "local").
  - symmetry. apply surjective_pairing.
  - vm_compute. reflexivity.
  - reflexivity.
  - apply list_elem_of_lookup. exists 15%nat. vm_compute. reflexivity.
  - reflexivity.
Defined.

(** ** Errors of the publication *)

Lemma before_publish_image_error e :
  is_call before_publish e → image_error e = None.
Proof. destruct e as [X c a]. by destruct c. Qed.

Lemma fails_fast_before r l :
  Forall (is_call before_publish) l → fails_fast r l.
Proof.
  induction 1 as [|e l He _ IH]; simpl; [done|]. split; [|done].
  intros err Herr. by rewrite (before_publish_image_error e He) in Herr.
Qed.

Lemma fails_fast_app r l post :
  fails_fast r l → Forall (is_call before_publish) post →
  fails_fast r (l ++ post).
Proof.
  intros Hl Hpost. induction l as [|e l IH]; simpl.
  - by apply fails_fast_before.
  - destruct Hl as [He Hl]. split; [|by apply IH].
    intros err Herr. destruct (He err Herr) as [-> Hrest]. split; [done|].
    apply Forall_app. split; [done|].
    eapply Forall_impl; [exact Hpost|]. intros e' He'. by left.
Qed.

Lemma fails_fast_split r l1 e l2 err :
  fails_fast r (l1 ++ e :: l2) → image_error e = Some err →
  r = Done (Some err)
  ∧ Forall (λ e', is_call before_publish e' ∨ is_call cleanup_call e') l2.
Proof.
  induction l1 as [|e' l1 IH]; simpl; intros [He Hl] Herr; [by apply He|].
  by apply IH.
Qed.

(** X25 — a failure of the publication is returned as it is and ends the
    publication: when [CreateImage], the handler, the wait for the image,
    [GetImage], [CopyImage], [deleteImagesByAliases] or
    [ensureImageAliases] answers with an error, [Run] returns that very
    error, and all it still does is end the progress display, delete the
    image made for the copy and see to the instance. *)
Theorem Run_returns_image_errors (x : externals) (c : cmdPublish)
    (args : list string) (E : env) (r : result) (tr l1 l2 : list event)
    (e : event) (err : error) :
  run (Run x c args) E [] = (r, tr) →
  tr = l1 ++ e :: l2 →
  image_error e = Some err →
  r = Done (Some err)
  ∧ Forall (λ e', is_call before_publish e' ∨ is_call cleanup_call e') l2.
Proof.
  intros Hrun -> Herr.
  assert (∀ cName cRemote iRemote d s,
            always (Run_publish x c args (firstprop args) cName cRemote iRemote d s)
              (λ r ext, fails_fast r ext)) as Hpub.
  { intros. publish_run.
    all: cbn [app fails_fast]; repeat split.
    all: try match goal with
             | H : image_error _ = Some _ |- _ =>
                 simpl in H; try discriminate H; injection H as <-
             end.
    all: first [ reflexivity
               | repeat (apply Forall_cons_2; [by right|]); apply Forall_nil_2 ]. }
  apply (fails_fast_split r l1 e l2 err); [|done].
  destruct (always_run _ _ _ _ _ (Run_always x c args (λ _ _ _ r ext, fails_fast r ext) Hpub) Hrun)
    as [err' Htr _|_ Htr|e1 e2 cRemote cName iRemote iName pre mid post -> _ _ _ _ Hpre Hpost HQ].
  - rewrite Htr. by repeat split.
  - by apply fails_fast_before.
  - assert (fails_fast r (mid ++ post)) as Hmid by (by apply fails_fast_app).
    clear -Hpre Hmid. induction Hpre as [|e' pre He' _ IH]; simpl; [done|].
    split; [|done]. intros err' Herr'.
    by rewrite (before_publish_image_error e' He') in Herr'.
Qed.

Lemma Run_returns_image_errors_witness :
  let E : env :=
    λ X n c,
      match c in call X return X with
      | CopyImage _ _ _ _ => inl (errors_New "target unreachable")
      | c => world_remote false _ n c
      end in
  (run (Run externals0 (cmd1 ["web"] true false) ["c1"]) E []).1
  = Done (Some (errors_New "target unreachable"))
  ∧ Forall (λ e', is_call before_publish e' ∨ is_call cleanup_call e')
      (drop 22 (run (Run externals0 (cmd1 ["web"] true false) ["c1"]) E []).2).
Proof.
  intros E.
  apply (Run_returns_image_errors externals0 (cmd1 ["web"] true false) ["c1"] E
           (run (Run externals0 (cmd1 ["web"] true false) ["c1"]) E []).1
           (run (Run externals0 (cmd1 ["web"] true false) ["c1"]) E []).2
           (take 21 (run (Run externals0 (cmd1 ["web"] true false) ["c1"]) E []).2)
           _ (Event (CopyImage "images" "local" "image" true)
                (inl (errors_New "target unreachable")))).
  - symmetry. apply surjective_pairing.
  - vm_compute. reflexivity.
  - reflexivity.
Defined.
